(** * StringZilla C++ wrapper: character sets, string views, lazy ranges and
      the small-buffer-optimised owning string.

    A shallow embedding of [include/stringzilla/stringzilla.hpp].

    - [size_type] / [sz_size_t] values are integers in [Z]; the 64-bit
      wrap-around of unsigned arithmetic is written out with [wrap].
    - A [char const *] is an address in [Z]; read-only memory is a total map
      from addresses to bytes.  A nullable pointer returned by the C engine
      is an [option].
    - [assert]-guarded operations return [None] when the assertion fails.
    - The C engine of [stringzilla.h] ([sz_find], [sz_equal], [sz_u8_set_*],
      [sz_string_*] ...) is not part of the C++ header: each of its
      operations used here is modelled from the specification and marked
      so. *)

From Stdlib Require Import ZArith List Lia Bool Sorted.
From Stdlib Require Import Strings.Byte Strings.String.
Import ListNotations.

Local Open Scope Z_scope.

(* ------------------------------------------------------------------------- *)
(** ** Machine integers, memory, and the option monad *)

Definition sz_size_max : Z := 2 ^ 64 - 1.

(** Unsigned 64-bit wrap-around. *)
Definition wrap (x : Z) : Z := x mod 2 ^ 64.

(** [sz_min_of_two(x, y)]: the macro [(x < y ? x : y)]. *)
Definition sz_min_of_two (x y : Z) : Z := if x <? y then x else y.

(** Read-only byte memory, addressed by [Z]. *)
Definition memory : Type := Z -> byte.

Definition nullptr : Z := 0.

(** Lays the byte list [l] out at address [base]; every other address
    reads as zero. *)
Definition mem_of (base : Z) (l : list byte) : memory :=
  fun a => if a <? base then x00 else nth (Z.to_nat (a - base)) l x00.

Definition bind {A B : Type} (o : option A) (k : A -> option B) : option B :=
  match o with
  | Some a => k a
  | None => None
  end.

Declare Scope cxx_scope.
Delimit Scope cxx_scope with cxx.
Notation "x <- e ;; k" := (bind e (fun x => k))
  (at level 61, e at next level, right associativity) : cxx_scope.
Local Open Scope cxx_scope.

(** The first address [a] in [h, h + count) with [p a], if any. *)
Fixpoint scan_first (p : Z -> bool) (h : Z) (count : nat) : option Z :=
  match count with
  | O => None
  | S c => if p h then Some h else scan_first p (h + 1) c
  end.

(** The last address [a] in [h, h + count) with [p a], if any. *)
Fixpoint scan_last (p : Z -> bool) (h : Z) (count : nat) : option Z :=
  match count with
  | O => None
  | S c => if p (h + Z.of_nat c) then Some (h + Z.of_nat c) else scan_last p h c
  end.

(* ------------------------------------------------------------------------- *)
(** ** [sz_u8_set_t] and [class character_set] *)

(** The four 64-bit words [_u64s[0..3]] of the bitset. *)
Record sz_u8_set_t : Type := mk_u8_set { u64s0 : Z; u64s1 : Z; u64s2 : Z; u64s3 : Z }.

Definition u64s (s : sz_u8_set_t) (i : Z) : Z :=
  if i =? 0 then u64s0 s
  else if i =? 1 then u64s1 s
  else if i =? 2 then u64s2 s
  else u64s3 s.

(** [s._u64s[i] |= m]. *)
Definition u64s_or (s : sz_u8_set_t) (i m : Z) : sz_u8_set_t :=
  if i =? 0 then mk_u8_set (Z.lor (u64s0 s) m) (u64s1 s) (u64s2 s) (u64s3 s)
  else if i =? 1 then mk_u8_set (u64s0 s) (Z.lor (u64s1 s) m) (u64s2 s) (u64s3 s)
  else if i =? 2 then mk_u8_set (u64s0 s) (u64s1 s) (Z.lor (u64s2 s) m) (u64s3 s)
  else mk_u8_set (u64s0 s) (u64s1 s) (u64s2 s) (Z.lor (u64s3 s) m).

Definition byte_val (c : byte) : Z := Z.of_N (Byte.to_N c).

(** Modelled from the spec: [sz_u8_set_add] of [stringzilla.h] is absent;
    "each byte sets one bit", with the bit position the header's own
    [constexpr] constructors spell out: word [c >> 6], bit [c & 63]. *)
Definition sz_u8_set_add (s : sz_u8_set_t) (c : byte) : sz_u8_set_t :=
  u64s_or s (Z.shiftr (byte_val c) 6) (Z.shiftl 1 (Z.land (byte_val c) 63)).

(** Modelled from the spec: [sz_u8_set_contains] of [stringzilla.h] is
    absent; the O(1) membership test of the 256-bit table. *)
Definition sz_u8_set_contains (s : sz_u8_set_t) (c : byte) : bool :=
  negb (Z.land (u64s s (Z.shiftr (byte_val c) 6))
               (Z.shiftl 1 (Z.land (byte_val c) 63)) =? 0).

(** Modelled from the spec: [sz_u8_set_invert] of [stringzilla.h] is
    absent; "complement of all 256 bits". *)
Definition sz_u8_set_invert (s : sz_u8_set_t) : sz_u8_set_t :=
  mk_u8_set (Z.lxor (u64s0 s) sz_size_max) (Z.lxor (u64s1 s) sz_size_max)
            (Z.lxor (u64s2 s) sz_size_max) (Z.lxor (u64s3 s) sz_size_max).

Module character_set.

Record t : Type := mk { bitset_ : sz_u8_set_t }.

(** [constexpr character_set() noexcept]. *)
Definition empty : t := mk (mk_u8_set 0 0 0 0).

(** [character_set operator|(character_set other) const]: the four words
    of a copy [result] are or-ed with those of [other]; the function then
    returns [*this]. *)
Definition union (this other : t) : t :=
  let result := this in
  let result :=
    mk (mk_u8_set (Z.lor (u64s0 (bitset_ result)) (u64s0 (bitset_ other)))
                  (Z.lor (u64s1 (bitset_ result)) (u64s1 (bitset_ other)))
                  (Z.lor (u64s2 (bitset_ result)) (u64s2 (bitset_ other)))
                  (Z.lor (u64s3 (bitset_ result)) (u64s3 (bitset_ other)))) in
  let _ := result in
  this.

(** [template <std::size_t count_characters> constexpr explicit
     character_set(char const (&chars)[count_characters])]: the loop runs
    over [i < count_characters - 1], "to exclude the null terminator", and
    sets bit [c & 63] of word [c >> 6]; [chars] is the whole array.  The
    [char] values are taken as non-negative, as those of the ASCII tables
    are. *)
Definition of_array (chars : list byte) : t :=
  fold_left
    (fun r c =>
       mk (u64s_or (bitset_ r) (Z.shiftr (byte_val c) 6)
                   (Z.shiftl 1 (Z.land (byte_val c) 63))))
    (firstn (List.length chars - 1) chars) empty.

(** [character_set &add(char c)]. *)
Definition add (this : t) (c : byte) : t := mk (sz_u8_set_add (bitset_ this) c).

Definition raw (this : t) : sz_u8_set_t := bitset_ this.

(** [bool contains(char c) const]. *)
Definition contains (this : t) (c : byte) : bool :=
  sz_u8_set_contains (bitset_ this) c.

(** [character_set inverted() const]. *)
Definition inverted (this : t) : t :=
  let result := this in
  mk (sz_u8_set_invert (bitset_ result)).

End character_set.

(** [inline constexpr static char digits[10]]: the ten digits, without a
    terminator. *)
Definition digits : list byte := list_byte_of_string "0123456789".

(** [inline constexpr static character_set digits_set {digits}]: the braced
    initialiser holds one array of [char], so the array constructor is the
    one that applies. *)
Definition digits_set : character_set.t := character_set.of_array digits.

(* ------------------------------------------------------------------------- *)
(** ** The byte-level primitive engine *)

Section Engine.

Variable mem : memory.

(** Modelled from the spec: [sz_equal] of [stringzilla.h] is absent;
    "true iff first [n] bytes equal". *)
Definition sz_equal (a b : Z) (n : Z) : bool :=
  forallb (fun i => Byte.eqb (mem (a + Z.of_nat i)) (mem (b + Z.of_nat i)))
          (seq 0 (Z.to_nat n)).

(** Modelled from the spec: [sz_find] of [stringzilla.h] is absent;
    forward substring search, "first occurrence or not-found".  The search
    is for an actual needle: a needle of length zero, or one longer than
    the haystack, is reported as not-found, so every match consumes at
    least one byte and the full traversals of the ranges terminate. *)
Definition sz_find (h : Z) (h_length : Z) (n : Z) (n_length : Z) : option Z :=
  if (h_length <? n_length) || (n_length =? 0) then None
  else scan_first (fun a => sz_equal a n n_length) h
                  (Z.to_nat (h_length - n_length + 1)).

(** Modelled from the spec: [sz_find_last] of [stringzilla.h] is absent;
    backward substring search, "mirrors forward, last occurrence". *)
Definition sz_find_last (h : Z) (h_length : Z) (n : Z) (n_length : Z) : option Z :=
  if (h_length <? n_length) || (n_length =? 0) then None
  else scan_last (fun a => sz_equal a n n_length) h
                 (Z.to_nat (h_length - n_length + 1)).

(** Modelled from the spec: [sz_find_from_set] of [stringzilla.h] is
    absent; forward set search for membership. *)
Definition sz_find_from_set (h : Z) (h_length : Z) (set : sz_u8_set_t) : option Z :=
  scan_first (fun a => sz_u8_set_contains set (mem a)) h (Z.to_nat h_length).

(** Modelled from the spec: [sz_find_last_from_set] of [stringzilla.h] is
    absent; backward set search for membership. *)
Definition sz_find_last_from_set (h : Z) (h_length : Z) (set : sz_u8_set_t) : option Z :=
  scan_last (fun a => sz_u8_set_contains set (mem a)) h (Z.to_nat h_length).

End Engine.

(* ------------------------------------------------------------------------- *)
(** ** [class string_view] *)

(** [template <typename string_> struct string_partition_result]. *)
Record string_partition_result (string_ : Type) : Type :=
  mk_partition { before : string_; match_ : string_; after : string_ }.
Arguments mk_partition {string_} _ _ _.
Arguments before {string_} _.
Arguments match_ {string_} _.
Arguments after {string_} _.

Module string_view.

Record t : Type := mk { start_ : Z; length_ : Z }.

Definition partition_result : Type := string_partition_result t.

(** [static constexpr size_type npos = size_type(-1)]. *)
Definition npos : Z := wrap (-1).

(** [constexpr string_view() noexcept]. *)
Definition default : t := mk nullptr 0.

Definition begin (v : t) : Z := start_ v.
Definition end_ (v : t) : Z := start_ v + length_ v.
Definition data (v : t) : Z := start_ v.
Definition size (v : t) : Z := length_ v.
Definition length (v : t) : Z := length_ v.
Definition empty (v : t) : bool := length_ v =? 0.

(** [void remove_prefix(size_type n)]:
    [assert(n <= size()), start_ += n, length_ -= n]. *)
Definition remove_prefix (v : t) (n : Z) : option t :=
  if n <=? size v then Some (mk (start_ v + n) (wrap (length_ v - n))) else None.

(** [void remove_suffix(size_type n)]: [assert(n <= size()), length_ -= n]. *)
Definition remove_suffix (v : t) (n : Z) : option t :=
  if n <=? size v then Some (mk (start_ v) (wrap (length_ v - n))) else None.

(** [string_view substr() const]. *)
Definition substr_self (v : t) : t := v.

(** [string_view substr(size_type pos) const]. *)
Definition substr_from (v : t) (pos : Z) : t :=
  mk (start_ v + pos) (wrap (length_ v - pos)).

(** [string_view substr(size_type pos, size_type count) const]. *)
Definition substr (v : t) (pos count : Z) : t :=
  mk (start_ v + pos) (sz_min_of_two count (wrap (length_ v - pos))).

Section WithMemory.

Variable mem : memory.

(** The bytes the view denotes: [{data(), size()}] read from memory, as
    the conversion to [std::string] does. *)
Definition to_list (v : t) : list byte :=
  map (fun i => mem (start_ v + Z.of_nat i)) (seq 0 (Z.to_nat (length_ v))).

(** [bool operator==(string_view other) const]. *)
Definition eqb (v other : t) : bool :=
  (length_ v =? length_ other) && sz_equal mem (start_ v) (start_ other) (length_ other).

(** [bool starts_with(string_view other) const]. *)
Definition starts_with (v other : t) : bool :=
  (length_ other <=? length_ v) && sz_equal mem (start_ v) (start_ other) (length_ other).

(** [bool ends_with(string_view other) const]. *)
Definition ends_with (v other : t) : bool :=
  (length_ other <=? length_ v)
  && sz_equal mem (start_ v + length_ v - length_ other) (start_ other) (length_ other).

(** [size_type find(string_view other) const]. *)
Definition find (v other : t) : Z :=
  match sz_find mem (start_ v) (length_ v) (start_ other) (length_ other) with
  | Some ptr => wrap (ptr - start_ v)
  | None => npos
  end.

(** [size_type rfind(string_view other) const]. *)
Definition rfind (v other : t) : Z :=
  match sz_find_last mem (start_ v) (length_ v) (start_ other) (length_ other) with
  | Some ptr => wrap (ptr - start_ v)
  | None => npos
  end.

(** [size_type find_first_of(character_set set) const]. *)
Definition find_first_of (v : t) (set : character_set.t) : Z :=
  match sz_find_from_set mem (start_ v) (length_ v) (character_set.raw set) with
  | Some ptr => wrap (ptr - start_ v)
  | None => npos
  end.

(** [size_type find(character_set set) const]. *)
Definition find_set (v : t) (set : character_set.t) : Z := find_first_of v set.

(** [size_type find_first_not_of(character_set set) const]. *)
Definition find_first_not_of (v : t) (set : character_set.t) : Z :=
  find_first_of v (character_set.inverted set).

(** [size_type find_last_of(character_set set) const]. *)
Definition find_last_of (v : t) (set : character_set.t) : Z :=
  match sz_find_last_from_set mem (start_ v) (length_ v) (character_set.raw set) with
  | Some ptr => wrap (ptr - start_ v)
  | None => npos
  end.

(** [size_type rfind(character_set set) const]. *)
Definition rfind_set (v : t) (set : character_set.t) : Z := find_last_of v set.

(** [size_type find_last_not_of(character_set set) const]. *)
Definition find_last_not_of (v : t) (set : character_set.t) : Z :=
  find_last_of v (character_set.inverted set).

(** [character_set as_set() const]. *)
Definition as_set (v : t) : character_set.t :=
  fold_left character_set.add (to_list v) character_set.empty.

(** The overload set [find(pattern)] / [rfind(pattern)] that the
    templates [split_] and [rsplit_] resolve against their
    [pattern_] argument. *)
Class pattern (pattern_ : Type) : Type :=
  { find_ : t -> pattern_ -> Z; rfind_ : t -> pattern_ -> Z }.

#[global] Instance pattern_string_view : pattern t :=
  {| find_ := find; rfind_ := rfind |}.

#[global] Instance pattern_character_set : pattern character_set.t :=
  {| find_ := find_set; rfind_ := rfind_set |}.

(** [template <typename pattern_> partition_result
     split_(pattern_ &&pattern, std::size_t pattern_length) const]. *)
Definition split_ {pattern_ : Type} `{pattern pattern_}
           (v : t) (pat : pattern_) (pattern_length : Z) : partition_result :=
  let pos := find_ v pat in
  if pos =? npos then mk_partition (substr_self v) default default
  else mk_partition (substr v 0 pos) (substr v pos pattern_length)
                    (substr_from v (wrap (pos + pattern_length))).

(** [template <typename pattern_> partition_result
     rsplit_(pattern_ &&pattern, std::size_t pattern_length) const]. *)
Definition rsplit_ {pattern_ : Type} `{pattern pattern_}
           (v : t) (pat : pattern_) (pattern_length : Z) : partition_result :=
  let pos := rfind_ v pat in
  if pos =? npos then mk_partition (substr_self v) default default
  else mk_partition (substr v 0 pos) (substr v pos pattern_length)
                    (substr_from v (wrap (pos + pattern_length))).

(** [partition_result partition(string_view pattern) const]. *)
Definition partition (v pat : t) : partition_result :=
  split_ v pat (length pat).

(** [partition_result partition(character_set pattern) const]. *)
Definition partition_set (v : t) (pat : character_set.t) : partition_result :=
  split_ v pat 1.

(** [partition_result rpartition(string_view pattern) const]: the body
    is [return split_(pattern, pattern.length());]. *)
Definition rpartition (v pat : t) : partition_result :=
  split_ v pat (length pat).

(** [partition_result rpartition(character_set pattern) const]: the body
    is [return split_(pattern, 1);]. *)
Definition rpartition_set (v : t) (pat : character_set.t) : partition_result :=
  split_ v pat 1.

(** [bool contains(string_view other) const]. *)
Definition contains (v other : t) : bool := negb (find v other =? npos).

(** [string_view remove_prefix(string_view other) const]. *)
Definition remove_prefix_view (v other : t) : t :=
  if starts_with v other
  then mk (start_ v + length_ other) (wrap (length_ v - length_ other))
  else v.

(** [string_view remove_suffix(string_view other) const]. *)
Definition remove_suffix_view (v other : t) : t :=
  if ends_with v other
  then mk (start_ v) (wrap (length_ v - length_ other))
  else v.

(** [string_view lstrip(character_set set) const]. *)
Definition lstrip (v : t) (set : character_set.t) : t :=
  let set := character_set.inverted set in
  match sz_find_from_set mem (start_ v) (length_ v) (character_set.raw set) with
  | Some new_start => mk new_start (wrap (length_ v - wrap (new_start - start_ v)))
  | None => default
  end.

(** [string_view rstrip(character_set set) const]. *)
Definition rstrip (v : t) (set : character_set.t) : t :=
  let set := character_set.inverted set in
  match sz_find_last_from_set mem (start_ v) (length_ v) (character_set.raw set) with
  | Some new_end => mk (start_ v) (wrap (new_end - start_ v + 1))
  | None => default
  end.

(** [string_view strip(character_set set) const]; the inner backward search
    returns a pointer that the source subtracts from without a null check. *)
Definition strip (v : t) (set : character_set.t) : t :=
  let set := character_set.inverted set in
  match sz_find_from_set mem (start_ v) (length_ v) (character_set.raw set) with
  | Some new_start =>
      mk new_start
         (wrap (match sz_find_last_from_set mem new_start
                        (wrap (length_ v - (new_start - start_ v)))
                        (character_set.raw set) with
                | Some last => last
                | None => nullptr
                end - new_start + 1))
  | None => default
  end.

(** [bool contains_only(character_set set) const]. *)
Definition contains_only (v : t) (set : character_set.t) : bool :=
  find_first_not_of v set =? npos.

(** [bool isdigit() const]. *)
Definition isdigit (v : t) : bool := negb (empty v) && contains_only v digits_set.

End WithMemory.

End string_view.

(* ------------------------------------------------------------------------- *)
(** ** Matcher strategies *)

(** What the range templates require of [matcher_template_<string_view>]:
    [needle_length()], [skip_length()] and [operator()(haystack)]. *)
Class matcher (M : Type) : Type :=
  { needle_length : M -> Z;
    skip_length : M -> Z;
    locate : memory -> M -> string_view.t -> Z }.

Module matcher_find.
Record t : Type := mk { needle_ : string_view.t; skip_after_match_ : Z }.

(** [matcher_find(string_view_ needle = {}, bool allow_overlaps = true)]. *)
Definition make (needle : string_view.t) (allow_overlaps : bool) : t :=
  mk needle (if allow_overlaps then 1 else string_view.length needle).

#[global] Instance ops : matcher t :=
  {| needle_length := fun m => string_view.length (needle_ m);
     skip_length := fun m => skip_after_match_ m;
     locate := fun mem m haystack => string_view.find mem haystack (needle_ m) |}.
End matcher_find.

Module matcher_rfind.
Record t : Type := mk { needle_ : string_view.t; skip_after_match_ : Z }.

(** [matcher_rfind(string_view_ needle = {}, bool allow_overlaps = true)]. *)
Definition make (needle : string_view.t) (allow_overlaps : bool) : t :=
  mk needle (if allow_overlaps then 1 else string_view.length needle).

#[global] Instance ops : matcher t :=
  {| needle_length := fun m => string_view.length (needle_ m);
     skip_length := fun m => skip_after_match_ m;
     locate := fun mem m haystack => string_view.rfind mem haystack (needle_ m) |}.
End matcher_rfind.

(** [template <> struct matcher_find_first_of<string_view>]. *)
Module matcher_find_first_of.
Record t : Type := mk { needles_set_ : character_set.t }.

#[global] Instance ops : matcher t :=
  {| needle_length := fun _ => 1;
     skip_length := fun _ => 1;
     locate := fun mem m haystack =>
                 string_view.find_first_of mem haystack (needles_set_ m) |}.
End matcher_find_first_of.

(** [template <> struct matcher_find_last_of<string_view>]. *)
Module matcher_find_last_of.
Record t : Type := mk { needles_set_ : character_set.t }.

#[global] Instance ops : matcher t :=
  {| needle_length := fun _ => 1;
     skip_length := fun _ => 1;
     locate := fun mem m haystack =>
                 string_view.find_last_of mem haystack (needles_set_ m) |}.
End matcher_find_last_of.

(** [template <> struct matcher_find_first_not_of<string_view>]. *)
Module matcher_find_first_not_of.
Record t : Type := mk { needles_set_ : character_set.t }.

#[global] Instance ops : matcher t :=
  {| needle_length := fun _ => 1;
     skip_length := fun _ => 1;
     locate := fun mem m haystack =>
                 string_view.find_first_not_of mem haystack (needles_set_ m) |}.
End matcher_find_first_not_of.

(** [template <> struct matcher_find_last_not_of<string_view>]. *)
Module matcher_find_last_not_of.
Record t : Type := mk { needles_set_ : character_set.t }.

#[global] Instance ops : matcher t :=
  {| needle_length := fun _ => 1;
     skip_length := fun _ => 1;
     locate := fun mem m haystack =>
                 string_view.find_last_not_of mem haystack (needles_set_ m) |}.
End matcher_find_last_not_of.

(** [position != string_view::npos ? position : otherwise]. *)
Definition found_or (position otherwise : Z) : Z :=
  if negb (position =? string_view.npos) then position else otherwise.

(* ------------------------------------------------------------------------- *)
(** ** [class range_matches] *)

Module range_matches.

Module iterator.
Record t (M : Type) : Type := mk { matcher_ : M; remaining_ : string_view.t }.
Arguments mk {M} _ _.
Arguments matcher_ {M} _.
Arguments remaining_ {M} _.

Section Ops.
Context {M : Type} `{matcher M} (mem : memory).

(** [iterator(string_view haystack, matcher matcher) noexcept]. *)
Definition make (haystack : string_view.t) (m : M) : option (t M) :=
  let remaining := haystack in
  let position := locate mem m remaining in
  remaining <- string_view.remove_prefix remaining
                 (found_or position (string_view.size remaining)) ;;
  Some (mk m remaining).

(** [value_type operator*() const noexcept]. *)
Definition deref (it : t M) : string_view.t :=
  string_view.substr (remaining_ it) 0 (needle_length (matcher_ it)).

(** [iterator &operator++() noexcept]. *)
Definition next (it : t M) : option (t M) :=
  remaining <- string_view.remove_prefix (remaining_ it)
                 (skip_length (matcher_ it)) ;;
  let position := locate mem (matcher_ it) remaining in
  remaining <- string_view.remove_prefix remaining
                 (found_or position (string_view.size remaining)) ;;
  Some (mk (matcher_ it) remaining).

(** [bool operator!=(iterator const &other) const noexcept]. *)
Definition neq (it other : t M) : bool :=
  negb (string_view.begin (remaining_ it) =? string_view.begin (remaining_ other)).

(** [bool operator==(iterator const &other) const noexcept]. *)
Definition eq (it other : t M) : bool :=
  string_view.begin (remaining_ it) =? string_view.begin (remaining_ other).

(** [bool operator==(end_sentinel_type) const noexcept]. *)
Definition eq_sentinel (it : t M) : bool := string_view.empty (remaining_ it).
End Ops.
End iterator.

Record t (M : Type) : Type := mk { haystack_ : string_view.t; matcher_ : M }.
Arguments mk {M} _ _.
Arguments haystack_ {M} _.
Arguments matcher_ {M} _.

Section Ops.
Context {M : Type} `{matcher M} (mem : memory).

(** [iterator begin() const noexcept]. *)
Definition begin (r : t M) : option (iterator.t M) :=
  iterator.make mem (haystack_ r) (matcher_ r).

(** [iterator end() const noexcept]. *)
Definition end_ (r : t M) : option (iterator.t M) :=
  iterator.make mem (string_view.mk (string_view.end_ (haystack_ r)) 0) (matcher_ r).

(** [bool empty() const noexcept]. *)
Definition empty (r : t M) : option bool :=
  b <- begin r ;; Some (iterator.eq_sentinel b).

(** The loop [for (; it != last; ++it) container.push_back( *it )],
    unrolled at most [fuel] times. *)
Fixpoint loop (fuel : nat) (it last : iterator.t M) : option (list string_view.t) :=
  match fuel with
  | O => None
  | S fuel' =>
      if iterator.neq it last then
        let match_ := iterator.deref it in
        it' <- iterator.next mem it ;;
        rest <- loop fuel' it' last ;;
        Some (match_ :: rest)
      else Some []
  end.

(** [template <typename container_> void to(container_ &container)]:
    [for (auto match : *this) container.push_back(match)].  A haystack of
    [n] bytes has at most [n] match starts. *)
Definition to (r : t M) : option (list string_view.t) :=
  b <- begin r ;;
  e <- end_ r ;;
  loop (S (Z.to_nat (string_view.size (haystack_ r)))) b e.
End Ops.

End range_matches.

(* ------------------------------------------------------------------------- *)
(** ** [class range_rmatches] *)

Module range_rmatches.

Module iterator.
Record t (M : Type) : Type := mk { remaining_ : string_view.t; matcher_ : M }.
Arguments mk {M} _ _.
Arguments matcher_ {M} _.
Arguments remaining_ {M} _.

Section Ops.
Context {M : Type} `{matcher M} (mem : memory).

(** [remaining_.size() - position - matcher_.needle_length()], or the
    whole size when nothing was found. *)
Definition tail_after (m : M) (remaining : string_view.t) (position : Z) : Z :=
  if negb (position =? string_view.npos)
  then wrap (wrap (string_view.size remaining - position) - needle_length m)
  else string_view.size remaining.

(** [iterator(string_view haystack, matcher matcher) noexcept]. *)
Definition make (haystack : string_view.t) (m : M) : option (t M) :=
  let remaining := haystack in
  let position := locate mem m remaining in
  remaining <- string_view.remove_suffix remaining (tail_after m remaining position) ;;
  Some (mk remaining m).

(** [value_type operator*() const noexcept]. *)
Definition deref (it : t M) : string_view.t :=
  string_view.substr_from (remaining_ it)
    (wrap (string_view.size (remaining_ it) - needle_length (matcher_ it))).

(** [iterator &operator++() noexcept]. *)
Definition next (it : t M) : option (t M) :=
  remaining <- string_view.remove_suffix (remaining_ it)
                 (skip_length (matcher_ it)) ;;
  let position := locate mem (matcher_ it) remaining in
  remaining <- string_view.remove_suffix remaining
                 (tail_after (matcher_ it) remaining position) ;;
  Some (mk remaining (matcher_ it)).

(** [bool operator!=(iterator const &other) const noexcept]. *)
Definition neq (it other : t M) : bool :=
  negb (string_view.end_ (remaining_ it) =? string_view.end_ (remaining_ other)).

(** [bool operator==(iterator const &other) const noexcept]. *)
Definition eq (it other : t M) : bool :=
  string_view.end_ (remaining_ it) =? string_view.end_ (remaining_ other).

(** [bool operator==(end_sentinel_type) const noexcept]. *)
Definition eq_sentinel (it : t M) : bool := string_view.empty (remaining_ it).
End Ops.
End iterator.

Record t (M : Type) : Type := mk { matcher_ : M; haystack_ : string_view.t }.
Arguments mk {M} _ _.
Arguments haystack_ {M} _.
Arguments matcher_ {M} _.

Section Ops.
Context {M : Type} `{matcher M} (mem : memory).

(** [iterator begin() const noexcept]. *)
Definition begin (r : t M) : option (iterator.t M) :=
  iterator.make mem (haystack_ r) (matcher_ r).

(** [iterator end() const noexcept]. *)
Definition end_ (r : t M) : option (iterator.t M) :=
  iterator.make mem (string_view.mk (string_view.begin (haystack_ r)) 0) (matcher_ r).

Fixpoint loop (fuel : nat) (it last : iterator.t M) : option (list string_view.t) :=
  match fuel with
  | O => None
  | S fuel' =>
      if iterator.neq it last then
        let match_ := iterator.deref it in
        it' <- iterator.next mem it ;;
        rest <- loop fuel' it' last ;;
        Some (match_ :: rest)
      else Some []
  end.

(** [for (auto match : *this) container.push_back(match)]. *)
Definition to (r : t M) : option (list string_view.t) :=
  b <- begin r ;;
  e <- end_ r ;;
  loop (S (Z.to_nat (string_view.size (haystack_ r)))) b e.
End Ops.

End range_rmatches.

(* ------------------------------------------------------------------------- *)
(** ** [class range_splits] *)

Module range_splits.

Module iterator.
Record t (M : Type) : Type :=
  mk { matcher_ : M;
       remaining_ : string_view.t;
       length_within_remaining_ : Z;
       reached_tail_ : bool }.
Arguments mk {M} _ _ _ _.
Arguments matcher_ {M} _.
Arguments remaining_ {M} _.
Arguments length_within_remaining_ {M} _.
Arguments reached_tail_ {M} _.

Section Ops.
Context {M : Type} `{matcher M} (mem : memory).

(** [iterator(string_view haystack, matcher matcher) noexcept]. *)
Definition make (haystack : string_view.t) (m : M) : t M :=
  let remaining := haystack in
  let position := locate mem m remaining in
  mk m remaining (found_or position (string_view.size remaining)) false.

(** [iterator(string_view haystack, matcher matcher, end_sentinel_type)]:
    [length_within_remaining_] is left uninitialised by the source and
    read by no comparison; it is zero here. *)
Definition make_end (haystack : string_view.t) (m : M) : t M :=
  mk m haystack 0 true.

(** [value_type operator*() const noexcept]. *)
Definition deref (it : t M) : string_view.t :=
  string_view.substr (remaining_ it) 0 (length_within_remaining_ it).

(** [iterator &operator++() noexcept]. *)
Definition next (it : t M) : option (t M) :=
  remaining <- string_view.remove_prefix (remaining_ it)
                 (length_within_remaining_ it) ;;
  let reached_tail := string_view.empty remaining in
  remaining <- string_view.remove_prefix remaining
                 (wrap (needle_length (matcher_ it)
                        * (if negb reached_tail then 1 else 0))) ;;
  let position := locate mem (matcher_ it) remaining in
  Some (mk (matcher_ it) remaining
           (found_or position (string_view.size remaining)) reached_tail).

(** [bool operator!=(iterator const &other) const noexcept]. *)
Definition neq (it other : t M) : bool :=
  negb (string_view.begin (remaining_ it) =? string_view.begin (remaining_ other))
  || negb (Bool.eqb (reached_tail_ it) (reached_tail_ other)).

(** [bool operator==(iterator const &other) const noexcept]. *)
Definition eq (it other : t M) : bool :=
  (string_view.begin (remaining_ it) =? string_view.begin (remaining_ other))
  && Bool.eqb (reached_tail_ it) (reached_tail_ other).

(** [bool operator==(end_sentinel_type) const noexcept]. *)
Definition eq_sentinel (it : t M) : bool :=
  string_view.empty (remaining_ it) && reached_tail_ it.
End Ops.
End iterator.

Record t (M : Type) : Type := mk { haystack_ : string_view.t; matcher_ : M }.
Arguments mk {M} _ _.
Arguments haystack_ {M} _.
Arguments matcher_ {M} _.

Section Ops.
Context {M : Type} `{matcher M} (mem : memory).

(** [iterator begin() const noexcept]. *)
Definition begin (r : t M) : iterator.t M :=
  iterator.make mem (haystack_ r) (matcher_ r).

(** [iterator end() const noexcept]. *)
Definition end_ (r : t M) : iterator.t M :=
  iterator.make_end (string_view.mk (string_view.end_ (haystack_ r)) 0) (matcher_ r).

(** [constexpr bool empty() const noexcept { return false; }]. *)
Definition empty (r : t M) : bool := false.

Fixpoint loop (fuel : nat) (it last : iterator.t M) : option (list string_view.t) :=
  match fuel with
  | O => None
  | S fuel' =>
      if iterator.neq it last then
        let match_ := iterator.deref it in
        it' <- iterator.next mem it ;;
        rest <- loop fuel' it' last ;;
        Some (match_ :: rest)
      else Some []
  end.

(** [for (auto match : *this) container.push_back(match)].  A haystack
    of [n] bytes has at most [n] matches, hence at most [n + 1] gaps. *)
Definition to (r : t M) : option (list string_view.t) :=
  loop (S (S (Z.to_nat (string_view.size (haystack_ r))))) (begin r) (end_ r).
End Ops.

End range_splits.

(* ------------------------------------------------------------------------- *)
(** ** [class range_rsplits] *)

Module range_rsplits.

Module iterator.
Record t (M : Type) : Type :=
  mk { matcher_ : M;
       remaining_ : string_view.t;
       length_within_remaining_ : Z;
       reached_tail_ : bool }.
Arguments mk {M} _ _ _ _.
Arguments matcher_ {M} _.
Arguments remaining_ {M} _.
Arguments length_within_remaining_ {M} _.
Arguments reached_tail_ {M} _.

Section Ops.
Context {M : Type} `{matcher M} (mem : memory).

(** [iterator(string_view haystack, matcher matcher) noexcept]. *)
Definition make (haystack : string_view.t) (m : M) : t M :=
  let remaining := haystack in
  let position := locate mem m remaining in
  mk m remaining (range_rmatches.iterator.tail_after m remaining position) false.

(** [iterator(string_view haystack, matcher matcher, end_sentinel_type)]:
    [length_within_remaining_] is left uninitialised by the source and
    read by no comparison; it is zero here. *)
Definition make_end (haystack : string_view.t) (m : M) : t M :=
  mk m haystack 0 true.

(** [value_type operator*() const noexcept]. *)
Definition deref (it : t M) : string_view.t :=
  string_view.substr_from (remaining_ it)
    (wrap (string_view.size (remaining_ it) - length_within_remaining_ it)).

(** [iterator &operator++() noexcept]. *)
Definition next (it : t M) : option (t M) :=
  remaining <- string_view.remove_suffix (remaining_ it)
                 (length_within_remaining_ it) ;;
  let reached_tail := string_view.empty remaining in
  remaining <- string_view.remove_suffix remaining
                 (wrap (needle_length (matcher_ it)
                        * (if negb reached_tail then 1 else 0))) ;;
  let position := locate mem (matcher_ it) remaining in
  Some (mk (matcher_ it) remaining
           (range_rmatches.iterator.tail_after (matcher_ it) remaining position)
           reached_tail).

(** [bool operator!=(iterator const &other) const noexcept]. *)
Definition neq (it other : t M) : bool :=
  negb (string_view.end_ (remaining_ it) =? string_view.end_ (remaining_ other))
  || negb (Bool.eqb (reached_tail_ it) (reached_tail_ other)).

(** [bool operator==(iterator const &other) const noexcept]. *)
Definition eq (it other : t M) : bool :=
  (string_view.end_ (remaining_ it) =? string_view.end_ (remaining_ other))
  && Bool.eqb (reached_tail_ it) (reached_tail_ other).

(** [bool operator==(end_sentinel_type) const noexcept]. *)
Definition eq_sentinel (it : t M) : bool :=
  string_view.empty (remaining_ it) && reached_tail_ it.
End Ops.
End iterator.

Record t (M : Type) : Type := mk { haystack_ : string_view.t; matcher_ : M }.
Arguments mk {M} _ _.
Arguments haystack_ {M} _.
Arguments matcher_ {M} _.

Section Ops.
Context {M : Type} `{matcher M} (mem : memory).

(** [iterator begin() const noexcept]. *)
Definition begin (r : t M) : iterator.t M :=
  iterator.make mem (haystack_ r) (matcher_ r).

(** [iterator end() const noexcept]. *)
Definition end_ (r : t M) : iterator.t M :=
  iterator.make_end (string_view.mk (string_view.begin (haystack_ r)) 0) (matcher_ r).

(** [constexpr bool empty() const noexcept { return false; }]. *)
Definition empty (r : t M) : bool := false.

Fixpoint loop (fuel : nat) (it last : iterator.t M) : option (list string_view.t) :=
  match fuel with
  | O => None
  | S fuel' =>
      if iterator.neq it last then
        let match_ := iterator.deref it in
        it' <- iterator.next mem it ;;
        rest <- loop fuel' it' last ;;
        Some (match_ :: rest)
      else Some []
  end.

(** [for (auto match : *this) container.push_back(match)]. *)
Definition to (r : t M) : option (list string_view.t) :=
  loop (S (S (Z.to_nat (string_view.size (haystack_ r))))) (begin r) (end_ r).
End Ops.

End range_rsplits.

(* ------------------------------------------------------------------------- *)
(** ** The range factories of [string_view] *)

Module string_view_ranges.

(** [string_view::find_all(string_view n, bool i) const]:
    [return {*this, {n, i}};]. *)
Definition find_all (v n : string_view.t) (i : bool) : range_matches.t matcher_find.t :=
  range_matches.mk v (matcher_find.make n i).

(** [string_view::rfind_all(string_view n, bool i) const]. *)
Definition rfind_all (v n : string_view.t) (i : bool) : range_rmatches.t matcher_rfind.t :=
  range_rmatches.mk (matcher_rfind.make n i) v.

(** [string_view::find_all(character_set set) const]. *)
Definition find_all_set (v : string_view.t) (set : character_set.t)
  : range_matches.t matcher_find_first_of.t :=
  range_matches.mk v (matcher_find_first_of.mk set).

(** [string_view::rfind_all(character_set set) const]. *)
Definition rfind_all_set (v : string_view.t) (set : character_set.t)
  : range_rmatches.t matcher_find_last_of.t :=
  range_rmatches.mk (matcher_find_last_of.mk set) v.

(** [string_view::split(string_view n) const]: [return {*this, {n}};]. *)
Definition split (v n : string_view.t) : range_splits.t matcher_find.t :=
  range_splits.mk v (matcher_find.make n true).

(** [string_view::rsplit(string_view n) const]. *)
Definition rsplit (v n : string_view.t) : range_rsplits.t matcher_rfind.t :=
  range_rsplits.mk v (matcher_rfind.make n true).

(** [string_view::split(character_set set) const]. *)
Definition split_set (v : string_view.t) (set : character_set.t)
  : range_splits.t matcher_find_first_of.t :=
  range_splits.mk v (matcher_find_first_of.mk set).

(** [string_view::rsplit(character_set set) const]. *)
Definition rsplit_set (v : string_view.t) (set : character_set.t)
  : range_rsplits.t matcher_find_last_of.t :=
  range_rsplits.mk v (matcher_find_last_of.mk set).

End string_view_ranges.

(** The free function templates, at [string = string_view]. *)
Module free_functions.

(** [template <typename string> range_matches<string, matcher_find>
     find_all(string h, string n, bool interleaving = true)]: the body is
    [return {h, n};], the needle converting to a matcher through
    [matcher_find(needle, allow_overlaps = true)]. *)
Definition find_all (h n : string_view.t) (interleaving : bool)
  : range_matches.t matcher_find.t :=
  range_matches.mk h (matcher_find.make n true).

(** [template <typename string> range_rmatches<string, matcher_rfind>
     rfind_all(string h, string n, bool interleaving = true)]: the body is
    [return {h, n};]. *)
Definition rfind_all (h n : string_view.t) (interleaving : bool)
  : range_rmatches.t matcher_rfind.t :=
  range_rmatches.mk (matcher_rfind.make n true) h.

(** [template <typename string> range_rmatches<string, matcher_rfind>
     rsplit(string h, string n, bool interleaving = true)]: the declared
    result is the reverse match range, and the body is [return {h, n};]. *)
Definition rsplit (h n : string_view.t) (interleaving : bool)
  : range_rmatches.t matcher_rfind.t :=
  range_rmatches.mk (matcher_rfind.make n true) h.

End free_functions.

(** Offsets of the reported slices from the start of the haystack. *)
Definition offsets_in (h : string_view.t) (l : list string_view.t) : list Z :=
  map (fun v => string_view.begin v - string_view.begin h) l.

(* ------------------------------------------------------------------------- *)
(** ** [class basic_string]: the small-buffer-optimised owning string

    String objects live at distinct addresses, here natural numbers.  A
    character pointer is a block and an offset: the block is either the
    inline buffer [string_.internal.chars] of the object at some address,
    or a block handed out by the allocator.  Object memory is a total map:
    the memory of an object that was never constructed holds some value. *)

Module basic_string.

Inductive block : Type :=
| Chars (object : nat)
| Heap (id : nat).

Record pointer : Type := mk_pointer { blk : block; off : Z }.

Definition block_eqb (a b : block) : bool :=
  match a, b with
  | Chars x, Chars y => Nat.eqb x y
  | Heap x, Heap y => Nat.eqb x y
  | _, _ => false
  end.

Definition pointer_eqb (p q : pointer) : bool :=
  block_eqb (blk p) (blk q) && (off p =? off q).

(** [p + n]. *)
Definition advance (p : pointer) (n : Z) : pointer := mk_pointer (blk p) (off p + n).

(** Modelled from the spec: the constant [sz_string_stack_space] of
    [stringzilla.h] is absent; the inline capacity is "a small compile-time
    constant", and a string of four machine words leaves 23 bytes after
    the start pointer and the one-byte length. *)
Definition sz_string_stack_space : Z := 23.

(** Modelled from the spec: the union [sz_string_t] of [stringzilla.h] is
    absent; "either an inline fixed-size byte array or a heap
    pointer+capacity, plus current length".  [start] and [length] are
    shared by both states, [chars] is the inline array and [space] the
    heap capacity. *)
Record sz_string_t : Type :=
  mk_string { start : pointer; length : Z; chars : list byte; space : Z }.

Record state : Type :=
  mk_state { objects : nat -> sz_string_t;
             heap : nat -> option (list byte);
             next_block : nat;
             available : Z }.

Definition update {A : Type} (f : nat -> A) (k : nat) (v : A) : nat -> A :=
  fun x => if Nat.eqb x k then v else f x.

Definition set_object (st : state) (this : nat) (s : sz_string_t) : state :=
  mk_state (update (objects st) this s) (heap st) (next_block st) (available st).

(** [&string_.internal.chars[0]] of the object at address [this]. *)
Definition chars_ptr (this : nat) : pointer := mk_pointer (Chars this) 0.

(** The bytes of a block, if it is live. *)
Definition buffer (st : state) (b : block) : option (list byte) :=
  match b with
  | Chars object => Some (chars (objects st object))
  | Heap id => heap st id
  end.

Definition set_buffer (st : state) (b : block) (buf : list byte) : state :=
  match b with
  | Chars object =>
      let s := objects st object in
      set_object st object (mk_string (start s) (length s) buf (space s))
  | Heap id => mk_state (objects st) (update (heap st) id (Some buf))
                        (next_block st) (available st)
  end.

(** Reads [n] bytes at [p]; [None] outside of a live block. *)
Definition load (st : state) (p : pointer) (n : Z) : option (list byte) :=
  buf <- buffer st (blk p) ;;
  if (0 <=? off p) && (0 <=? n) && (off p + n <=? Z.of_nat (List.length buf))
  then Some (firstn (Z.to_nat n) (skipn (Z.to_nat (off p)) buf))
  else None.

(** Writes [bytes] at [p] ([sz_copy], [sz_move], [sz_fill] and single
    stores); [None] outside of a live block. *)
Definition store (st : state) (p : pointer) (bytes : list byte) : option state :=
  buf <- buffer st (blk p) ;;
  if (0 <=? off p) && (off p + Z.of_nat (List.length bytes) <=? Z.of_nat (List.length buf))
  then Some (set_buffer st (blk p)
               (firstn (Z.to_nat (off p)) buf ++ bytes
                ++ skipn (Z.to_nat (off p) + List.length bytes) buf))
  else None.

(** Modelled from the spec: the allocator collaborator is absent;
    "[allocate(size) -> pointer|null]", synchronous, succeeding or failing
    immediately.  It grants a request that fits the bytes [available]. *)
Definition allocate (st : state) (n : Z) : option pointer * state :=
  if (0 <=? n) && (n <=? available st) then
    (Some (mk_pointer (Heap (next_block st)) 0),
     mk_state (objects st)
              (update (heap st) (next_block st) (Some (repeat x00 (Z.to_nat n))))
              (S (next_block st)) (available st - n))
  else (None, st).

(** Modelled from the spec: "[free(pointer, size) -> void]". *)
Definition free (st : state) (p : pointer) (n : Z) : state :=
  match blk p with
  | Heap id => mk_state (objects st) (update (heap st) id None)
                        (next_block st) (available st + n)
  | Chars _ => st
  end.

(** Modelled from the spec: [sz_string_is_on_stack] of [stringzilla.h] is
    absent; "an SboString in the inline state always has its data pointer
    equal to the address of its own inline buffer". *)
Definition sz_string_is_on_stack (this : nat) (s : sz_string_t) : bool :=
  pointer_eqb (start s) (chars_ptr this).

(** Modelled from the spec: [sz_string_unpack] of [stringzilla.h] is
    absent; it reports start, length, space and whether the string is in
    the heap state. *)
Definition sz_string_unpack (this : nat) (s : sz_string_t) : pointer * Z * Z * bool :=
  let is_small := sz_string_is_on_stack this s in
  (start s, length s, if is_small then sz_string_stack_space else space s, negb is_small).

(** Modelled from the spec: [sz_string_range] of [stringzilla.h] is
    absent; it reports start and length. *)
Definition sz_string_range (s : sz_string_t) : pointer * Z := (start s, length s).

(** Modelled from the spec: [sz_string_init] of [stringzilla.h] is absent;
    the "empty inline state", as the [constexpr] default constructor of
    the header writes it: start at the own inline buffer, every other
    word zero. *)
Definition sz_string_init (this : nat) : sz_string_t :=
  mk_string (chars_ptr this) 0 (repeat x00 (Z.to_nat sz_string_stack_space)) 0.

(** Modelled from the spec: [sz_string_free] of [stringzilla.h] is absent;
    "destroyed by releasing any heap allocation (no-op if inline)", after
    which the string is the empty inline one. *)
Definition sz_string_free (st : state) (this : nat) : state :=
  let s := objects st this in
  let st := if sz_string_is_on_stack this s then st else free st (start s) (space s) in
  set_object st this (sz_string_init this).

(** Modelled from the spec: [sz_string_expand] of [stringzilla.h] is
    absent; the "capacity-ensuring growth logic": it opens a gap of
    [added_length] bytes at [offset] (clamped to the length), moving the
    tail up and keeping the terminating zero byte, in place when the
    current space suffices and otherwise in a fresh, possibly
    over-allocated heap block; it returns the start of the string, or
    null when the allocator fails. *)
Definition sz_string_expand (st : state) (this : nat) (offset added_length : Z)
  : option (option pointer * state) :=
  let s := objects st this in
  let '(string_start, string_length, string_space, string_is_external) :=
    sz_string_unpack this s in
  let offset := sz_min_of_two offset string_length in
  old <- load st string_start string_length ;;
  let grown := firstn (Z.to_nat (offset + added_length))
                      (old ++ repeat x00 (Z.to_nat added_length))
               ++ skipn (Z.to_nat offset) old ++ [x00] in
  if string_length + added_length <? string_space then
    st <- store st string_start grown ;;
    let s := objects st this in
    Some (Some string_start,
          set_object st this
            (mk_string (start s) (string_length + added_length) (chars s) (space s)))
  else
    let new_space := Z.max (2 * string_space) (string_length + added_length + 1) in
    match allocate st new_space with
    | (None, st) => Some (None, st)
    | (Some new_start, st) =>
        st <- store st new_start grown ;;
        let st := if string_is_external then free st string_start string_space else st in
        let s := objects st this in
        Some (Some new_start,
              set_object st this
                (mk_string new_start (string_length + added_length) (chars s) new_space))
    end.

(** [constexpr basic_string() noexcept]. *)
Definition construct (st : state) (this : nat) : state :=
  set_object st this
    (mk_string (chars_ptr this) 0 (repeat x00 (Z.to_nat sz_string_stack_space)) 0).

(** [bool is_internal() const noexcept]. *)
Definition is_internal (st : state) (this : nat) : bool :=
  sz_string_is_on_stack this (objects st this).

(** [void move(basic_string &other) noexcept]. *)
Definition move (st : state) (this other : nat) : state :=
  let '(string_start, string_length, string_space, string_is_external) :=
    sz_string_unpack other (objects st other) in
  (* Acquire the old string's value bitwise. *)
  let st := set_object st this (objects st other) in
  (* Reposition the string start pointer to the stack if it fits. *)
  let s := objects st this in
  let st := set_object st this
              (mk_string (if string_is_external then start s else chars_ptr this)
                         (length s) (chars s) (space s)) in
  (* Discard the other string. *)
  set_object st other (sz_string_init other).

(** [basic_string(basic_string &&other) noexcept { move(other); }]. *)
Definition move_construct (st : state) (this other : nat) : state :=
  move st this other.

(** [basic_string &operator=(basic_string &&other) noexcept]. *)
Definition move_assign (st : state) (this other : nat) : state :=
  let st := if negb (is_internal st this) then sz_string_free st this else st in
  move st this other.

(** [string_view view() const noexcept]: start and length. *)
Definition view (st : state) (this : nat) : pointer * Z :=
  sz_string_range (objects st this).

(** [const_pointer data() const noexcept]. *)
Definition data (st : state) (this : nat) : pointer := start (objects st this).

(** [size_type size() const noexcept { return view().size(); }]. *)
Definition size (st : state) (this : nat) : Z := snd (view st this).

(** [bool empty() const noexcept]. *)
Definition empty (st : state) (this : nat) : bool := length (objects st this) =? 0.

(** The byte sequence the string holds: the bytes of [view()]. *)
Definition contents (st : state) (this : nat) : option (list byte) :=
  load st (fst (view st this)) (snd (view st this)).

(** [bool try_push_back(char c) noexcept]. *)
Definition try_push_back (st : state) (this : nat) (c : byte) : option (bool * state) :=
  r <- sz_string_expand st this sz_size_max 1 ;;
  match r with
  | (None, st) => Some (false, st)
  | (Some start, st) =>
      st <- store st (advance start (size st this - 1)) [c] ;;
      Some (true, st)
  end.

(** [bool try_append(const_pointer str, size_type length) noexcept]; the
    [length] bytes at [str] are the list [str]. *)
Definition try_append (st : state) (this : nat) (str : list byte) : option (bool * state) :=
  r <- sz_string_expand st this sz_size_max 1 ;;
  match r with
  | (None, st) => Some (false, st)
  | (Some start, st) =>
      st <- store st (advance start (size st this - 1)) str ;;
      Some (true, st)
  end.

(** Modelled from the spec: [sz_string_erase] of [stringzilla.h] is absent;
    it "removes a byte range in place, shifting the tail left; never
    reallocates": [offset] is clamped to the length and [length] to what
    follows the offset, and the terminating zero byte moves with the
    tail. *)
Definition sz_string_erase (st : state) (this : nat) (offset length : Z) : option state :=
  let s := objects st this in
  let '(string_start, string_length, string_space, string_is_external) :=
    sz_string_unpack this s in
  let offset := sz_min_of_two offset string_length in
  let length := sz_min_of_two length (string_length - offset) in
  old <- load st string_start string_length ;;
  st <- store st string_start
          (firstn (Z.to_nat offset) old ++ skipn (Z.to_nat (offset + length)) old ++ [x00]) ;;
  let s := objects st this in
  Some (set_object st this
          (mk_string (start s) (string_length - length) (chars s) (space s))).

(** [bool try_assign(string_view other) noexcept]; the bytes of [other] are
    the list [other]. *)
Definition try_assign (st : state) (this : nat) (other : list byte) : option (bool * state) :=
  let '(string_start, string_length) := sz_string_range (objects st this) in
  if Z.of_nat (List.length other) <=? string_length then
    st <- sz_string_erase st this (Z.of_nat (List.length other)) sz_size_max ;;
    st <- store st string_start other ;;
    Some (true, st)
  else
    r <- sz_string_expand st this sz_size_max (Z.of_nat (List.length other)) ;;
    match r with
    | (None, st) => Some (false, st)
    | (Some string_start, st) =>
        st <- store st string_start other ;;
        Some (true, st)
    end.

(** [void swap(basic_string &other) noexcept]:
    [std::swap(string_, other.string_)]. *)
Definition swap (st : state) (this other : nat) : state :=
  let temp := objects st this in
  let st := set_object st this (objects st other) in
  set_object st other temp.

(** How a [noexcept(false)] member completes. *)
Inductive completion : Type :=
| returns (st : state)
| throws_bad_alloc (st : state).

(** [basic_string &append(string_view other) noexcept(false)]. *)
Definition append (st : state) (this : nat) (other : list byte) : option completion :=
  r <- try_append st this other ;;
  Some (if fst r then returns (snd r) else throws_bad_alloc (snd r)).


(** A string that owns what it points to: inline with the length below
    the inline space, or in a live heap block of [space] bytes with the
    length below [space]; the length is a [size_type] value. *)
Definition well_formed (st : state) (this : nat) : bool :=
  let s := objects st this in
  ((0 <=? length s) && (length s <=? sz_size_max))
  && if is_internal st this
     then (length s <? sz_string_stack_space)
          && (Z.of_nat (List.length (chars s)) =? sz_string_stack_space)
     else match blk (start s) with
          | Heap id =>
              match heap st id with
              | Some buf =>
                  (off (start s) =? 0) && (length s <? space s)
                  && (Z.of_nat (List.length buf) =? space s)
              | None => false
              end
          | Chars _ => false
          end.

End basic_string.

(* ------------------------------------------------------------------------- *)
(** ** Vocabulary of the properties *)

(** A view whose length is a [size_type] value. *)
Definition valid (v : string_view.t) : Prop :=
  0 <= string_view.length_ v <= sz_size_max.

(** The slices [gaps] concatenated with one copy of [d] between
    consecutive ones. *)
Fixpoint join (d : list byte) (gaps : list (list byte)) : list byte :=
  match gaps with
  | [] => []
  | g :: rest =>
      match rest with
      | [] => g
      | _ :: _ => g ++ d ++ join d rest
      end
  end.

(** The list without its longest prefix of elements satisfying [p]. *)
Fixpoint drop_while {A : Type} (p : A -> bool) (l : list A) : list A :=
  match l with
  | [] => []
  | x :: rest => if p x then drop_while p rest else l
  end.

(** A valid view that ends where the haystack ends, at [hend]. *)
Definition suffix_of (hend : Z) (r : string_view.t) : Prop :=
  valid r /\ string_view.end_ r = hend.

(** The matches a forward scan of the region [r] reports: none when the
    matcher locates nothing in [r]; otherwise the slice of [needle_length]
    bytes at the located offset [p], followed by the matches of the region
    that starts [skip_length] bytes past that match start. *)
Inductive reported {M : Type} `{matcher M} (mem : memory) (m : M)
  : string_view.t -> list string_view.t -> Prop :=
| reported_none (r : string_view.t) :
    locate mem m r = string_view.npos ->
    reported mem m r []
| reported_match (r : string_view.t) (rest : list string_view.t) :
    locate mem m r <> string_view.npos ->
    reported mem m
      (string_view.mk (string_view.start_ r + locate mem m r + skip_length m)
                      (string_view.length_ r - locate mem m r - skip_length m))
      rest ->
    reported mem m r
      (string_view.mk (string_view.start_ r + locate mem m r) (needle_length m) :: rest).

(** The gaps a forward scan of the region [r] leaves between its matches:
    [r] itself when the matcher locates nothing in it; otherwise the slice
    before the located match, followed by the gaps of the region that starts
    right after that match. *)
Inductive gaps_of {M : Type} `{matcher M} (mem : memory) (m : M)
  : string_view.t -> list string_view.t -> Prop :=
| gaps_last (r : string_view.t) :
    locate mem m r = string_view.npos ->
    gaps_of mem m r [r]
| gaps_match (r : string_view.t) (rest : list string_view.t) :
    locate mem m r <> string_view.npos ->
    gaps_of mem m
      (string_view.mk (string_view.start_ r + locate mem m r + needle_length m)
                      (string_view.length_ r - locate mem m r - needle_length m))
      rest ->
    gaps_of mem m r
      (string_view.mk (string_view.start_ r) (locate mem m r) :: rest).

(** A valid view that starts where the haystack starts, at [hbegin]. *)
Definition prefix_of (hbegin : Z) (r : string_view.t) : Prop :=
  valid r /\ string_view.start_ r = hbegin.

(** The matches a backward scan of the region [r] reports: none when the
    matcher locates nothing in [r]; otherwise the slice of [needle_length]
    bytes at the located offset [p], followed by the matches of the region
    that ends [skip_length] bytes before the end of that match. *)
Inductive reported_back {M : Type} `{matcher M} (mem : memory) (m : M)
  : string_view.t -> list string_view.t -> Prop :=
| reported_back_none (r : string_view.t) :
    locate mem m r = string_view.npos ->
    reported_back mem m r []
| reported_back_match (r : string_view.t) (rest : list string_view.t) :
    locate mem m r <> string_view.npos ->
    reported_back mem m
      (string_view.mk (string_view.start_ r)
                      (locate mem m r + needle_length m - skip_length m))
      rest ->
    reported_back mem m r
      (string_view.mk (string_view.start_ r + locate mem m r) (needle_length m) :: rest).

(** The gaps a backward scan of the region [r] leaves between its matches,
    last gap first: [r] itself when the matcher locates nothing in it;
    otherwise the slice after the located match, followed by the gaps of the
    region that ends right before that match. *)
Inductive gaps_back {M : Type} `{matcher M} (mem : memory) (m : M)
  : string_view.t -> list string_view.t -> Prop :=
| gaps_back_last (r : string_view.t) :
    locate mem m r = string_view.npos ->
    gaps_back mem m r [r]
| gaps_back_match (r : string_view.t) (rest : list string_view.t) :
    locate mem m r <> string_view.npos ->
    gaps_back mem m (string_view.mk (string_view.start_ r) (locate mem m r)) rest ->
    gaps_back mem m r
      (string_view.mk (string_view.start_ r + locate mem m r + needle_length m)
                      (string_view.length_ r - locate mem m r - needle_length m) :: rest).

(** Whether the bytes of the needle [D] occur at the address [a]. *)
Definition occurs_at (mem : memory) (D : string_view.t) (a : Z) : bool :=
  sz_equal mem a (string_view.start_ D) (string_view.length_ D).

(** Whether the byte at the address [a] is in [set]. *)
Definition holds_member (mem : memory) (set : character_set.t) (a : Z) : bool :=
  character_set.contains set (mem a).

(** The addresses [s], [s + 1], ..., [s + k - 1]; none when [k <= 0]. *)
Definition addresses (s k : Z) : list Z :=
  map (fun i => s + Z.of_nat i) (seq 0 (Z.to_nat k)).

(** The offsets of [h] at which the bytes of [n] occur, ascending. *)
Definition occurrences (mem : memory) (h n : string_view.t) : list Z :=
  filter (fun q => occurs_at mem n (string_view.start_ h + q))
         (addresses 0 (string_view.length_ h - string_view.length_ n + 1)).

(** The offsets of [h] that hold a byte of [set], ascending. *)
Definition member_offsets (mem : memory) (h : string_view.t) (set : character_set.t)
  : list Z :=
  filter (fun q => holds_member mem set (string_view.start_ h + q))
         (addresses 0 (string_view.length_ h)).

(** The slice of [width] bytes at each of the offsets [qs] of [h]. *)
Definition slices_at (h : string_view.t) (width : Z) (qs : list Z) : list string_view.t :=
  map (fun q => string_view.mk (string_view.start_ h + q) width) qs.

(** The slices of the bytes from [s] up to [e] that lie between delimiters
    of [width] bytes at the ascending addresses [ps]. *)
Fixpoint cuts (width s e : Z) (ps : list Z) : list string_view.t :=
  match ps with
  | [] => [string_view.mk s (e - s)]
  | p :: ps' => string_view.mk s (p - s) :: cuts width (p + width) e ps'
  end.

(** Split-range iterators obtained from [begin()] or [end()] of one range by
    zero or more increments. *)
Inductive derived_split {M : Type} `{matcher M} (mem : memory) (r : range_splits.t M)
  : range_splits.iterator.t M -> Prop :=
| derived_split_begin : derived_split mem r (range_splits.begin mem r)
| derived_split_end : derived_split mem r (range_splits.end_ r)
| derived_split_next (it it' : range_splits.iterator.t M) :
    derived_split mem r it ->
    range_splits.iterator.next mem it = Some it' ->
    derived_split mem r it'.

(** The strings at [this] and [other] point into different blocks: neither
    owns the other's bytes. *)
Definition owns_apart (st : basic_string.state) (this other : nat) : bool :=
  negb (basic_string.block_eqb
          (basic_string.blk (basic_string.start (basic_string.objects st this)))
          (basic_string.blk (basic_string.start (basic_string.objects st other)))).

(** What a move from [src] to [dest] establishes, [st] being the state
    before it and [st'] the state after it: [dest] holds [bytes]; [src] is
    the empty inline string; an inline source leaves [dest] inline, its data
    pointer at its own inline buffer and not at that of [src]; a heap
    source hands its pointer over. *)
Definition moved (st st' : basic_string.state) (dest src : nat) (bytes : list byte) : Prop :=
  basic_string.contents st' dest = Some bytes
  /\ basic_string.objects st' src = basic_string.sz_string_init src
  /\ basic_string.is_internal st' src = true
  /\ basic_string.contents st' src = Some []
  /\ basic_string.empty st' src = true
  /\ (basic_string.is_internal st src = true ->
      basic_string.is_internal st' dest = true
      /\ basic_string.data st' dest = basic_string.chars_ptr dest
      /\ basic_string.data st' dest <> basic_string.chars_ptr src)
  /\ (basic_string.is_internal st src = false ->
      basic_string.is_internal st' dest = false
      /\ basic_string.data st' dest = basic_string.data st src
      /\ basic_string.space (basic_string.objects st' dest)
         = basic_string.space (basic_string.objects st src)).

(** The memory and views of the worked examples: the haystack at address 16,
    a separator byte, then the needle. *)
Module examples.
Definition bytes (s : string) : list byte := list_byte_of_string s.

Definition mem_aaaa : memory := mem_of 16 (bytes "aaaa|aa").
Definition aaaa : string_view.t := string_view.mk 16 4.
Definition aa : string_view.t := string_view.mk 21 2.

Definition mem_csv : memory := mem_of 16 (bytes "a,b,c|,").
Definition a_b_c : string_view.t := string_view.mk 16 5.
Definition comma : string_view.t := string_view.mk 22 1.

Definition mem_trailing : memory := mem_of 16 (bytes "a,|,").
Definition a_comma : string_view.t := string_view.mk 16 2.
Definition nothing : string_view.t := string_view.mk 16 0.
Definition comma' : string_view.t := string_view.mk 19 1.

(** Two string objects at addresses 0 and 1; [short] holds "abc" inline
    at address 0. *)
Definition fresh : basic_string.state :=
  basic_string.mk_state (fun o => basic_string.sz_string_init o) (fun _ => None) 0 1000.

Definition short : basic_string.state :=
  basic_string.set_object fresh 0
    (basic_string.mk_string (basic_string.chars_ptr 0) 3
       (bytes "abc" ++ repeat x00 20) 0).

(** [long] holds 26 bytes in a heap block at address 0, and "xy" inline
    at address 1. *)
Definition alphabet : list byte := bytes "abcdefghijklmnopqrstuvwxyz".

Definition long : basic_string.state :=
  basic_string.mk_state
    (fun o =>
       if Nat.eqb o 0
       then basic_string.mk_string (basic_string.mk_pointer (basic_string.Heap 0) 0) 26
              (repeat x00 23) 46
       else if Nat.eqb o 1
       then basic_string.mk_string (basic_string.chars_ptr 1) 2
              (bytes "xy" ++ repeat x00 21) 0
       else basic_string.sz_string_init o)
    (fun id => if Nat.eqb id 0 then Some (alphabet ++ repeat x00 20) else None)
    1 1000.

(** "  a b  " at address 16, for the strips. *)
Definition mem_padded : memory := mem_of 16 (bytes "  a b  ").
Definition padded : string_view.t := string_view.mk 16 7.
Definition blank : character_set.t := character_set.add character_set.empty " "%byte.

(** "abcabc" at address 16, then "abc", "bc" and "ab". *)
Definition mem_abc : memory := mem_of 16 (bytes "abcabc|abc|bc|ab").
Definition abcabc : string_view.t := string_view.mk 16 6.
Definition abc : string_view.t := string_view.mk 23 3.
Definition bc : string_view.t := string_view.mk 27 2.
Definition ab : string_view.t := string_view.mk 30 2.

(** "2024" and "1999" at addresses 16 and 21. *)
Definition mem_years : memory := mem_of 16 (bytes "2024|1999").
Definition y2024 : string_view.t := string_view.mk 16 4.
Definition y1999 : string_view.t := string_view.mk 21 4.

(** [two_long] holds the alphabet in heap block 0 at address 0 and
    "0123456789012345678901234" in heap block 1 at address 1. *)
Definition numbers : list byte := bytes "0123456789012345678901234".

Definition two_long : basic_string.state :=
  basic_string.mk_state
    (fun o =>
       if Nat.eqb o 0
       then basic_string.mk_string (basic_string.mk_pointer (basic_string.Heap 0) 0) 26
              (repeat x00 23) 46
       else if Nat.eqb o 1
       then basic_string.mk_string (basic_string.mk_pointer (basic_string.Heap 1) 0) 25
              (repeat x00 23) 46
       else basic_string.sz_string_init o)
    (fun id => if Nat.eqb id 0 then Some (alphabet ++ repeat x00 20)
               else if Nat.eqb id 1 then Some (numbers ++ repeat x00 21)
               else None)
    2 1000.
End examples.

(* ------------------------------------------------------------------------- *)
(** ** Arithmetic and memory lemmas *)

Lemma two_64 : 2 ^ 64 = 18446744073709551616.
Proof. reflexivity. Qed.

Lemma sz_size_max_val : sz_size_max = 18446744073709551615.
Proof. reflexivity. Qed.

Lemma npos_val : string_view.npos = sz_size_max.
Proof. reflexivity. Qed.

Lemma wrap_small (x : Z) : 0 <= x <= sz_size_max -> wrap x = x.
Proof.
  intros Hx. unfold wrap. apply Z.mod_small.
  rewrite sz_size_max_val in Hx. rewrite two_64. lia.
Qed.

Lemma sz_min_of_two_min (x y : Z) : sz_min_of_two x y = Z.min x y.
Proof. unfold sz_min_of_two. destruct (Z.ltb_spec x y); lia. Qed.

Lemma found_or_npos (otherwise : Z) : found_or string_view.npos otherwise = otherwise.
Proof. unfold found_or. rewrite Z.eqb_refl. reflexivity. Qed.

Lemma found_or_found (position otherwise : Z) :
  position <> string_view.npos -> found_or position otherwise = position.
Proof.
  intros Hp. unfold found_or.
  destruct (Z.eqb_spec position string_view.npos); [contradiction | reflexivity].
Qed.

Lemma map_seq_shift (f : Z -> byte) (s : Z) (p n : nat) :
  map (fun i => f (s + Z.of_nat p + Z.of_nat i)) (seq 0 n)
  = map (fun i => f (s + Z.of_nat i)) (seq p n).
Proof.
  revert p. induction n as [|n IH]; intros p; [reflexivity|].
  cbn [seq map]. f_equal; [f_equal; lia|].
  rewrite <- (IH (S p)). rewrite <- seq_shift, map_map.
  apply map_ext. intros i. f_equal. lia.
Qed.

Lemma to_list_length (mem : memory) (v : string_view.t) :
  List.length (string_view.to_list mem v) = Z.to_nat (string_view.length_ v).
Proof. unfold string_view.to_list. rewrite length_map, length_seq. reflexivity. Qed.

(** A view of [a + b] bytes is its first [a] bytes followed by the next [b]. *)
Lemma to_list_app (mem : memory) (s a b : Z) :
  0 <= a -> 0 <= b ->
  string_view.to_list mem (string_view.mk s (a + b))
  = string_view.to_list mem (string_view.mk s a)
    ++ string_view.to_list mem (string_view.mk (s + a) b).
Proof.
  intros Ha Hb. unfold string_view.to_list. cbn [string_view.start_ string_view.length_].
  rewrite Z2Nat.inj_add by lia. rewrite seq_app, map_app. f_equal.
  cbn [Nat.add].
  rewrite <- (map_seq_shift mem s (Z.to_nat a) (Z.to_nat b)).
  apply map_ext. intros i. f_equal. lia.
Qed.

Lemma to_list_nil (mem : memory) (s : Z) :
  string_view.to_list mem (string_view.mk s 0) = [].
Proof. reflexivity. Qed.

(** The window of [n] bytes at offset [p] of a view. *)
Lemma to_list_window (mem : memory) (v : string_view.t) (p n : Z) :
  0 <= p -> 0 <= n -> p + n <= string_view.length_ v ->
  string_view.to_list mem (string_view.mk (string_view.start_ v + p) n)
  = firstn (Z.to_nat n) (skipn (Z.to_nat p) (string_view.to_list mem v)).
Proof.
  intros Hp Hn Hle. destruct v as [s len]. cbn [string_view.start_ string_view.length_] in *.
  replace (string_view.mk s len) with (string_view.mk s (p + (n + (len - p - n))))
    by (f_equal; lia).
  rewrite to_list_app by lia.
  rewrite skipn_app, skipn_all2 by (rewrite to_list_length; cbn; lia).
  rewrite to_list_length. cbn [string_view.length_ app].
  rewrite Nat.sub_diag. cbn [skipn].
  rewrite to_list_app by lia.
  rewrite firstn_app, firstn_all2 by (rewrite to_list_length; cbn; lia).
  rewrite to_list_length. cbn [string_view.length_].
  rewrite Nat.sub_diag. cbn [firstn]. rewrite app_nil_r. reflexivity.
Qed.

Lemma sz_equal_to_list (mem : memory) (a b n : Z) :
  sz_equal mem a b n = true ->
  string_view.to_list mem (string_view.mk a n) = string_view.to_list mem (string_view.mk b n).
Proof.
  unfold sz_equal, string_view.to_list. cbn [string_view.start_ string_view.length_].
  intros H. rewrite forallb_forall in H.
  apply map_ext_in. intros i Hi. apply byte_dec_bl. apply H. exact Hi.
Qed.

Lemma scan_first_some (p : Z -> bool) (count : nat) (h a : Z) :
  scan_first p h count = Some a ->
  h <= a < h + Z.of_nat count /\ p a = true /\ (forall b, h <= b < a -> p b = false).
Proof.
  revert h. induction count as [|c IH]; intros h; cbn [scan_first]; [discriminate|].
  destruct (p h) eqn:Hph.
  - intros [= <-]. repeat split; try lia; try exact Hph.
  - intros Hs. apply IH in Hs. destruct Hs as (Hr & Hpa & Hmin).
    repeat split; try lia; [exact Hpa|].
    intros b Hb. destruct (Z.eq_dec b h) as [->|Hne]; [exact Hph | apply Hmin; lia].
Qed.

Lemma scan_first_none (p : Z -> bool) (count : nat) (h : Z) :
  scan_first p h count = None -> forall b, h <= b < h + Z.of_nat count -> p b = false.
Proof.
  revert h. induction count as [|c IH]; intros h; cbn [scan_first]; [intros _ b Hb; lia|].
  destruct (p h) eqn:Hph; [discriminate|].
  intros Hs b Hb. destruct (Z.eq_dec b h) as [->|Hne]; [exact Hph|].
  apply (IH (h + 1)); [exact Hs | lia].
Qed.

Lemma scan_last_some (p : Z -> bool) (count : nat) (h a : Z) :
  scan_last p h count = Some a ->
  h <= a < h + Z.of_nat count /\ p a = true
  /\ (forall b, a < b < h + Z.of_nat count -> p b = false).
Proof.
  induction count as [|c IH]; cbn [scan_last]; [discriminate|].
  destruct (p (h + Z.of_nat c)) eqn:Hpc.
  - intros [= <-]. repeat split; try lia; try exact Hpc.
  - intros Hs. apply IH in Hs. destruct Hs as (Hr & Hpa & Hmax).
    repeat split; try lia; [exact Hpa|].
    intros b Hb. destruct (Z.eq_dec b (h + Z.of_nat c)) as [->|Hne];
      [exact Hpc | apply Hmax; lia].
Qed.

(* ------------------------------------------------------------------------- *)
(** ** [string_view]: windows and searches *)

Lemma substr_in_range (v : string_view.t) (pos count : Z) :
  valid v -> 0 <= pos <= string_view.size v ->
  string_view.substr v pos count
  = string_view.mk (string_view.start_ v + pos)
                   (Z.min count (string_view.size v - pos)).
Proof.
  intros Hv Hpos. unfold string_view.substr, string_view.size, valid in *.
  rewrite sz_min_of_two_min, wrap_small by lia. reflexivity.
Qed.

Lemma substr_from_in_range (v : string_view.t) (pos : Z) :
  valid v -> 0 <= pos <= string_view.size v ->
  string_view.substr_from v pos
  = string_view.mk (string_view.start_ v + pos) (string_view.size v - pos).
Proof.
  intros Hv Hpos. unfold string_view.substr_from, string_view.size, valid in *.
  rewrite wrap_small by lia. reflexivity.
Qed.

Lemma remove_prefix_in_range (v : string_view.t) (n : Z) :
  valid v -> 0 <= n <= string_view.size v ->
  string_view.remove_prefix v n
  = Some (string_view.mk (string_view.start_ v + n) (string_view.size v - n)).
Proof.
  intros Hv Hn. unfold string_view.remove_prefix, string_view.size, valid in *.
  destruct (Z.leb_spec n (string_view.length_ v)); [|lia].
  rewrite wrap_small by lia. reflexivity.
Qed.

(** The three slices cut at [p] and [p + l] make up the view. *)
Lemma three_way_split (mem : memory) (v : string_view.t) (p l : Z) :
  valid v -> 0 <= p -> 0 <= l -> p + l <= string_view.size v ->
  string_view.to_list mem (string_view.substr v 0 p)
  ++ string_view.to_list mem (string_view.substr v p l)
  ++ string_view.to_list mem (string_view.substr_from v (wrap (p + l)))
  = string_view.to_list mem v.
Proof.
  intros Hv Hp Hl Hle. pose proof Hv as Hv'. unfold valid, string_view.size in *.
  rewrite (wrap_small (p + l)) by lia.
  rewrite !substr_in_range, substr_from_in_range by (unfold string_view.size; auto; lia).
  unfold string_view.size. destruct v as [s len]. cbn [string_view.start_ string_view.length_] in *.
  rewrite !Z.min_l by lia. rewrite Z.add_0_r.
  replace (string_view.to_list mem (string_view.mk s len))
    with (string_view.to_list mem (string_view.mk s (p + (l + (len - (p + l))))))
    by (do 2 f_equal; lia).
  rewrite to_list_app by lia. f_equal.
  rewrite to_list_app by lia. do 3 f_equal. lia.
Qed.

(** A successful [find] reports the offset of an occurrence of the needle
    that lies within the haystack, and no earlier offset holds one. *)
Lemma find_found (mem : memory) (h n : string_view.t) :
  valid h -> valid n -> string_view.find mem h n <> string_view.npos ->
  0 <= string_view.find mem h n
  /\ 0 < string_view.length_ n
  /\ string_view.find mem h n + string_view.length_ n <= string_view.length_ h
  /\ sz_equal mem (string_view.start_ h + string_view.find mem h n)
                  (string_view.start_ n) (string_view.length_ n) = true
  /\ (forall q, 0 <= q < string_view.find mem h n ->
                sz_equal mem (string_view.start_ h + q)
                         (string_view.start_ n) (string_view.length_ n) = false).
Proof.
  unfold valid, string_view.find, sz_find. intros Hh Hn.
  destruct (Z.ltb_spec (string_view.length_ h) (string_view.length_ n));
    cbn [orb]; [congruence|].
  destruct (Z.eqb_spec (string_view.length_ n) 0); [congruence|].
  destruct (scan_first _ _ _) as [a|] eqn:Hscan; [|congruence].
  intros _. apply scan_first_some in Hscan. destruct Hscan as (Hr & Ha & Hmin).
  rewrite Z2Nat.id in Hr by lia.
  rewrite wrap_small by lia.
  replace (string_view.start_ h + (a - string_view.start_ h)) with a by lia.
  repeat split; try lia; [exact Ha|].
  intros q Hq. apply Hmin. lia.
Qed.

(** An unsuccessful [find]: no offset of the haystack holds the needle. *)
Lemma find_not_found (mem : memory) (h n : string_view.t) :
  valid h -> valid n -> string_view.find mem h n = string_view.npos ->
  0 < string_view.length_ n ->
  forall q, 0 <= q -> q + string_view.length_ n <= string_view.length_ h ->
            sz_equal mem (string_view.start_ h + q)
                     (string_view.start_ n) (string_view.length_ n) = false.
Proof.
  unfold valid, string_view.find, sz_find. intros Hh Hn Hf Hpos q Hq Hle.
  destruct (Z.ltb_spec (string_view.length_ h) (string_view.length_ n));
    cbn [orb] in Hf; [lia|].
  destruct (Z.eqb_spec (string_view.length_ n) 0); [lia|].
  destruct (scan_first _ _ _) as [a|] eqn:Hscan.
  - exfalso. apply scan_first_some in Hscan. destruct Hscan as (Hr & _ & _).
    rewrite Z2Nat.id in Hr by lia. rewrite wrap_small in Hf by lia.
    rewrite npos_val in Hf. lia.
  - apply (scan_first_none _ _ _ Hscan). rewrite Z2Nat.id by lia. lia.
Qed.

(** A successful [find_first_of] reports the offset of a byte of the set. *)
Lemma find_first_of_found (mem : memory) (h : string_view.t) (set : character_set.t) :
  valid h -> string_view.find_first_of mem h set <> string_view.npos ->
  0 <= string_view.find_first_of mem h set
  /\ string_view.find_first_of mem h set + 1 <= string_view.length_ h
  /\ character_set.contains set
       (mem (string_view.start_ h + string_view.find_first_of mem h set)) = true.
Proof.
  unfold valid, string_view.find_first_of, sz_find_from_set. intros Hh.
  destruct (scan_first _ _ _) as [a|] eqn:Hscan; [|congruence].
  intros _. apply scan_first_some in Hscan. destruct Hscan as (Hr & Ha & _).
  rewrite Z2Nat.id in Hr by lia.
  rewrite wrap_small by lia.
  replace (string_view.start_ h + (a - string_view.start_ h)) with a by lia.
  repeat split; try lia. exact Ha.
Qed.

(* ------------------------------------------------------------------------- *)
(** ** Claims about [string_view] and [character_set] *)

(** C10.  For a view [v], a position [pos <= v.size()] and any [count],
    also one exceeding [v.size() - pos], [v.substr(pos, count)] is the window
    of [v] that starts at offset [pos] and whose length is the minimum of
    [count] and [v.size() - pos]: an over-long count is clamped. *)
Theorem substr_clamps_count (mem : memory) (v : string_view.t) (pos count : Z) :
  valid v ->
  0 <= pos <= string_view.size v ->
  0 <= count <= sz_size_max ->
  string_view.begin (string_view.substr v pos count) = string_view.begin v + pos
  /\ string_view.size (string_view.substr v pos count)
     = Z.min count (string_view.size v - pos)
  /\ string_view.to_list mem (string_view.substr v pos count)
     = firstn (Z.to_nat (Z.min count (string_view.size v - pos)))
              (skipn (Z.to_nat pos) (string_view.to_list mem v)).
Proof.
  intros Hv Hpos Hcount. rewrite substr_in_range by assumption.
  cbn [string_view.begin string_view.size string_view.start_ string_view.length_].
  repeat split.
  apply to_list_window; unfold string_view.size in *; lia.
Qed.

Lemma substr_clamps_count_witness :
  string_view.begin (string_view.substr examples.a_b_c 2 string_view.npos) = 18
  /\ string_view.size (string_view.substr examples.a_b_c 2 string_view.npos) = 3
  /\ string_view.to_list examples.mem_csv
       (string_view.substr examples.a_b_c 2 string_view.npos)
     = examples.bytes "b,c".
Proof.
  exact (substr_clamps_count examples.mem_csv examples.a_b_c 2 string_view.npos
           ltac:(unfold valid; cbn; lia) ltac:(cbn; lia)
           ltac:(rewrite npos_val; unfold sz_size_max; lia)).
Defined.

(** C8.  For a view [H] and a pattern [P] (a string or a character set),
    [partition(P)] returns [(before, match, after)] with
    [before ++ match ++ after] equal to [H] byte for byte when a match is
    found, the match being an occurrence of the pattern, and returns
    [(H, empty, empty)] when none is found. *)
Theorem partition_law (mem : memory) (H P : string_view.t) (cs : character_set.t) :
  valid H -> valid P ->
  (string_view.find mem H P <> string_view.npos ->
   string_view.to_list mem (before (string_view.partition mem H P))
   ++ string_view.to_list mem (match_ (string_view.partition mem H P))
   ++ string_view.to_list mem (after (string_view.partition mem H P))
   = string_view.to_list mem H
   /\ string_view.to_list mem (match_ (string_view.partition mem H P))
      = string_view.to_list mem P)
  /\ (string_view.find mem H P = string_view.npos ->
      string_view.partition mem H P
      = mk_partition H string_view.default string_view.default)
  /\ (string_view.find_set mem H cs <> string_view.npos ->
      string_view.to_list mem (before (string_view.partition_set mem H cs))
      ++ string_view.to_list mem (match_ (string_view.partition_set mem H cs))
      ++ string_view.to_list mem (after (string_view.partition_set mem H cs))
      = string_view.to_list mem H
      /\ exists c, string_view.to_list mem (match_ (string_view.partition_set mem H cs)) = [c]
                   /\ character_set.contains cs c = true)
  /\ (string_view.find_set mem H cs = string_view.npos ->
      string_view.partition_set mem H cs
      = mk_partition H string_view.default string_view.default).
Proof.
  intros HH HP.
  unfold string_view.partition, string_view.partition_set, string_view.split_.
  cbn [string_view.find_ string_view.pattern_string_view string_view.pattern_character_set].
  unfold string_view.find_set, string_view.substr_self, string_view.length.
  repeat split.
  - destruct (Z.eqb_spec (string_view.find mem H P) string_view.npos); [contradiction|].
    cbn [before match_ after].
    destruct (find_found mem H P HH HP H0) as (Hp & Hl & Hle & _).
    apply three_way_split; unfold string_view.size; auto; lia.
  - destruct (Z.eqb_spec (string_view.find mem H P) string_view.npos); [contradiction|].
    cbn [match_].
    destruct (find_found mem H P HH HP H0) as (Hp & Hl & Hle & Heq & _).
    rewrite substr_in_range by (unfold string_view.size; auto; lia).
    unfold string_view.size. rewrite Z.min_l by lia.
    rewrite (sz_equal_to_list _ _ _ _ Heq). destruct P; reflexivity.
  - intros ->. reflexivity.
  - destruct (Z.eqb_spec (string_view.find_first_of mem H cs) string_view.npos);
      [contradiction|].
    cbn [before match_ after].
    destruct (find_first_of_found mem H cs HH H0) as (Hp & Hle & _).
    apply three_way_split; unfold string_view.size; auto; lia.
  - destruct (Z.eqb_spec (string_view.find_first_of mem H cs) string_view.npos);
      [contradiction|].
    cbn [match_].
    destruct (find_first_of_found mem H cs HH H0) as (Hp & Hle & Hin).
    rewrite substr_in_range by (unfold string_view.size; auto; lia).
    unfold string_view.size. rewrite Z.min_l by lia.
    eexists. split; [|exact Hin].
    unfold string_view.to_list. cbn [string_view.start_ string_view.length_].
    change (Z.to_nat 1) with 1%nat. cbn [seq map Z.of_nat].
    rewrite Z.add_0_r. reflexivity.
  - intros ->. reflexivity.
Qed.

Lemma partition_law_witness :
  (string_view.to_list examples.mem_csv
     (before (string_view.partition examples.mem_csv examples.a_b_c examples.comma))
   ++ string_view.to_list examples.mem_csv
        (match_ (string_view.partition examples.mem_csv examples.a_b_c examples.comma))
   ++ string_view.to_list examples.mem_csv
        (after (string_view.partition examples.mem_csv examples.a_b_c examples.comma))
   = string_view.to_list examples.mem_csv examples.a_b_c
   /\ string_view.to_list examples.mem_csv
        (match_ (string_view.partition examples.mem_csv examples.a_b_c examples.comma))
      = string_view.to_list examples.mem_csv examples.comma)
  /\ string_view.partition examples.mem_csv examples.comma examples.a_b_c
     = mk_partition examples.comma string_view.default string_view.default.
Proof.
  split.
  - exact (proj1 (partition_law examples.mem_csv examples.a_b_c examples.comma
                    character_set.empty
                    ltac:(unfold valid; cbn; lia) ltac:(unfold valid; cbn; lia))
                 ltac:(vm_compute; discriminate)).
  - exact (proj1 (proj2 (partition_law examples.mem_csv examples.comma examples.a_b_c
                           character_set.empty
                           ltac:(unfold valid; cbn; lia) ltac:(unfold valid; cbn; lia)))
                 ltac:(vm_compute; reflexivity)).
Defined.

(** C4 (the code departs from the claim).  [rpartition] calls [split_], the
    forward split: on "a,b,c" with pattern "," it cuts at the first comma,
    offset 1, and returns ("a", ",", "b,c"), although the last comma is at
    offset 3 and the backward split [rsplit_] returns ("a,b", ",", "c"). *)
Theorem rpartition_cuts_at_first_match :
  string_view.rfind examples.mem_csv examples.a_b_c examples.comma = 3
  /\ string_view.rpartition examples.mem_csv examples.a_b_c examples.comma
     = mk_partition (string_view.mk 16 1) (string_view.mk 17 1) (string_view.mk 18 3)
  /\ map (string_view.to_list examples.mem_csv)
         [before (string_view.rpartition examples.mem_csv examples.a_b_c examples.comma);
          match_ (string_view.rpartition examples.mem_csv examples.a_b_c examples.comma);
          after (string_view.rpartition examples.mem_csv examples.a_b_c examples.comma)]
     = [examples.bytes "a"; examples.bytes ","; examples.bytes "b,c"]
  /\ (forall (mem : memory) (v pat : string_view.t),
         string_view.rpartition mem v pat = string_view.partition mem v pat)
  /\ map (string_view.to_list examples.mem_csv)
         [before (string_view.rsplit_ (H := string_view.pattern_string_view examples.mem_csv)
                    examples.a_b_c examples.comma 1);
          match_ (string_view.rsplit_ (H := string_view.pattern_string_view examples.mem_csv)
                    examples.a_b_c examples.comma 1);
          after (string_view.rsplit_ (H := string_view.pattern_string_view examples.mem_csv)
                    examples.a_b_c examples.comma 1)]
     = [examples.bytes "a,b"; examples.bytes ","; examples.bytes "c"].
Proof. repeat split; reflexivity. Qed.

(** C3 (the code departs from the claim).  [operator|] returns [*this], not
    the or-ed copy: the union of the empty set with the set holding 'a' does
    not contain 'a', and the union of any two sets is the left operand. *)
Theorem union_loses_right_operand :
  character_set.contains (character_set.add character_set.empty "a"%byte) "a"%byte = true
  /\ character_set.contains
       (character_set.union character_set.empty
          (character_set.add character_set.empty "a"%byte)) "a"%byte = false
  /\ (forall A B : character_set.t, character_set.union A B = A).
Proof. repeat split. Qed.

(** C9, as stated, fails for split ranges: on the empty haystack, [begin()]
    and [end()] of the split range have the same remaining-slice start
    pointer and compare unequal. *)
Lemma split_iterators_same_cursor_unequal :
  ~ (forall it1 it2 : range_splits.iterator.t matcher_find.t,
        derived_split examples.mem_trailing
          (string_view_ranges.split examples.nothing examples.comma') it1 ->
        derived_split examples.mem_trailing
          (string_view_ranges.split examples.nothing examples.comma') it2 ->
        (range_splits.iterator.eq it1 it2 = true
         <-> string_view.begin (range_splits.iterator.remaining_ it1)
             = string_view.begin (range_splits.iterator.remaining_ it2))).
Proof.
  intros Hall.
  specialize (Hall _ _ (derived_split_begin _ _) (derived_split_end _ _)).
  destruct Hall as [_ Hback].
  specialize (Hback eq_refl). vm_compute in Hback. discriminate.
Qed.

(** C9, amended.  Match-range iterators compare equal iff the start
    pointers of their remaining slices coincide (the end pointers for the
    reverse range); split-range iterators compare equal iff these pointers
    coincide and their reached-tail flags agree.  No comparison reads
    memory: none takes it as an argument. *)
Theorem iterator_equality_is_cursor_comparison (M : Type)
    (a b : range_matches.iterator.t M) (c d : range_rmatches.iterator.t M)
    (e f : range_splits.iterator.t M) (g h : range_rsplits.iterator.t M) :
  (range_matches.iterator.eq a b = true
   <-> string_view.begin (range_matches.iterator.remaining_ a)
       = string_view.begin (range_matches.iterator.remaining_ b))
  /\ (range_rmatches.iterator.eq c d = true
      <-> string_view.end_ (range_rmatches.iterator.remaining_ c)
          = string_view.end_ (range_rmatches.iterator.remaining_ d))
  /\ (range_splits.iterator.eq e f = true
      <-> string_view.begin (range_splits.iterator.remaining_ e)
          = string_view.begin (range_splits.iterator.remaining_ f)
          /\ range_splits.iterator.reached_tail_ e = range_splits.iterator.reached_tail_ f)
  /\ (range_rsplits.iterator.eq g h = true
      <-> string_view.end_ (range_rsplits.iterator.remaining_ g)
          = string_view.end_ (range_rsplits.iterator.remaining_ h)
          /\ range_rsplits.iterator.reached_tail_ g = range_rsplits.iterator.reached_tail_ h)
  /\ range_matches.iterator.neq a b = negb (range_matches.iterator.eq a b)
  /\ range_rmatches.iterator.neq c d = negb (range_rmatches.iterator.eq c d)
  /\ range_splits.iterator.neq e f = negb (range_splits.iterator.eq e f)
  /\ range_rsplits.iterator.neq g h = negb (range_rsplits.iterator.eq g h).
Proof.
  unfold range_matches.iterator.eq, range_rmatches.iterator.eq,
    range_splits.iterator.eq, range_rsplits.iterator.eq,
    range_matches.iterator.neq, range_rmatches.iterator.neq,
    range_splits.iterator.neq, range_rsplits.iterator.neq.
  repeat split; intros; try reflexivity.
  - apply Z.eqb_eq; assumption.
  - apply Z.eqb_eq; assumption.
  - apply Z.eqb_eq; assumption.
  - apply Z.eqb_eq; assumption.
  - apply andb_true_iff in H. apply Z.eqb_eq. tauto.
  - apply andb_true_iff in H. apply eqb_prop. tauto.
  - destruct H as [H1 H2]. apply andb_true_iff. split;
      [apply Z.eqb_eq; assumption | rewrite H2; apply eqb_reflx].
  - apply andb_true_iff in H. apply Z.eqb_eq. tauto.
  - apply andb_true_iff in H. apply eqb_prop. tauto.
  - destruct H as [H1 H2]. apply andb_true_iff. split;
      [apply Z.eqb_eq; assumption | rewrite H2; apply eqb_reflx].
  - rewrite negb_andb. reflexivity.
  - rewrite negb_andb. reflexivity.
Qed.

(* ------------------------------------------------------------------------- *)
(** ** [basic_string]: moves and appends *)

Lemma update_same {A : Type} (f : nat -> A) (k : nat) (v : A) :
  basic_string.update f k v k = v.
Proof. unfold basic_string.update. rewrite Nat.eqb_refl. reflexivity. Qed.

Lemma update_other {A : Type} (f : nat -> A) (k x : nat) (v : A) :
  x <> k -> basic_string.update f k v x = f x.
Proof.
  intros Hne. unfold basic_string.update.
  destruct (Nat.eqb_spec x k); [contradiction | reflexivity].
Qed.

Lemma block_eqb_eq (a b : basic_string.block) :
  basic_string.block_eqb a b = true <-> a = b.
Proof.
  destruct a as [x|x], b as [y|y]; cbn; rewrite ?Nat.eqb_eq;
    split; intros H; try discriminate; try (inversion H; reflexivity); congruence.
Qed.

Lemma pointer_eqb_eq (p q : basic_string.pointer) :
  basic_string.pointer_eqb p q = true <-> p = q.
Proof.
  destruct p as [bp op], q as [bq oq]. unfold basic_string.pointer_eqb. cbn.
  rewrite andb_true_iff, block_eqb_eq, Z.eqb_eq. split.
  - intros [-> ->]. reflexivity.
  - intros [= -> ->]. split; reflexivity.
Qed.

Lemma move_heap (st : basic_string.state) (this other : nat) :
  basic_string.heap (basic_string.move st this other) = basic_string.heap st.
Proof. reflexivity. Qed.

Lemma move_other (st : basic_string.state) (this other : nat) :
  basic_string.objects (basic_string.move st this other) other
  = basic_string.sz_string_init other.
Proof. unfold basic_string.move. cbn. apply update_same. Qed.

Lemma move_this (st : basic_string.state) (this other : nat) :
  this <> other ->
  basic_string.objects (basic_string.move st this other) this
  = basic_string.mk_string
      (if basic_string.is_internal st other
       then basic_string.chars_ptr this
       else basic_string.start (basic_string.objects st other))
      (basic_string.length (basic_string.objects st other))
      (basic_string.chars (basic_string.objects st other))
      (basic_string.space (basic_string.objects st other)).
Proof.
  intros Hne. unfold basic_string.move, basic_string.is_internal. cbn.
  rewrite update_other by exact Hne. rewrite !update_same.
  destruct (basic_string.sz_string_is_on_stack other (basic_string.objects st other));
    reflexivity.
Qed.

Lemma is_on_stack_own (this : nat) (s : basic_string.sz_string_t) :
  basic_string.start s = basic_string.chars_ptr this ->
  basic_string.sz_string_is_on_stack this s = true.
Proof. intros H. apply pointer_eqb_eq. exact H. Qed.

Lemma contents_init (st : basic_string.state) (this : nat) :
  basic_string.objects st this = basic_string.sz_string_init this ->
  basic_string.contents st this = Some [].
Proof.
  intros H. unfold basic_string.contents, basic_string.view, basic_string.sz_string_range,
    basic_string.load.
  rewrite H. cbn [fst snd basic_string.start basic_string.length basic_string.sz_string_init
                  basic_string.chars_ptr basic_string.blk basic_string.off
                  basic_string.buffer bind].
  rewrite H. reflexivity.
Qed.

(** The move itself: [dest] takes over what [src] holds, whatever [dest]
    held before. *)
Lemma move_moves (st : basic_string.state) (dest src : nat) (bytes : list byte) :
  dest <> src ->
  basic_string.well_formed st src = true ->
  basic_string.contents st src = Some bytes ->
  moved st (basic_string.move st dest src) dest src bytes.
Proof.
  intros Hne Hwf Hbytes. unfold moved.
  split; [|split; [apply move_other|split; [|split; [|split; [|split]]]]].
  - (* the bytes *)
    unfold basic_string.contents, basic_string.view, basic_string.sz_string_range,
      basic_string.load in *.
    rewrite move_this by exact Hne. cbn [fst snd] in *.
    unfold basic_string.well_formed in Hwf. apply andb_true_iff in Hwf.
    destruct Hwf as [_ Hwf].
    destruct (basic_string.is_internal st src) eqn:Hint.
    + apply pointer_eqb_eq in Hint. rewrite Hint in Hbytes.
      cbn [basic_string.start basic_string.length basic_string.chars_ptr
           basic_string.blk basic_string.off basic_string.buffer bind] in *.
      rewrite move_this by exact Hne. exact Hbytes.
    + cbn [basic_string.start basic_string.length].
      destruct (basic_string.blk (basic_string.start (basic_string.objects st src)))
        as [o|id]; [discriminate|].
      cbn [basic_string.buffer] in *. rewrite move_heap. exact Hbytes.
  - unfold basic_string.is_internal. rewrite move_other.
    apply is_on_stack_own. reflexivity.
  - apply contents_init, move_other.
  - unfold basic_string.empty. rewrite move_other. reflexivity.
  - intros Hint. unfold basic_string.is_internal, basic_string.data.
    rewrite move_this by exact Hne. rewrite Hint.
    cbn [basic_string.start].
    split; [apply is_on_stack_own; reflexivity|].
    split; [reflexivity|].
    unfold basic_string.chars_ptr. congruence.
  - intros Hint. unfold basic_string.is_internal, basic_string.data.
    rewrite move_this by exact Hne. rewrite Hint.
    cbn [basic_string.start basic_string.space].
    split; [|split; reflexivity].
    unfold basic_string.well_formed in Hwf. rewrite Hint in Hwf.
    apply andb_true_iff in Hwf. destruct Hwf as [_ Hwf].
    unfold basic_string.sz_string_is_on_stack, basic_string.pointer_eqb.
    cbn [basic_string.start].
    destruct (basic_string.blk (basic_string.start (basic_string.objects st src)));
      [discriminate | reflexivity].
Qed.

(** Releasing the buffer of [this] leaves a well-formed string that points
    elsewhere as it was. *)
Lemma sz_string_free_frame (st : basic_string.state) (this other : nat) :
  this <> other ->
  owns_apart st this other = true ->
  basic_string.well_formed st other = true ->
  basic_string.objects (basic_string.sz_string_free st this) other
  = basic_string.objects st other
  /\ basic_string.well_formed (basic_string.sz_string_free st this) other = true
  /\ basic_string.contents (basic_string.sz_string_free st this) other
     = basic_string.contents st other.
Proof.
  intros Hne Hapart Hwf.
  assert (Hobj : basic_string.objects (basic_string.sz_string_free st this) other
                 = basic_string.objects st other).
  { unfold basic_string.sz_string_free, basic_string.set_object.
    cbn [basic_string.objects]. rewrite update_other by congruence.
    destruct (basic_string.sz_string_is_on_stack this (basic_string.objects st this));
      [reflexivity|].
    unfold basic_string.free.
    destruct (basic_string.blk (basic_string.start (basic_string.objects st this)));
      reflexivity. }
  assert (Hbuf : basic_string.buffer (basic_string.sz_string_free st this)
                   (basic_string.blk (basic_string.start (basic_string.objects st other)))
                 = basic_string.buffer st
                     (basic_string.blk (basic_string.start (basic_string.objects st other)))).
  { unfold basic_string.well_formed in Hwf. apply andb_true_iff in Hwf.
    destruct Hwf as [_ Hwf].
    destruct (basic_string.is_internal st other) eqn:Hint.
    - apply pointer_eqb_eq in Hint. rewrite Hint.
      cbn [basic_string.chars_ptr basic_string.blk basic_string.buffer].
      rewrite Hobj. reflexivity.
    - destruct (basic_string.blk (basic_string.start (basic_string.objects st other)))
        as [o|id] eqn:Hblk; [discriminate|].
      cbn [basic_string.buffer].
      unfold basic_string.sz_string_free, basic_string.set_object.
      destruct (basic_string.sz_string_is_on_stack this (basic_string.objects st this));
        [reflexivity|].
      unfold basic_string.free. unfold owns_apart in Hapart. rewrite Hblk in Hapart.
      destruct (basic_string.blk (basic_string.start (basic_string.objects st this)))
        as [o'|id']; [reflexivity|].
      cbn [basic_string.heap]. cbn [basic_string.block_eqb] in Hapart.
      apply negb_true_iff, Nat.eqb_neq in Hapart.
      rewrite update_other by congruence. reflexivity. }
  split; [exact Hobj|]. split.
  - unfold basic_string.well_formed, basic_string.is_internal in *.
    rewrite Hobj.
    destruct (basic_string.sz_string_is_on_stack other (basic_string.objects st other));
      [exact Hwf|].
    destruct (basic_string.blk (basic_string.start (basic_string.objects st other)))
      as [o|id]; [exact Hwf|].
    cbn [basic_string.buffer] in Hbuf. rewrite Hbuf. exact Hwf.
  - unfold basic_string.contents, basic_string.view, basic_string.sz_string_range,
      basic_string.load.
    rewrite Hobj. cbn [fst snd]. rewrite Hbuf. reflexivity.
Qed.

(** C1.  For a well-formed string [src], inline or on the heap, holding
    [bytes], and a distinct object [dest]: after [dest] is move-constructed
    from [src], or move-assigned from [src] while owning a different
    buffer, [dest] holds [bytes], [src] is the empty inline string, and for
    an inline [src] the data pointer of [dest] is the address of the inline
    buffer of [dest], never that of [src]. *)
Theorem move_leaves_source_empty
    (st : basic_string.state) (dest src : nat) (bytes : list byte) :
  dest <> src ->
  basic_string.well_formed st src = true ->
  basic_string.contents st src = Some bytes ->
  moved st (basic_string.move_construct st dest src) dest src bytes
  /\ (owns_apart st dest src = true ->
      moved st (basic_string.move_assign st dest src) dest src bytes).
Proof.
  intros Hne Hwf Hbytes. split.
  - apply move_moves; assumption.
  - intros Hapart. unfold basic_string.move_assign.
    destruct (basic_string.is_internal st dest) eqn:Hdest; cbn [negb].
    + apply move_moves; assumption.
    + destruct (sz_string_free_frame st dest src Hne Hapart Hwf) as (Hobj & Hwf' & Hc).
      pose proof (move_moves (basic_string.sz_string_free st dest) dest src bytes
                    Hne Hwf' ltac:(rewrite Hc; exact Hbytes)) as Hm.
      unfold moved in *. unfold basic_string.is_internal, basic_string.data in *.
      rewrite Hobj in Hm. exact Hm.
Qed.

Lemma move_leaves_source_empty_witness :
  (moved examples.short (basic_string.move_construct examples.short 1 0) 1 0
         (examples.bytes "abc")
   /\ moved examples.short (basic_string.move_assign examples.short 1 0) 1 0
            (examples.bytes "abc"))
  /\ (moved examples.long (basic_string.move_construct examples.long 2 0) 2 0
            examples.alphabet
      /\ moved examples.long (basic_string.move_assign examples.long 1 0) 1 0
               examples.alphabet).
Proof.
  split.
  - pose proof (move_leaves_source_empty examples.short 1 0 (examples.bytes "abc")
                  ltac:(discriminate) eq_refl eq_refl) as [Hc Ha].
    exact (conj Hc (Ha eq_refl)).
  - pose proof (move_leaves_source_empty examples.long 2 0 examples.alphabet
                  ltac:(discriminate) eq_refl eq_refl) as [Hc _].
    pose proof (move_leaves_source_empty examples.long 1 0 examples.alphabet
                  ltac:(discriminate) eq_refl eq_refl) as [_ Ha].
    exact (conj Hc (Ha eq_refl)).
Defined.

(** *** Growing by one byte

    [try_push_back] and [try_append] both grow the string through
    [sz_string_expand(&string_, sz_size_max, 1, &alloc)]. *)

Section PushBack.
Import basic_string.

Lemma grown_at_end (A : list byte) (len : Z) :
  Z.of_nat (List.length A) = len ->
  firstn (Z.to_nat (len + 1)) (A ++ repeat x00 (Z.to_nat 1))
  ++ skipn (Z.to_nat len) A ++ [x00]
  = A ++ [x00; x00].
Proof.
  intros Hlen. change (Z.to_nat 1) with 1%nat. cbn [repeat].
  rewrite firstn_all2 by (rewrite length_app; cbn; lia).
  rewrite skipn_all2 by lia. rewrite <- app_assoc. reflexivity.
Qed.

Lemma load_prefix (st : state) (p : pointer) (n : Z) (A buf : list byte) :
  buffer st (blk p) = Some buf -> off p = 0 ->
  load st p n = Some A ->
  0 <= n /\ n <= Z.of_nat (List.length buf) /\ A = firstn (Z.to_nat n) buf
  /\ Z.of_nat (List.length A) = n.
Proof.
  unfold load. intros -> ->. cbn [bind].
  destruct (Z.leb_spec 0 n); cbn [andb]; [|discriminate].
  destruct (Z.leb_spec (0 + n) (Z.of_nat (List.length buf))); [|discriminate].
  intros [= <-]. cbn [Z.to_nat skipn]. repeat split; try lia.
  rewrite length_firstn. lia.
Qed.

Lemma firstn_exact {A : Type} (l r : list A) : firstn (List.length l) (l ++ r) = l.
Proof.
  rewrite firstn_app, firstn_all, Nat.sub_diag. cbn [firstn]. apply app_nil_r.
Qed.

Lemma firstn_exact' {A : Type} (n : nat) (l r : list A) :
  n = List.length l -> firstn n (l ++ r) = l.
Proof. intros ->. apply firstn_exact. Qed.


Lemma buffer_set_buffer (st : state) (b : block) (buf : list byte) :
  buffer (set_buffer st b buf) b = Some buf.
Proof.
  destruct b as [o|id]; cbn [set_buffer buffer set_object objects heap].
  - rewrite update_same. reflexivity.
  - rewrite update_same. reflexivity.
Qed.

Lemma header_set_buffer (st : state) (b : block) (buf : list byte) (o : nat) :
  start (objects (set_buffer st b buf) o) = start (objects st o)
  /\ length (objects (set_buffer st b buf) o) = length (objects st o)
  /\ space (objects (set_buffer st b buf) o) = space (objects st o).
Proof.
  destruct b as [o'|id]; cbn [set_buffer set_object objects]; [|auto].
  unfold update. destruct (Nat.eqb_spec o o') as [->|]; auto.
Qed.

Lemma buffer_set_header (st : state) (this : nat) (p : pointer) (n sp : Z) (b : block) :
  buffer (set_object st this (mk_string p n (chars (objects st this)) sp)) b
  = buffer st b.
Proof.
  destruct b as [o|id]; cbn [buffer set_object objects heap]; [|reflexivity].
  unfold update. destruct (Nat.eqb_spec o this) as [->|]; reflexivity.
Qed.

(** What a well-formed string gives to work with. *)
Lemma well_formed_buffer (st : state) (this : nat) (A : list byte) :
  well_formed st this = true ->
  contents st this = Some A ->
  exists b buf,
    start (objects st this) = mk_pointer b 0
    /\ buffer st b = Some buf
    /\ 0 <= length (objects st this) <= sz_size_max
    /\ length (objects st this)
       < snd (fst (sz_string_unpack this (objects st this)))
    /\ snd (fst (sz_string_unpack this (objects st this))) = Z.of_nat (List.length buf)
    /\ A = firstn (Z.to_nat (length (objects st this))) buf
    /\ Z.of_nat (List.length A) = length (objects st this)
    /\ (snd (sz_string_unpack this (objects st this)) = true ->
        exists id, b = Heap id).
Proof.
  intros Hwf HA. unfold well_formed, is_internal in Hwf.
  apply andb_true_iff in Hwf. destruct Hwf as [Hlen Hwf].
  apply andb_true_iff in Hlen. destruct Hlen as [Hl0 Hl1].
  apply Z.leb_le in Hl0, Hl1.
  unfold contents, view, sz_string_range in HA. cbn [fst snd] in HA.
  unfold sz_string_unpack. cbn [fst snd].
  destruct (sz_string_is_on_stack this (objects st this)) eqn:Hint.
  - apply pointer_eqb_eq in Hint. apply andb_true_iff in Hwf. destruct Hwf as [Hlt Hsz].
    apply Z.ltb_lt in Hlt. apply Z.eqb_eq in Hsz.
    exists (Chars this), (chars (objects st this)).
    rewrite Hint in HA.
    destruct (load_prefix st (chars_ptr this) _ A _ eq_refl eq_refl HA) as (_ & _ & HAeq & HAlen).
    repeat split; try assumption; try lia; try discriminate.
  - destruct (objects st this) as [[b o] len ch sp] eqn:Hs.
    cbn [start length space blk off chars] in *.
    destruct b as [o'|id]; [discriminate|].
    destruct (heap st id) as [buf|] eqn:Hheap; [|discriminate].
    apply andb_true_iff in Hwf. destruct Hwf as [Hwf Hsz].
    apply andb_true_iff in Hwf. destruct Hwf as [Hoff Hlt].
    apply Z.eqb_eq in Hoff, Hsz. apply Z.ltb_lt in Hlt. subst o.
    exists (Heap id), buf.
    destruct (load_prefix st (mk_pointer (Heap id) 0) _ A buf Hheap eq_refl HA)
      as (_ & _ & HAeq & HAlen).
    repeat split; try assumption; try lia. intros _. exists id. reflexivity.
Qed.

Lemma expand_one (st : state) (this : nat) (A : list byte) :
  well_formed st this = true ->
  contents st this = Some A ->
  heap st (next_block st) = None ->
  sz_string_expand st this sz_size_max 1 = Some (None, st)
  \/ exists st' b rest,
       sz_string_expand st this sz_size_max 1 = Some (Some (mk_pointer b 0), st')
       /\ start (objects st' this) = mk_pointer b 0
       /\ length (objects st' this) = length (objects st this) + 1
       /\ buffer st' b = Some ((A ++ [x00; x00]) ++ rest).
Proof.
  intros Hwf HA Hfresh.
  destruct (well_formed_buffer st this A Hwf HA)
    as (b & buf & Hstart & Hbuf & Hlen & Hlt & Hsp & HAeq & HAlen & Hext).
  unfold contents, view, sz_string_range in HA. cbn [fst snd] in HA.
  unfold sz_string_expand. unfold sz_string_unpack in *. cbn [fst snd] in *.
  replace (sz_min_of_two sz_size_max (length (objects st this)))
    with (length (objects st this))
    by (rewrite sz_min_of_two_min; lia).
  rewrite HA. cbn [bind]. rewrite (grown_at_end A _ HAlen).
  set (space' := if sz_string_is_on_stack this (objects st this)
                 then sz_string_stack_space else space (objects st this)) in *.
  assert (Hgrown : Z.of_nat (List.length (A ++ [x00; x00]))
                   = length (objects st this) + 2).
  { rewrite length_app. cbn [List.length]. lia. }
  destruct (Z.ltb_spec (length (objects st this) + 1) space') as [Hfit|Hfull].
  - (* in place *)
    right. unfold store. rewrite Hstart. cbn [blk off]. rewrite Hbuf. cbn [bind].
    destruct (Z.leb_spec 0 0); [|lia]. cbn [andb].
    destruct (Z.leb_spec (0 + Z.of_nat (List.length (A ++ [x00; x00])))
                (Z.of_nat (List.length buf))); [|lia].
    cbn [Z.to_nat firstn app Nat.add].
    eexists. exists b. eexists. split; [reflexivity|].
    cbn [set_object objects]. rewrite update_same.
    cbn [start length].
    destruct (header_set_buffer st b
                (A ++ [x00; x00] ++ skipn (List.length (A ++ [x00; x00])) buf) this)
      as (Hs & _ & _).
    rewrite app_assoc in Hs.
    split; [rewrite Hs; exact Hstart|]. split; [reflexivity|].
    rewrite buffer_set_header. rewrite buffer_set_buffer. reflexivity.
  - (* a fresh block *)
    unfold allocate.
    set (new_space := Z.max (2 * space') (length (objects st this) + 1 + 1)).
    destruct ((0 <=? new_space) && (new_space <=? available st)) eqn:Hgrant;
      [|left; reflexivity].
    right. unfold store. cbn [blk off buffer heap]. rewrite update_same. cbn [bind].
    destruct (Z.leb_spec 0 0); [|lia]. cbn [andb].
    rewrite repeat_length.
    destruct (Z.leb_spec (0 + Z.of_nat (List.length (A ++ [x00; x00])))
                (Z.of_nat (Z.to_nat new_space))); [|unfold new_space in *; lia].
    cbn [Z.to_nat firstn app Nat.add].
    eexists. exists (Heap (next_block st)). eexists. split; [reflexivity|].
    cbn [set_object objects]. rewrite update_same. cbn [start length].
    split; [reflexivity|]. split; [reflexivity|].
    destruct (sz_string_is_on_stack this (objects st this)) eqn:Hint; cbn [negb].
    + rewrite buffer_set_header. rewrite buffer_set_buffer. reflexivity.
    + destruct (Hext eq_refl) as [id ->].
      rewrite buffer_set_header. unfold free. rewrite Hstart. cbn [blk buffer heap].
      cbn [set_buffer heap]. rewrite update_other.
      * rewrite update_same. reflexivity.
      * intros Heq. cbn [buffer] in Hbuf. rewrite <- Heq in Hbuf. congruence.
Qed.


(** A [try_append] that reports success has grown the string by one byte,
    whatever the length of [str]. *)
Lemma try_append_size (st st' : state) (this : nat) (str A : list byte) :
  well_formed st this = true ->
  contents st this = Some A ->
  heap st (next_block st) = None ->
  try_append st this str = Some (true, st') ->
  size st' this = size st this + 1.
Proof.
  intros Hwf HA Hfresh. unfold try_append.
  destruct (expand_one st this A Hwf HA Hfresh)
    as [Hfail | (st1 & b & rest & Hexp & Hstart & Hlength & Hbuf)];
    rewrite ?Hfail, ?Hexp; cbn [bind]; [discriminate|].
  unfold store, advance. cbn [blk off]. rewrite Hbuf. cbn [bind].
  match goal with
  | |- bind (if ?t then _ else _) _ = _ -> _ => destruct t; [|discriminate]
  end.
  cbn [bind]. intros [= <-].
  match goal with
  | |- size (set_buffer _ _ ?buf2) _ = _ => generalize buf2
  end.
  intros buf2. destruct (header_set_buffer st1 b buf2 this) as (_ & Hl & _).
  unfold size, view, sz_string_range. cbn [snd]. rewrite Hl, Hlength. reflexivity.
Qed.

End PushBack.

(** C2 (the code departs from the claim).  [try_append] grows the string by
    one byte, whatever the length of the appended view, and then copies the
    whole view: appending "de" to "abc" returns true and leaves a string of
    size 4 holding "abcd"; appending 25 bytes to "abc" writes past the
    inline buffer.  [try_push_back], which grows by one byte and stores one
    byte, appends 'd' to "abc" as claimed. *)
Theorem try_append_grows_by_one :
  (exists st',
      basic_string.try_append examples.short 0 (examples.bytes "de") = Some (true, st')
      /\ basic_string.size st' 0 = 4
      /\ basic_string.contents st' 0 = Some (examples.bytes "abcd")
      /\ basic_string.append examples.short 0 (examples.bytes "de")
         = Some (basic_string.returns st'))
  /\ basic_string.try_append examples.short 0 (repeat "x"%byte 25) = None
  /\ (exists st',
         basic_string.try_push_back examples.short 0 "d"%byte = Some (true, st')
         /\ basic_string.size st' 0 = 4
         /\ basic_string.contents st' 0 = Some (examples.bytes "abcd")).
Proof.
  split; [|split; [reflexivity|]].
  - eexists. split; [reflexivity|]. repeat split.
  - eexists. split; [reflexivity|]. repeat split.
Qed.

(* ------------------------------------------------------------------------- *)
(** ** The forward ranges, for any matcher that locates within bounds *)

(** Bounds of views: unfold the accessors and leave linear arithmetic. *)
Ltac view_arith :=
  unfold valid, string_view.size, string_view.end_, string_view.begin in *;
  cbn [string_view.start_ string_view.length_] in *;
  lia.

Section ForwardRanges.

Context {M : Type} `{matcher M}.
Variable mem : memory.
Variable m : M.

(** A located match lies within the searched region and is not empty. *)
Hypothesis locate_in_range :
  forall r, valid r -> locate mem m r <> string_view.npos ->
            0 <= locate mem m r
            /\ 0 < needle_length m
            /\ locate mem m r + needle_length m <= string_view.length_ r.

(** The scan resumes past the match start and within the match. *)
Hypothesis skip_in_range :
  0 < needle_length m -> 0 < skip_length m <= needle_length m.

(** The end pointer of the haystack. *)
Variable hend : Z.

Local Abbreviation suffix := (suffix_of hend).

Lemma locate_empty (s : Z) : locate mem m (string_view.mk s 0) = string_view.npos.
Proof.
  destruct (Z.eq_dec (locate mem m (string_view.mk s 0)) string_view.npos) as [|Hne];
    [assumption|].
  apply locate_in_range in Hne; [cbn in Hne; lia|].
  unfold valid, sz_size_max. cbn. lia.
Qed.

(** The iterator constructor of [range_matches] on a suffix [r]. *)
Lemma matches_make (r : string_view.t) :
  suffix r ->
  (locate mem m r = string_view.npos
   /\ range_matches.iterator.make mem r m
      = Some (range_matches.iterator.mk m (string_view.mk hend 0)))
  \/ (locate mem m r <> string_view.npos
      /\ range_matches.iterator.make mem r m
         = Some (range_matches.iterator.mk m
                   (string_view.mk (string_view.start_ r + locate mem m r)
                                   (string_view.length_ r - locate mem m r)))).
Proof.
  intros [Hv Hend]. unfold range_matches.iterator.make.
  destruct (Z.eq_dec (locate mem m r) string_view.npos) as [Hn|Hn].
  - left. split; [exact Hn|]. rewrite Hn, found_or_npos.
    rewrite remove_prefix_in_range by view_arith.
    unfold string_view.end_ in Hend. unfold string_view.size. cbn [bind].
    rewrite Hend, Z.sub_diag. reflexivity.
  - right. split; [exact Hn|]. rewrite found_or_found by exact Hn.
    destruct (locate_in_range r Hv Hn) as (Hp & Hl & Hle).
    rewrite remove_prefix_in_range by view_arith.
    reflexivity.
Qed.

(** [operator++] of [range_matches]: drop the skip, then locate and trim as
    the constructor does. *)
Lemma matches_next (r : string_view.t) :
  range_matches.iterator.next mem (range_matches.iterator.mk m r)
  = (r1 <- string_view.remove_prefix r (skip_length m) ;;
     range_matches.iterator.make mem r1 m).
Proof. reflexivity. Qed.

(** The traversal of [range_matches] from the iterator built on a suffix
    [r] of the haystack reports exactly the matches of [r]. *)
Lemma matches_loop (last : range_matches.iterator.t M) :
  string_view.begin (range_matches.iterator.remaining_ last) = hend ->
  forall (fuel : nat) (r : string_view.t),
    suffix r ->
    (Z.to_nat (string_view.length_ r) < fuel)%nat ->
    exists it l,
      range_matches.iterator.make mem r m = Some it
      /\ range_matches.loop mem fuel it last = Some l
      /\ reported mem m r l.
Proof.
  intros Hlast. induction fuel as [|fuel IH]; intros r Hs Hfuel; [lia|].
  pose proof Hs as [Hv Hend].
  destruct (matches_make r Hs) as [[Hn Hmk]|[Hn Hmk]]; rewrite Hmk.
  - eexists. exists []. split; [reflexivity|]. split; [|apply reported_none; exact Hn].
    cbn [range_matches.loop]. unfold range_matches.iterator.neq.
    cbn [range_matches.iterator.remaining_ string_view.begin string_view.start_].
    rewrite Hlast, Z.eqb_refl. reflexivity.
  - destruct (locate_in_range r Hv Hn) as (Hp & Hl & Hle).
    destruct (skip_in_range Hl) as [Hs1 Hs2].
    unfold valid, string_view.end_ in Hv, Hend.
    set (r1 := string_view.mk (string_view.start_ r + locate mem m r + skip_length m)
                 (string_view.length_ r - locate mem m r - skip_length m)).
    assert (Hs' : suffix r1).
    { split; unfold r1, valid, string_view.end_;
        cbn [string_view.start_ string_view.length_]; lia. }
    destruct (IH r1 Hs' ltac:(unfold r1; cbn [string_view.length_]; lia)) as (it' & l' & Hmk' & Hloop' & Hrep').
    eexists. eexists. split; [reflexivity|]. split.
    + cbn [range_matches.loop]. unfold range_matches.iterator.neq.
      cbn [range_matches.iterator.remaining_ string_view.begin string_view.start_].
      rewrite Hlast.
      destruct (Z.eqb_spec (string_view.start_ r + locate mem m r) hend); [lia|].
      cbn [negb].
      rewrite matches_next, remove_prefix_in_range by view_arith.
      cbn [bind string_view.start_ string_view.size string_view.length_].
      fold r1. rewrite Hmk'. cbn [bind]. rewrite Hloop'. cbn [bind]. reflexivity.
    + unfold range_matches.iterator.deref.
      cbn [range_matches.iterator.remaining_ range_matches.iterator.matcher_].
      rewrite substr_in_range by view_arith.
      cbn [string_view.start_ string_view.size string_view.length_].
      rewrite Z.add_0_r, Z.sub_0_r, Z.min_l by lia.
      apply reported_match; assumption.
Qed.

(** Reported matches lie at or after the start of the scanned region, at
    strictly increasing addresses. *)
Lemma reported_increasing (r : string_view.t) (l : list string_view.t) :
  valid r -> reported mem m r l ->
  Forall (fun v => string_view.start_ r <= string_view.begin v) l
  /\ StronglySorted Z.lt (map string_view.begin l).
Proof.
  intros Hv Hrep. induction Hrep as [r Hn | r rest Hn Hrep IH].
  - split; constructor.
  - destruct (locate_in_range r Hv Hn) as (Hp & Hl & Hle).
    destruct (skip_in_range Hl) as [Hs1 Hs2].
    destruct IH as [Hge Hsorted]; [view_arith|].
    cbn [string_view.start_] in Hge.
    split.
    + constructor; [view_arith|].
      eapply Forall_impl; [|exact Hge]. cbn beta. intros v Hv'. lia.
    + cbn [map]. constructor; [exact Hsorted|].
      apply Forall_map. eapply Forall_impl; [|exact Hge].
      cbn beta. intros v Hv'. view_arith.
Qed.

(** The traversal of [range_splits] from the iterator built on a suffix
    [r] of the haystack yields exactly the gaps of [r]. *)
Lemma splits_loop (last : range_splits.iterator.t M) :
  string_view.begin (range_splits.iterator.remaining_ last) = hend ->
  range_splits.iterator.reached_tail_ last = true ->
  forall (fuel : nat) (r : string_view.t),
    suffix r ->
    (S (Z.to_nat (string_view.length_ r)) < fuel)%nat ->
    exists gs,
      range_splits.loop mem fuel (range_splits.iterator.make mem r m) last = Some gs
      /\ gaps_of mem m r gs.
Proof.
  intros Hlast Htail. induction fuel as [|fuel IH]; intros r Hs Hfuel; [lia|].
  pose proof Hs as [Hv Hend]. unfold valid, string_view.end_ in Hv, Hend.
  unfold range_splits.iterator.make.
  destruct (Z.eq_dec (locate mem m r) string_view.npos) as [Hn|Hn].
  - (* no further match: the gap is the rest, then the tail is reached *)
    exists [r]. split; [|apply gaps_last; exact Hn].
    rewrite Hn, found_or_npos.
    cbn [range_splits.loop]. unfold range_splits.iterator.neq at 1.
    cbn [range_splits.iterator.reached_tail_]. rewrite Htail.
    cbn [Bool.eqb negb]. rewrite orb_true_r.
    unfold range_splits.iterator.next, range_splits.iterator.deref.
    cbn [range_splits.iterator.remaining_ range_splits.iterator.matcher_
         range_splits.iterator.length_within_remaining_].
    rewrite remove_prefix_in_range by view_arith.
    unfold string_view.size, string_view.empty.
    cbn [bind string_view.length_ string_view.start_].
    rewrite Z.sub_diag, Z.eqb_refl. cbn [negb]. rewrite Z.mul_0_r.
    change (wrap 0) with 0.
    rewrite remove_prefix_in_range
      by (unfold sz_size_max; view_arith).
    cbn [bind string_view.start_ string_view.size string_view.length_].
    destruct fuel as [|fuel]; [lia|].
    cbn [range_splits.loop]. unfold range_splits.iterator.neq.
    cbn [range_splits.iterator.remaining_ range_splits.iterator.reached_tail_
         string_view.begin string_view.start_].
    rewrite Hlast, Htail.
    replace (string_view.start_ r + string_view.length_ r + 0) with hend by lia.
    rewrite Z.eqb_refl. cbn [negb Bool.eqb orb bind].
    rewrite substr_in_range by view_arith.
    unfold string_view.size. rewrite Z.add_0_r, Z.sub_0_r, Z.min_id.
    destruct r; reflexivity.
  - (* a match at offset [p]: the gap before it, then past the needle *)
    destruct (locate_in_range r Hv Hn) as (Hp & Hl & Hle).
    set (r1 := string_view.mk (string_view.start_ r + locate mem m r + needle_length m)
                 (string_view.length_ r - locate mem m r - needle_length m)).
    assert (Hs' : suffix r1).
    { split; unfold r1, valid, string_view.end_;
        cbn [string_view.start_ string_view.length_]; lia. }
    destruct (IH r1 Hs' ltac:(unfold r1; cbn [string_view.length_]; lia)) as (gs' & Hloop' & Hgaps').
    exists (string_view.mk (string_view.start_ r) (locate mem m r) :: gs').
    split; [|apply gaps_match; assumption].
    rewrite found_or_found by exact Hn.
    cbn [range_splits.loop]. unfold range_splits.iterator.neq at 1.
    cbn [range_splits.iterator.reached_tail_]. rewrite Htail.
    cbn [Bool.eqb negb]. rewrite orb_true_r.
    unfold range_splits.iterator.next, range_splits.iterator.deref.
    cbn [range_splits.iterator.remaining_ range_splits.iterator.matcher_
         range_splits.iterator.length_within_remaining_].
    rewrite remove_prefix_in_range by view_arith.
    unfold string_view.size, string_view.empty.
    cbn [bind string_view.length_ string_view.start_].
    destruct (Z.eqb_spec (string_view.length_ r - locate mem m r) 0); [lia|].
    cbn [negb]. rewrite Z.mul_1_r, wrap_small by lia.
    rewrite remove_prefix_in_range by view_arith.
    cbn [bind string_view.start_ string_view.size string_view.length_].
    unfold range_splits.iterator.make, string_view.size, r1 in Hloop'.
    cbn [string_view.length_] in Hloop'. rewrite Hloop'. cbn [bind].
    rewrite substr_in_range by view_arith.
    unfold string_view.size. rewrite Z.add_0_r, Z.sub_0_r, Z.min_l by lia.
    reflexivity.
Qed.

(** One gap more than non-overlapping matches. *)
Lemma gaps_one_more (r : string_view.t) (gs ms : list string_view.t) :
  skip_length m = needle_length m ->
  gaps_of mem m r gs -> reported mem m r ms ->
  List.length gs = S (List.length ms).
Proof.
  intros Hskip Hgaps. revert ms.
  induction Hgaps as [r Hn | r rest Hn Hgaps IH]; intros ms Hrep.
  - inversion Hrep; subst; [reflexivity | contradiction].
  - inversion Hrep as [|r' rest' Hn' Hrep']; subst; [contradiction|].
    cbn [List.length]. f_equal. apply IH. rewrite <- Hskip. exact Hrep'.
Qed.

Lemma gaps_nonempty (r : string_view.t) (gs : list string_view.t) :
  gaps_of mem m r gs -> gs <> [].
Proof. intros Hg. destruct Hg; discriminate. Qed.

(** The full traversal of the match range over the haystack [h]. *)
Lemma matches_to (h : string_view.t) :
  valid h -> string_view.end_ h = hend ->
  exists l,
    range_matches.to mem (range_matches.mk h m) = Some l
    /\ reported mem m h l.
Proof.
  intros Hv Hend. unfold range_matches.to, range_matches.begin, range_matches.end_.
  cbn [range_matches.haystack_ range_matches.matcher_].
  assert (Hse : suffix (string_view.mk (string_view.end_ h) 0)).
  { split; [unfold valid, sz_size_max; cbn; lia|].
    unfold string_view.end_ in *. cbn [string_view.start_ string_view.length_]. lia. }
  destruct (matches_make _ Hse) as [[_ Hmk]|[Hn _]];
    [|exfalso; apply Hn; apply locate_empty].
  destruct (matches_loop (range_matches.iterator.mk m (string_view.mk hend 0)) eq_refl
              (S (Z.to_nat (string_view.size h))) h (conj Hv Hend)
              ltac:(unfold string_view.size; lia))
    as (it & l & Hb & Hloop & Hrep).
  exists l. split; [|exact Hrep].
  rewrite Hb, Hmk. cbn [bind]. exact Hloop.
Qed.

(** The full traversal of the split range over the haystack [h]. *)
Lemma splits_to (h : string_view.t) :
  valid h -> string_view.end_ h = hend ->
  exists gs,
    range_splits.to mem (range_splits.mk h m) = Some gs
    /\ gaps_of mem m h gs.
Proof.
  intros Hv Hend. unfold range_splits.to, range_splits.begin, range_splits.end_.
  cbn [range_splits.haystack_ range_splits.matcher_].
  apply splits_loop.
  - cbn. exact Hend.
  - reflexivity.
  - split; assumption.
  - unfold string_view.size. lia.
Qed.

End ForwardRanges.

(* ------------------------------------------------------------------------- *)
(** ** The substring matcher [matcher_find] *)

Lemma matcher_find_locate (mem : memory) (D : string_view.t) (overlap : bool)
      (r : string_view.t) :
  locate mem (matcher_find.make D overlap) r = string_view.find mem r D.
Proof. reflexivity. Qed.

Lemma matcher_find_needle_length (D : string_view.t) (overlap : bool) :
  needle_length (matcher_find.make D overlap) = string_view.length_ D.
Proof. reflexivity. Qed.

Lemma matcher_find_in_range (mem : memory) (D : string_view.t) (overlap : bool) :
  valid D ->
  forall r, valid r ->
            locate mem (matcher_find.make D overlap) r <> string_view.npos ->
            0 <= locate mem (matcher_find.make D overlap) r
            /\ 0 < needle_length (matcher_find.make D overlap)
            /\ locate mem (matcher_find.make D overlap) r
               + needle_length (matcher_find.make D overlap)
               <= string_view.length_ r.
Proof.
  intros HD r Hr Hn. rewrite matcher_find_locate, matcher_find_needle_length in *.
  destruct (find_found mem r D Hr HD Hn) as (Hp & Hl & Hle & _).
  auto.
Qed.

Lemma matcher_find_skip (D : string_view.t) (overlap : bool) :
  0 < needle_length (matcher_find.make D overlap) ->
  0 < skip_length (matcher_find.make D overlap)
      <= needle_length (matcher_find.make D overlap).
Proof. cbn. unfold string_view.length. destruct overlap; cbn; lia. Qed.

Lemma matcher_find_skip_whole (D : string_view.t) :
  skip_length (matcher_find.make D false) = needle_length (matcher_find.make D false).
Proof. reflexivity. Qed.

(** Every reported match is an occurrence of the needle. *)
Lemma reported_occurrences (mem : memory) (D : string_view.t) (overlap : bool)
      (r : string_view.t) (l : list string_view.t) :
  valid D -> valid r ->
  reported mem (matcher_find.make D overlap) r l ->
  Forall (fun v => string_view.to_list mem v = string_view.to_list mem D) l.
Proof.
  intros HD Hr Hrep. induction Hrep as [r Hn | r rest Hn Hrep IH]; constructor.
  - rewrite matcher_find_locate, matcher_find_needle_length in *.
    destruct (find_found mem r D Hr HD Hn) as (_ & _ & _ & Heq & _).
    rewrite (sz_equal_to_list _ _ _ _ Heq). destruct D; reflexivity.
  - apply IH.
    destruct (matcher_find_in_range mem D overlap HD r Hr Hn) as (Hp & Hl & Hle).
    pose proof (matcher_find_skip D overlap Hl). view_arith.
Qed.

(** The gaps do not depend on the overlap policy of the matcher. *)
Lemma gaps_of_any_overlap (mem : memory) (D : string_view.t) (a b : bool)
      (r : string_view.t) (gs : list string_view.t) :
  gaps_of mem (matcher_find.make D a) r gs -> gaps_of mem (matcher_find.make D b) r gs.
Proof.
  intros Hg. induction Hg as [r Hn | r rest Hn Hg IH].
  - apply gaps_last. exact Hn.
  - change (locate mem (matcher_find.make D a) r)
      with (locate mem (matcher_find.make D b) r) in *.
    change (needle_length (matcher_find.make D a))
      with (needle_length (matcher_find.make D b)) in *.
    apply gaps_match; [exact Hn | exact IH].
Qed.

Lemma join_cons (d g g' : list byte) (l : list (list byte)) :
  join d (g :: g' :: l) = g ++ d ++ join d (g' :: l).
Proof. reflexivity. Qed.

(** The gaps of a region, joined by the needle, are the region. *)
Lemma gaps_join (mem : memory) (D : string_view.t) (overlap : bool)
      (r : string_view.t) (gs : list string_view.t) :
  valid D -> valid r ->
  gaps_of mem (matcher_find.make D overlap) r gs ->
  join (string_view.to_list mem D) (map (string_view.to_list mem) gs)
  = string_view.to_list mem r.
Proof.
  intros HD Hr Hg. induction Hg as [r Hn | r rest Hn Hg IH].
  - reflexivity.
  - pose proof (gaps_nonempty mem _ _ _ Hg) as Hne.
    destruct (matcher_find_in_range mem D overlap HD r Hr Hn) as (Hp & Hl & Hle).
    rewrite matcher_find_locate, matcher_find_needle_length in *.
    destruct (find_found mem r D Hr HD Hn) as (_ & _ & _ & Heq & _).
    specialize (IH ltac:(view_arith)).
    destruct rest as [|g rest]; [contradiction|].
    cbn [map] in IH |- *. rewrite join_cons, IH.
    replace (string_view.to_list mem D)
      with (string_view.to_list mem
              (string_view.mk (string_view.start_ r + string_view.find mem r D)
                              (string_view.length_ D)))
      by (rewrite (sz_equal_to_list _ _ _ _ Heq); destruct D; reflexivity).
    rewrite <- !to_list_app by view_arith.
    destruct r as [s len]. cbn [string_view.start_ string_view.length_] in *.
    f_equal. f_equal. lia.
Qed.

Lemma sorted_offsets (h : string_view.t) (l : list string_view.t) :
  StronglySorted Z.lt (map string_view.begin l) ->
  StronglySorted Z.lt (offsets_in h l).
Proof.
  unfold offsets_in. induction l as [|v l IH]; cbn [map]; intros Hs; [constructor|].
  inversion Hs as [|x xs Hs' Hall]; subst. constructor; [apply IH; exact Hs'|].
  apply <- Forall_map. apply -> Forall_map in Hall.
  eapply Forall_impl; [|exact Hall]. cbn beta. intros w Hw. lia.
Qed.

(* ------------------------------------------------------------------------- *)
(** ** Claims about the forward ranges *)

(** The free function [find_all(h, n, interleaving)] does not pass its flag
    on: it is the member [h.find_all(n, true)] whatever the flag. *)
Lemma free_find_all_allows_overlaps (h n : string_view.t) (interleaving : bool) :
  free_functions.find_all h n interleaving = string_view_ranges.find_all h n true.
Proof. reflexivity. Qed.

(** C5.  Forward [find_all] with a substring needle reports its matches at
    strictly increasing offsets; each match is an occurrence of the needle
    at the first located offset of the region that starts [skip_length]
    bytes past the previous match start, where [skip_length] is 1 when
    overlaps are allowed and the needle length when they are not.  On "aaaa"
    with needle "aa" the offsets are [0,1,2] with overlaps and [0,2]
    without. *)
Theorem find_all_advances_by_skip :
  (forall (mem : memory) (H D : string_view.t) (overlap : bool),
      valid H -> valid D ->
      exists l,
        range_matches.to mem (string_view_ranges.find_all H D overlap) = Some l
        /\ reported mem (matcher_find.make D overlap) H l
        /\ skip_length (matcher_find.make D overlap)
           = (if overlap then 1 else string_view.length D)
        /\ StronglySorted Z.lt (offsets_in H l)
        /\ Forall (fun v => string_view.to_list mem v = string_view.to_list mem D) l)
  /\ option_map (offsets_in examples.aaaa)
       (range_matches.to examples.mem_aaaa
          (string_view_ranges.find_all examples.aaaa examples.aa true))
     = Some [0; 1; 2]
  /\ option_map (offsets_in examples.aaaa)
       (range_matches.to examples.mem_aaaa
          (string_view_ranges.find_all examples.aaaa examples.aa false))
     = Some [0; 2].
Proof.
  split; [|split; reflexivity].
  intros mem H D overlap HH HD. unfold string_view_ranges.find_all.
  destruct (matches_to mem (matcher_find.make D overlap)
              (matcher_find_in_range mem D overlap HD)
              (matcher_find_skip D overlap)
              (string_view.end_ H) H HH eq_refl) as (l & Hto & Hrep).
  exists l. split; [exact Hto|]. split; [exact Hrep|]. split; [reflexivity|]. split.
  - apply sorted_offsets.
    apply (reported_increasing mem (matcher_find.make D overlap)
             (matcher_find_in_range mem D overlap HD)
             (matcher_find_skip D overlap) H l HH Hrep).
  - apply (reported_occurrences mem D overlap H l HD HH Hrep).
Qed.

Lemma find_all_advances_by_skip_witness :
  exists l,
    range_matches.to examples.mem_aaaa
      (string_view_ranges.find_all examples.aaaa examples.aa false) = Some l
    /\ reported examples.mem_aaaa (matcher_find.make examples.aa false) examples.aaaa l
    /\ skip_length (matcher_find.make examples.aa false) = string_view.length examples.aa
    /\ StronglySorted Z.lt (offsets_in examples.aaaa l)
    /\ Forall (fun v => string_view.to_list examples.mem_aaaa v
                        = string_view.to_list examples.mem_aaaa examples.aa) l.
Proof.
  exact (proj1 find_all_advances_by_skip examples.mem_aaaa examples.aaaa examples.aa false
           ltac:(unfold valid; cbn; lia) ltac:(unfold valid; cbn; lia)).
Defined.

(** C6.  The forward split range over a haystack [H] with delimiter [D] is
    never empty and yields exactly [N + 1] gaps, [N] being the number of
    non-overlapping matches of [D] in [H] in scan order, which are the
    matches [find_all] reports when overlaps are not allowed; the empty
    haystack yields exactly one element, the empty slice, and "a," split by
    "," yields exactly two elements, "a" and then the empty slice. *)
Theorem split_yields_one_more_than_matches :
  (forall (mem : memory) (H D : string_view.t),
      valid H -> valid D ->
      exists gs ms,
        range_splits.to mem (string_view_ranges.split H D) = Some gs
        /\ range_matches.to mem (string_view_ranges.find_all H D false) = Some ms
        /\ reported mem (matcher_find.make D false) H ms
        /\ List.length gs = S (List.length ms)
        /\ gs <> []
        /\ range_splits.empty (string_view_ranges.split H D) = false)
  /\ range_splits.to examples.mem_trailing
       (string_view_ranges.split examples.nothing examples.comma')
     = Some [examples.nothing]
  /\ option_map (map (string_view.to_list examples.mem_trailing))
       (range_splits.to examples.mem_trailing
          (string_view_ranges.split examples.a_comma examples.comma'))
     = Some [examples.bytes "a"; []].
Proof.
  split; [|split; reflexivity].
  intros mem H D HH HD. unfold string_view_ranges.split, string_view_ranges.find_all.
  destruct (splits_to mem (matcher_find.make D true)
              (matcher_find_in_range mem D true HD)
              (matcher_find_skip D true)
              (string_view.end_ H) H HH eq_refl) as (gs & Hgs & Hgaps).
  destruct (matches_to mem (matcher_find.make D false)
              (matcher_find_in_range mem D false HD)
              (matcher_find_skip D false)
              (string_view.end_ H) H HH eq_refl) as (ms & Hms & Hrep).
  exists gs, ms. split; [exact Hgs|]. split; [exact Hms|]. split; [exact Hrep|].
  split; [|split].
  - apply (gaps_one_more mem (matcher_find.make D false) H gs ms
             (matcher_find_skip_whole D));
      [apply (gaps_of_any_overlap mem D true false); exact Hgaps | exact Hrep].
  - apply (gaps_nonempty mem _ _ _ Hgaps).
  - reflexivity.
Qed.

Lemma split_yields_one_more_than_matches_witness :
  exists gs ms,
    range_splits.to examples.mem_csv
      (string_view_ranges.split examples.a_b_c examples.comma) = Some gs
    /\ range_matches.to examples.mem_csv
         (string_view_ranges.find_all examples.a_b_c examples.comma false) = Some ms
    /\ reported examples.mem_csv (matcher_find.make examples.comma false) examples.a_b_c ms
    /\ List.length gs = S (List.length ms)
    /\ gs <> []
    /\ range_splits.empty (string_view_ranges.split examples.a_b_c examples.comma) = false.
Proof.
  exact (proj1 split_yields_one_more_than_matches examples.mem_csv examples.a_b_c
           examples.comma ltac:(unfold valid; cbn; lia) ltac:(unfold valid; cbn; lia)).
Defined.

(** C7.  Concatenating the gaps that [H.split(D)] yields, in order, with one
    copy of [D] between consecutive gaps, gives [H] byte for byte; when [D]
    has no match in [H] the single gap is [H] itself, and when it has one
    there are at least two gaps. *)
Theorem split_complement_law (mem : memory) (H D : string_view.t) :
  valid H -> valid D ->
  exists gs,
    range_splits.to mem (string_view_ranges.split H D) = Some gs
    /\ join (string_view.to_list mem D) (map (string_view.to_list mem) gs)
       = string_view.to_list mem H
    /\ (string_view.find mem H D = string_view.npos -> gs = [H])
    /\ (string_view.find mem H D <> string_view.npos -> (2 <= List.length gs)%nat).
Proof.
  intros HH HD. unfold string_view_ranges.split.
  destruct (splits_to mem (matcher_find.make D true)
              (matcher_find_in_range mem D true HD)
              (matcher_find_skip D true)
              (string_view.end_ H) H HH eq_refl) as (gs & Hgs & Hgaps).
  exists gs. split; [exact Hgs|]. split; [|split].
  - apply (gaps_join mem D true H gs HD HH Hgaps).
  - intros Hn. inversion Hgaps as [r Hn' | r rest Hn' Hrest]; subst;
      [reflexivity | contradiction].
  - intros Hn. inversion Hgaps as [r Hn' | r rest Hn' Hrest]; subst;
      [contradiction|].
    pose proof (gaps_nonempty mem _ _ _ Hrest) as Hne.
    destruct rest; [contradiction | cbn; lia].
Qed.

Lemma split_complement_law_witness :
  exists gs,
    range_splits.to examples.mem_csv
      (string_view_ranges.split examples.a_b_c examples.comma) = Some gs
    /\ join (string_view.to_list examples.mem_csv examples.comma)
            (map (string_view.to_list examples.mem_csv) gs)
       = string_view.to_list examples.mem_csv examples.a_b_c
    /\ (string_view.find examples.mem_csv examples.a_b_c examples.comma = string_view.npos
        -> gs = [examples.a_b_c])
    /\ (string_view.find examples.mem_csv examples.a_b_c examples.comma <> string_view.npos
        -> (2 <= List.length gs)%nat).
Proof.
  exact (split_complement_law examples.mem_csv examples.a_b_c examples.comma
           ltac:(unfold valid; cbn; lia) ltac:(unfold valid; cbn; lia)).
Defined.

(* ------------------------------------------------------------------------- *)
(** ** [character_set] membership and the searches of [string_view] *)

Lemma mask_test (w i : Z) :
  0 <= i -> (Z.land w (Z.shiftl 1 i) =? 0) = negb (Z.testbit w i).
Proof.
  intros Hi. rewrite Z.shiftl_1_l.
  destruct (Z.testbit w i) eqn:Hb; cbn [negb].
  - apply Z.eqb_neq. intros H0.
    assert (Hbit : Z.testbit (Z.land w (2 ^ i)) i = true)
      by (rewrite Z.land_spec, Hb, Z.pow2_bits_true by exact Hi; reflexivity).
    rewrite H0, Z.bits_0 in Hbit. discriminate.
  - apply Z.eqb_eq. apply Z.bits_inj_0. intros n.
    rewrite Z.land_spec.
    destruct (Z.eq_dec i n) as [<-|Hne].
    + rewrite Hb. reflexivity.
    + rewrite (Z.pow2_bits_false i n Hne). apply andb_false_r.
Qed.

Lemma byte_word_range (c : byte) : 0 <= Z.shiftr (byte_val c) 6 <= 3.
Proof. destruct c; vm_compute; split; discriminate. Qed.

Lemma byte_bit_range (c : byte) : 0 <= Z.land (byte_val c) 63 <= 63.
Proof. destruct c; vm_compute; split; discriminate. Qed.

Lemma byte_val_split (c : byte) :
  byte_val c = 64 * Z.shiftr (byte_val c) 6 + Z.land (byte_val c) 63.
Proof. destruct c; reflexivity. Qed.

Lemma byte_val_inj (c d : byte) : byte_val c = byte_val d -> c = d.
Proof.
  unfold byte_val. intros H. apply N2Z.inj in H.
  pose proof (Byte.of_to_N c) as Hc. rewrite H, Byte.of_to_N in Hc. congruence.
Qed.

Lemma contains_testbit (s : character_set.t) (c : byte) :
  character_set.contains s c
  = Z.testbit (u64s (character_set.bitset_ s) (Z.shiftr (byte_val c) 6))
              (Z.land (byte_val c) 63).
Proof.
  unfold character_set.contains, sz_u8_set_contains.
  rewrite mask_test by apply byte_bit_range. apply negb_involutive.
Qed.

Lemma u64s_or_same (s : sz_u8_set_t) (i m : Z) :
  0 <= i <= 3 -> u64s (u64s_or s i m) i = Z.lor (u64s s i) m.
Proof.
  intros Hi. unfold u64s, u64s_or.
  destruct (Z.eqb_spec i 0); [reflexivity|].
  destruct (Z.eqb_spec i 1); [reflexivity|].
  destruct (Z.eqb_spec i 2); reflexivity.
Qed.

Lemma u64s_or_other (s : sz_u8_set_t) (i j m : Z) :
  0 <= i <= 3 -> 0 <= j <= 3 -> i <> j -> u64s (u64s_or s i m) j = u64s s j.
Proof.
  intros Hi Hj Hne. unfold u64s, u64s_or.
  destruct (Z.eqb_spec i 0), (Z.eqb_spec i 1), (Z.eqb_spec i 2),
    (Z.eqb_spec j 0), (Z.eqb_spec j 1), (Z.eqb_spec j 2);
    try lia; cbn [u64s0 u64s1 u64s2 u64s3]; reflexivity.
Qed.

Lemma contains_add (s : character_set.t) (c d : byte) :
  character_set.contains (character_set.add s c) d
  = Byte.eqb c d || character_set.contains s d.
Proof.
  rewrite !contains_testbit. unfold character_set.add, sz_u8_set_add.
  cbn [character_set.bitset_].
  pose proof (byte_word_range c) as Hwc. pose proof (byte_word_range d) as Hwd.
  pose proof (byte_bit_range c) as Hbc. pose proof (byte_bit_range d) as Hbd.
  destruct (Z.eq_dec (Z.shiftr (byte_val c) 6) (Z.shiftr (byte_val d) 6)) as [Hw|Hw].
  - rewrite <- Hw, u64s_or_same by exact Hwc.
    rewrite Z.lor_spec, Z.shiftl_1_l, Z.pow2_bits_eqb by lia.
    rewrite orb_comm. f_equal.
    destruct (Z.eqb_spec (Z.land (byte_val c) 63) (Z.land (byte_val d) 63)) as [Hb|Hb].
    + symmetry. apply byte_dec_lb. apply byte_val_inj.
      rewrite (byte_val_split c), (byte_val_split d). lia.
    + destruct (Byte.eqb c d) eqn:He; [|reflexivity].
      apply byte_dec_bl in He. subst d. contradiction.
  - rewrite u64s_or_other by assumption.
    destruct (Byte.eqb c d) eqn:He; [|reflexivity].
    apply byte_dec_bl in He. subst d. contradiction.
Qed.

Lemma contains_inverted (s : character_set.t) (c : byte) :
  character_set.contains (character_set.inverted s) c
  = negb (character_set.contains s c).
Proof.
  rewrite !contains_testbit. unfold character_set.inverted, sz_u8_set_invert.
  cbn [character_set.bitset_].
  pose proof (byte_word_range c) as Hw. pose proof (byte_bit_range c) as Hb.
  assert (Hones : Z.testbit sz_size_max (Z.land (byte_val c) 63) = true).
  { change sz_size_max with (Z.ones 64). apply Z.ones_spec_low. lia. }
  unfold u64s.
  destruct (Z.shiftr (byte_val c) 6 =? 0), (Z.shiftr (byte_val c) 6 =? 1),
    (Z.shiftr (byte_val c) 6 =? 2); cbn [u64s0 u64s1 u64s2 u64s3];
    rewrite Z.lxor_spec, Hones; apply xorb_true_r.
Qed.

Lemma contains_empty (c : byte) : character_set.contains character_set.empty c = false.
Proof.
  rewrite contains_testbit. cbn [character_set.bitset_ character_set.empty].
  unfold u64s.
  destruct (Z.shiftr (byte_val c) 6 =? 0), (Z.shiftr (byte_val c) 6 =? 1),
    (Z.shiftr (byte_val c) 6 =? 2); cbn [u64s0 u64s1 u64s2 u64s3]; apply Z.bits_0.
Qed.

Lemma lxor_twice (w : Z) : Z.lxor (Z.lxor w sz_size_max) sz_size_max = w.
Proof. rewrite Z.lxor_assoc, Z.lxor_nilpotent, Z.lxor_0_r. reflexivity. Qed.

(** X1.  [character_set::add], [inverted] and [contains]: after [add(c)] the
    set contains exactly [c] and what it contained before; [inverted()]
    contains exactly the bytes the set does not contain, and inverting twice
    gives the set back; the default-constructed set contains no byte. *)
Theorem add_and_inverted_membership :
  (forall (s : character_set.t) (c d : byte),
      character_set.contains (character_set.add s c) d = true
      <-> d = c \/ character_set.contains s d = true)
  /\ (forall (s : character_set.t) (c : byte),
         character_set.contains (character_set.inverted s) c = true
         <-> character_set.contains s c = false)
  /\ (forall s : character_set.t, character_set.inverted (character_set.inverted s) = s)
  /\ (forall c : byte, character_set.contains character_set.empty c = false).
Proof.
  split; [|split; [|split]].
  - intros s c d. rewrite contains_add, orb_true_iff. split; intros [Hc|Hs]; auto.
    + left. apply byte_dec_bl in Hc. congruence.
    + left. subst d. apply byte_dec_lb. reflexivity.
  - intros s c. rewrite contains_inverted. apply negb_true_iff.
  - intros [[w0 w1 w2 w3]]. unfold character_set.inverted, sz_u8_set_invert.
    cbn [character_set.bitset_ u64s0 u64s1 u64s2 u64s3].
    rewrite !lxor_twice. reflexivity.
  - apply contains_empty.
Qed.

Lemma add_and_inverted_membership_witness :
  character_set.contains examples.blank " "%byte = true
  /\ character_set.contains (character_set.inverted examples.blank) "a"%byte = true.
Proof.
  split.
  - exact (proj2 (proj1 add_and_inverted_membership character_set.empty " "%byte " "%byte)
             (or_introl eq_refl)).
  - exact (proj2 (proj1 (proj2 add_and_inverted_membership) examples.blank "a"%byte)
             eq_refl).
Defined.

Lemma contains_fold_add (l : list byte) (s : character_set.t) (c : byte) :
  character_set.contains (fold_left character_set.add l s) c = true
  <-> In c l \/ character_set.contains s c = true.
Proof.
  revert s. induction l as [|a l IH]; intros s; cbn [fold_left In].
  - tauto.
  - rewrite IH, contains_add, orb_true_iff. split.
    + intros [H|[H|H]]; auto. apply byte_dec_bl in H. auto.
    + intros [[H|H]|H]; auto. subst a. right. left. apply byte_dec_lb. reflexivity.
Qed.

(** The array constructor sets the bit of every element but the last. *)
Lemma of_array_members (chars : list byte) (c : byte) :
  character_set.contains (character_set.of_array chars) c = true
  <-> In c (removelast chars).
Proof.
  change (character_set.of_array chars)
    with (fold_left character_set.add (firstn (List.length chars - 1) chars)
            character_set.empty).
  rewrite contains_fold_add, contains_empty, removelast_firstn_len, Nat.sub_1_r.
  split; [intros [H|H]; [exact H | discriminate] | auto].
Qed.

(** X2.  The constructor of [character_set] from an array of [char] puts
    into the set every element of the array except the last one, whatever
    the last one is: its loop stops at [count_characters - 1].  The elements
    are ASCII, for which [char] is not negative on any platform. *)
Theorem of_array_skips_last_element (chars : list byte) (c : byte) :
  Forall (fun x => byte_val x < 128) chars ->
  (character_set.contains (character_set.of_array chars) c = true
   <-> In c (removelast chars)).
Proof.
  intros _. apply of_array_members.
Qed.

Lemma of_array_skips_last_element_witness :
  character_set.contains (character_set.of_array digits) "9"%byte = true
  <-> In "9"%byte (removelast digits).
Proof.
  exact (of_array_skips_last_element digits "9"%byte
           ltac:(repeat constructor)).
Defined.

Lemma digits_set_members (c : byte) :
  character_set.contains digits_set c = true
  <-> In c (list_byte_of_string "012345678").
Proof. unfold digits_set. rewrite of_array_members. reflexivity. Qed.

(** X3.  [string_view::as_set]: the set contains a byte if and only if the
    byte occurs in the view. *)
Theorem as_set_members (mem : memory) (v : string_view.t) (c : byte) :
  character_set.contains (string_view.as_set mem v) c = true
  <-> In c (string_view.to_list mem v).
Proof.
  unfold string_view.as_set. rewrite contains_fold_add, contains_empty.
  split; [intros [H|H]; [exact H | discriminate] | auto].
Qed.

Lemma as_set_members_witness :
  character_set.contains (string_view.as_set examples.mem_abc examples.abc) "b"%byte = true.
Proof.
  exact (proj2 (as_set_members examples.mem_abc examples.abc "b"%byte)
           ltac:(vm_compute; auto 10)).
Defined.

Lemma sz_equal_iff (mem : memory) (a b n : Z) :
  sz_equal mem a b n = true
  <-> string_view.to_list mem (string_view.mk a n)
      = string_view.to_list mem (string_view.mk b n).
Proof.
  split; [apply sz_equal_to_list|].
  unfold sz_equal, string_view.to_list. cbn [string_view.start_ string_view.length_].
  intros H. apply forallb_forall. intros i Hi. apply byte_dec_lb.
  exact (ext_in_map H i Hi).
Qed.

Lemma view_eta (v : string_view.t) :
  string_view.mk (string_view.start_ v) (string_view.length_ v) = v.
Proof. destruct v; reflexivity. Qed.

Lemma to_list_length_Z (mem : memory) (v : string_view.t) :
  valid v -> Z.of_nat (List.length (string_view.to_list mem v)) = string_view.length_ v.
Proof. intros Hv. rewrite to_list_length. unfold valid in Hv. lia. Qed.

(** X5.  [string_view::operator==]: two views are equal if and only if
    they denote the same byte sequence, wherever they point. *)
Theorem eqb_compares_bytes (mem : memory) (v other : string_view.t) :
  valid v -> valid other ->
  (string_view.eqb mem v other = true
   <-> string_view.to_list mem v = string_view.to_list mem other).
Proof.
  intros Hv Ho. unfold string_view.eqb. rewrite andb_true_iff, Z.eqb_eq, sz_equal_iff.
  split.
  - intros [Hlen Heq]. rewrite <- (view_eta v), Hlen, Heq, view_eta. reflexivity.
  - intros Heq.
    assert (Hlen : string_view.length_ v = string_view.length_ other).
    { rewrite <- (to_list_length_Z mem v Hv), <- (to_list_length_Z mem other Ho), Heq.
      reflexivity. }
    split; [exact Hlen|]. rewrite <- Hlen at 1. rewrite !view_eta. exact Heq.
Qed.

Lemma eqb_compares_bytes_witness :
  string_view.eqb examples.mem_abc (string_view.mk 16 3) examples.abc = true
  <-> string_view.to_list examples.mem_abc (string_view.mk 16 3)
      = string_view.to_list examples.mem_abc examples.abc.
Proof.
  exact (eqb_compares_bytes examples.mem_abc (string_view.mk 16 3) examples.abc
           ltac:(unfold valid; cbn; lia) ltac:(unfold valid; cbn; lia)).
Defined.

(** X6.  [starts_with(other)] holds if and only if the bytes of the view
    are those of [other] followed by some rest; then [remove_prefix(other)]
    is that rest, and when [starts_with] fails [remove_prefix(other)] is the
    view unchanged. *)
Theorem starts_with_prefix (mem : memory) (v other : string_view.t) :
  valid v -> valid other ->
  (string_view.starts_with mem v other = true
   <-> exists rest, string_view.to_list mem v = string_view.to_list mem other ++ rest)
  /\ (string_view.starts_with mem v other = true ->
      string_view.to_list mem v
      = string_view.to_list mem other
        ++ string_view.to_list mem (string_view.remove_prefix_view mem v other))
  /\ (string_view.starts_with mem v other = false ->
      string_view.remove_prefix_view mem v other = v).
Proof.
  intros Hv Ho.
  assert (Hcut : string_view.starts_with mem v other = true ->
                 string_view.length_ other <= string_view.length_ v
                 /\ string_view.to_list mem v
                    = string_view.to_list mem other
                      ++ string_view.to_list mem
                           (string_view.mk (string_view.start_ v + string_view.length_ other)
                              (string_view.length_ v - string_view.length_ other))).
  { unfold string_view.starts_with. rewrite andb_true_iff, Z.leb_le, sz_equal_iff.
    intros [Hle Heq]. split; [exact Hle|].
    rewrite view_eta in Heq. rewrite <- Heq.
    rewrite <- to_list_app by (unfold valid in *; lia).
    rewrite <- (view_eta v) at 1. do 2 f_equal. lia. }
  split; [split|split].
  - intros Hs. destruct (Hcut Hs) as [_ Heq]. eexists. exact Heq.
  - intros [rest Heq]. unfold string_view.starts_with.
    assert (Hle : string_view.length_ other <= string_view.length_ v).
    { rewrite <- (to_list_length_Z mem v Hv), <- (to_list_length_Z mem other Ho), Heq.
      rewrite length_app. lia. }
    rewrite andb_true_iff, Z.leb_le, sz_equal_iff. split; [exact Hle|].
    rewrite view_eta.
    assert (Hsplit : string_view.to_list mem v
                     = string_view.to_list mem
                         (string_view.mk (string_view.start_ v) (string_view.length_ other))
                       ++ string_view.to_list mem
                            (string_view.mk (string_view.start_ v + string_view.length_ other)
                               (string_view.length_ v - string_view.length_ other))).
    { rewrite <- to_list_app by (unfold valid in *; lia).
      rewrite <- (view_eta v) at 1. do 2 f_equal. lia. }
    transitivity (firstn (Z.to_nat (string_view.length_ other)) (string_view.to_list mem v)).
    + rewrite Hsplit. symmetry. apply firstn_exact'. rewrite to_list_length. reflexivity.
    + rewrite Heq. apply firstn_exact'. rewrite to_list_length. reflexivity.
  - intros Hs. destruct (Hcut Hs) as [Hle Heq].
    unfold string_view.remove_prefix_view. rewrite Hs.
    rewrite wrap_small by (unfold valid in *; lia). exact Heq.
  - intros Hs. unfold string_view.remove_prefix_view. rewrite Hs. reflexivity.
Qed.

Lemma starts_with_prefix_witness :
  string_view.to_list examples.mem_abc examples.abcabc
  = string_view.to_list examples.mem_abc examples.ab
    ++ string_view.to_list examples.mem_abc
         (string_view.remove_prefix_view examples.mem_abc examples.abcabc examples.ab).
Proof.
  exact (proj1 (proj2 (starts_with_prefix examples.mem_abc examples.abcabc examples.ab
                         ltac:(unfold valid; cbn; lia) ltac:(unfold valid; cbn; lia)))
           ltac:(vm_compute; reflexivity)).
Defined.

Lemma app_same_tail {A : Type} (l1 l2 r1 r2 : list A) :
  l1 ++ r1 = l2 ++ r2 -> List.length r1 = List.length r2 -> r1 = r2.
Proof.
  intros Heq Hlen. apply (f_equal (@rev A)) in Heq. rewrite !rev_app_distr in Heq.
  apply (f_equal (firstn (List.length (rev r1)))) in Heq.
  rewrite firstn_exact in Heq.
  rewrite (firstn_exact' _ (rev r2)) in Heq by (rewrite !length_rev; exact Hlen).
  apply (f_equal (@rev A)) in Heq. rewrite !rev_involutive in Heq. exact Heq.
Qed.

(** X7.  [ends_with(other)] holds if and only if the bytes of the view are
    some front followed by those of [other]; then [remove_suffix(other)] is
    that front, and when [ends_with] fails [remove_suffix(other)] is the
    view unchanged. *)
Theorem ends_with_suffix (mem : memory) (v other : string_view.t) :
  valid v -> valid other ->
  (string_view.ends_with mem v other = true
   <-> exists front, string_view.to_list mem v = front ++ string_view.to_list mem other)
  /\ (string_view.ends_with mem v other = true ->
      string_view.to_list mem v
      = string_view.to_list mem (string_view.remove_suffix_view mem v other)
        ++ string_view.to_list mem other)
  /\ (string_view.ends_with mem v other = false ->
      string_view.remove_suffix_view mem v other = v).
Proof.
  intros Hv Ho.
  assert (Hsplit : string_view.length_ other <= string_view.length_ v ->
                   string_view.to_list mem v
                   = string_view.to_list mem
                       (string_view.mk (string_view.start_ v)
                          (string_view.length_ v - string_view.length_ other))
                     ++ string_view.to_list mem
                          (string_view.mk
                             (string_view.start_ v + string_view.length_ v
                              - string_view.length_ other)
                             (string_view.length_ other))).
  { intros Hle.
    replace (string_view.start_ v + string_view.length_ v - string_view.length_ other)
      with (string_view.start_ v + (string_view.length_ v - string_view.length_ other))
      by lia.
    rewrite <- to_list_app by (unfold valid in *; lia).
    rewrite <- (view_eta v) at 1. do 2 f_equal. lia. }
  assert (Hcut : string_view.ends_with mem v other = true ->
                 string_view.length_ other <= string_view.length_ v
                 /\ string_view.to_list mem v
                    = string_view.to_list mem
                        (string_view.mk (string_view.start_ v)
                           (string_view.length_ v - string_view.length_ other))
                      ++ string_view.to_list mem other).
  { unfold string_view.ends_with. rewrite andb_true_iff, Z.leb_le, sz_equal_iff.
    intros [Hle Heq]. split; [exact Hle|].
    rewrite view_eta in Heq. rewrite <- Heq. apply Hsplit. exact Hle. }
  split; [split|split].
  - intros Hs. destruct (Hcut Hs) as [_ Heq]. eexists. exact Heq.
  - intros [front Heq]. unfold string_view.ends_with.
    assert (Hle : string_view.length_ other <= string_view.length_ v).
    { rewrite <- (to_list_length_Z mem v Hv), <- (to_list_length_Z mem other Ho), Heq.
      rewrite length_app. lia. }
    rewrite andb_true_iff, Z.leb_le, sz_equal_iff. split; [exact Hle|].
    rewrite view_eta. rewrite (Hsplit Hle) in Heq.
    apply app_same_tail in Heq; [exact Heq|].
    rewrite !to_list_length. reflexivity.
  - intros Hs. destruct (Hcut Hs) as [Hle Heq].
    unfold string_view.remove_suffix_view. rewrite Hs.
    rewrite wrap_small by (unfold valid in *; lia). exact Heq.
  - intros Hs. unfold string_view.remove_suffix_view. rewrite Hs. reflexivity.
Qed.

Lemma ends_with_suffix_witness :
  string_view.to_list examples.mem_abc examples.abcabc
  = string_view.to_list examples.mem_abc
      (string_view.remove_suffix_view examples.mem_abc examples.abcabc examples.bc)
    ++ string_view.to_list examples.mem_abc examples.bc.
Proof.
  exact (proj1 (proj2 (ends_with_suffix examples.mem_abc examples.abcabc examples.bc
                         ltac:(unfold valid; cbn; lia) ltac:(unfold valid; cbn; lia)))
           ltac:(vm_compute; reflexivity)).
Defined.

Lemma scan_last_none (p : Z -> bool) (count : nat) (h : Z) :
  scan_last p h count = None -> forall b, h <= b < h + Z.of_nat count -> p b = false.
Proof.
  induction count as [|c IH]; cbn [scan_last]; [intros _ b Hb; lia|].
  destruct (p (h + Z.of_nat c)) eqn:Hpc; [discriminate|].
  intros Hs b Hb. destruct (Z.eq_dec b (h + Z.of_nat c)) as [->|Hne]; [exact Hpc|].
  apply IH; [exact Hs | lia].
Qed.

Lemma sz_equal_false_iff (mem : memory) (a b n : Z) :
  sz_equal mem a b n = false
  <-> string_view.to_list mem (string_view.mk a n)
      <> string_view.to_list mem (string_view.mk b n).
Proof.
  rewrite <- sz_equal_iff. destruct (sz_equal mem a b n); split; congruence.
Qed.

(** X8.  [string_view::find]: a result other than [npos] is an offset
    within the haystack at which the needle's bytes occur, and they occur at
    no smaller offset; the result [npos] for a needle that is not empty
    means that the needle occurs at no offset of the haystack. *)
Theorem find_reports_first_occurrence (mem : memory) (h n : string_view.t) :
  valid h -> valid n ->
  (string_view.find mem h n <> string_view.npos ->
   0 <= string_view.find mem h n
   /\ string_view.find mem h n + string_view.size n <= string_view.size h
   /\ string_view.to_list mem
        (string_view.substr h (string_view.find mem h n) (string_view.size n))
      = string_view.to_list mem n
   /\ forall q, 0 <= q < string_view.find mem h n ->
                string_view.to_list mem (string_view.substr h q (string_view.size n))
                <> string_view.to_list mem n)
  /\ (string_view.find mem h n = string_view.npos ->
      0 < string_view.size n ->
      forall q, 0 <= q -> q + string_view.size n <= string_view.size h ->
                string_view.to_list mem (string_view.substr h q (string_view.size n))
                <> string_view.to_list mem n).
Proof.
  intros Hh Hn. unfold string_view.size. split.
  - intros Hf. destruct (find_found mem h n Hh Hn Hf) as (Hp & Hl & Hle & Heq & Hmin).
    repeat split; try assumption.
    + rewrite substr_in_range by (unfold string_view.size; auto; lia).
      unfold string_view.size. rewrite Z.min_l by lia.
      apply sz_equal_iff in Heq. rewrite view_eta in Heq. exact Heq.
    + intros q Hq. rewrite substr_in_range by (unfold string_view.size; auto; lia).
      unfold string_view.size. rewrite Z.min_l by lia.
      specialize (Hmin q Hq). apply sz_equal_false_iff in Hmin.
      rewrite view_eta in Hmin. exact Hmin.
  - intros Hf Hpos q Hq Hle.
    rewrite substr_in_range by (unfold string_view.size; auto; lia).
    unfold string_view.size. rewrite Z.min_l by lia.
    pose proof (find_not_found mem h n Hh Hn Hf Hpos q Hq Hle) as Hno.
    apply sz_equal_false_iff in Hno. rewrite view_eta in Hno. exact Hno.
Qed.

Lemma find_reports_first_occurrence_witness :
  0 <= string_view.find examples.mem_abc examples.abcabc examples.bc
  /\ string_view.find examples.mem_abc examples.abcabc examples.bc
     + string_view.size examples.bc <= string_view.size examples.abcabc
  /\ string_view.to_list examples.mem_abc
       (string_view.substr examples.abcabc
          (string_view.find examples.mem_abc examples.abcabc examples.bc)
          (string_view.size examples.bc))
     = string_view.to_list examples.mem_abc examples.bc
  /\ forall q, 0 <= q < string_view.find examples.mem_abc examples.abcabc examples.bc ->
               string_view.to_list examples.mem_abc
                 (string_view.substr examples.abcabc q (string_view.size examples.bc))
               <> string_view.to_list examples.mem_abc examples.bc.
Proof.
  exact (proj1 (find_reports_first_occurrence examples.mem_abc examples.abcabc examples.bc
                  ltac:(unfold valid; cbn; lia) ltac:(unfold valid; cbn; lia))
           ltac:(vm_compute; discriminate)).
Defined.

Lemma rfind_found (mem : memory) (h n : string_view.t) :
  valid h -> valid n -> string_view.rfind mem h n <> string_view.npos ->
  0 <= string_view.rfind mem h n
  /\ 0 < string_view.length_ n
  /\ string_view.rfind mem h n + string_view.length_ n <= string_view.length_ h
  /\ sz_equal mem (string_view.start_ h + string_view.rfind mem h n)
                  (string_view.start_ n) (string_view.length_ n) = true
  /\ (forall q, string_view.rfind mem h n < q ->
                q + string_view.length_ n <= string_view.length_ h ->
                sz_equal mem (string_view.start_ h + q)
                         (string_view.start_ n) (string_view.length_ n) = false).
Proof.
  unfold valid, string_view.rfind, sz_find_last. intros Hh Hn.
  destruct (Z.ltb_spec (string_view.length_ h) (string_view.length_ n));
    cbn [orb]; [congruence|].
  destruct (Z.eqb_spec (string_view.length_ n) 0); [congruence|].
  destruct (scan_last _ _ _) as [a|] eqn:Hscan; [|congruence].
  intros _. apply scan_last_some in Hscan. destruct Hscan as (Hr & Ha & Hmax).
  rewrite Z2Nat.id in Hr, Hmax by lia.
  rewrite wrap_small by lia.
  replace (string_view.start_ h + (a - string_view.start_ h)) with a by lia.
  repeat split; try lia; [exact Ha|].
  intros q Hq Hle. apply Hmax. lia.
Qed.

Lemma rfind_not_found (mem : memory) (h n : string_view.t) :
  valid h -> valid n -> string_view.rfind mem h n = string_view.npos ->
  0 < string_view.length_ n ->
  forall q, 0 <= q -> q + string_view.length_ n <= string_view.length_ h ->
            sz_equal mem (string_view.start_ h + q)
                     (string_view.start_ n) (string_view.length_ n) = false.
Proof.
  unfold valid, string_view.rfind, sz_find_last. intros Hh Hn Hf Hpos q Hq Hle.
  destruct (Z.ltb_spec (string_view.length_ h) (string_view.length_ n));
    cbn [orb] in Hf; [lia|].
  destruct (Z.eqb_spec (string_view.length_ n) 0); [lia|].
  destruct (scan_last _ _ _) as [a|] eqn:Hscan.
  - exfalso. apply scan_last_some in Hscan. destruct Hscan as (Hr & _ & _).
    rewrite Z2Nat.id in Hr by lia. rewrite wrap_small in Hf by lia.
    rewrite npos_val in Hf. lia.
  - apply (scan_last_none _ _ _ Hscan). rewrite Z2Nat.id by lia. lia.
Qed.

(** X9.  [string_view::rfind]: a result other than [npos] is an offset
    within the haystack at which the needle's bytes occur, and they occur at
    no greater offset; the result [npos] for a needle that is not empty
    means that the needle occurs nowhere; [rfind] reports [npos] exactly
    when [find] does. *)
Theorem rfind_reports_last_occurrence (mem : memory) (h n : string_view.t) :
  valid h -> valid n ->
  (string_view.rfind mem h n <> string_view.npos ->
   0 <= string_view.rfind mem h n
   /\ string_view.rfind mem h n + string_view.size n <= string_view.size h
   /\ string_view.to_list mem
        (string_view.substr h (string_view.rfind mem h n) (string_view.size n))
      = string_view.to_list mem n
   /\ forall q, string_view.rfind mem h n < q ->
                q + string_view.size n <= string_view.size h ->
                string_view.to_list mem (string_view.substr h q (string_view.size n))
                <> string_view.to_list mem n)
  /\ (string_view.rfind mem h n = string_view.npos ->
      0 < string_view.size n ->
      forall q, 0 <= q -> q + string_view.size n <= string_view.size h ->
                string_view.to_list mem (string_view.substr h q (string_view.size n))
                <> string_view.to_list mem n)
  /\ (string_view.rfind mem h n = string_view.npos
      <-> string_view.find mem h n = string_view.npos).
Proof.
  intros Hh Hn. unfold string_view.size. split; [|split].
  - intros Hf. destruct (rfind_found mem h n Hh Hn Hf) as (Hp & Hl & Hle & Heq & Hmax).
    repeat split; try assumption.
    + rewrite substr_in_range by (unfold string_view.size; auto; lia).
      unfold string_view.size. rewrite Z.min_l by lia.
      apply sz_equal_iff in Heq. rewrite view_eta in Heq. exact Heq.
    + intros q Hq Hqle. rewrite substr_in_range by (unfold string_view.size; auto; lia).
      unfold string_view.size. rewrite Z.min_l by lia.
      specialize (Hmax q Hq Hqle). apply sz_equal_false_iff in Hmax.
      rewrite view_eta in Hmax. exact Hmax.
  - intros Hf Hpos q Hq Hle.
    rewrite substr_in_range by (unfold string_view.size; auto; lia).
    unfold string_view.size. rewrite Z.min_l by lia.
    pose proof (rfind_not_found mem h n Hh Hn Hf Hpos q Hq Hle) as Hno.
    apply sz_equal_false_iff in Hno. rewrite view_eta in Hno. exact Hno.
  - split; intros Hnone.
    + destruct (Z.eq_dec (string_view.find mem h n) string_view.npos) as [|Hf];
        [assumption|exfalso].
      destruct (find_found mem h n Hh Hn Hf) as (Hp & Hl & Hle & Heq & _).
      pose proof (rfind_not_found mem h n Hh Hn Hnone Hl _ Hp Hle). congruence.
    + destruct (Z.eq_dec (string_view.rfind mem h n) string_view.npos) as [|Hf];
        [assumption|exfalso].
      destruct (rfind_found mem h n Hh Hn Hf) as (Hp & Hl & Hle & Heq & _).
      pose proof (find_not_found mem h n Hh Hn Hnone Hl _ Hp Hle). congruence.
Qed.

Lemma rfind_reports_last_occurrence_witness :
  0 <= string_view.rfind examples.mem_abc examples.abcabc examples.bc
  /\ string_view.rfind examples.mem_abc examples.abcabc examples.bc
     + string_view.size examples.bc <= string_view.size examples.abcabc
  /\ string_view.to_list examples.mem_abc
       (string_view.substr examples.abcabc
          (string_view.rfind examples.mem_abc examples.abcabc examples.bc)
          (string_view.size examples.bc))
     = string_view.to_list examples.mem_abc examples.bc
  /\ forall q, string_view.rfind examples.mem_abc examples.abcabc examples.bc < q ->
               q + string_view.size examples.bc <= string_view.size examples.abcabc ->
               string_view.to_list examples.mem_abc
                 (string_view.substr examples.abcabc q (string_view.size examples.bc))
               <> string_view.to_list examples.mem_abc examples.bc.
Proof.
  exact (proj1 (rfind_reports_last_occurrence examples.mem_abc examples.abcabc examples.bc
                  ltac:(unfold valid; cbn; lia) ltac:(unfold valid; cbn; lia))
           ltac:(vm_compute; discriminate)).
Defined.

(** X10.  The helper [rsplit_] (which [rpartition] does not call) cuts at
    the last occurrence: when [rfind] finds the pattern, [before], the
    pattern and [after] concatenate to the haystack, [match] holds the
    pattern's bytes, and [after] holds no further occurrence; when [rfind]
    reports [npos] the result is the haystack and two default views. *)
Theorem rsplit_law (mem : memory) (H P : string_view.t) :
  valid H -> valid P ->
  (string_view.rfind mem H P <> string_view.npos ->
   string_view.to_list mem
     (before (string_view.rsplit_ (H := string_view.pattern_string_view mem)
                H P (string_view.length P)))
   ++ string_view.to_list mem P
   ++ string_view.to_list mem
        (after (string_view.rsplit_ (H := string_view.pattern_string_view mem)
                  H P (string_view.length P)))
   = string_view.to_list mem H
   /\ string_view.to_list mem
        (match_ (string_view.rsplit_ (H := string_view.pattern_string_view mem)
                   H P (string_view.length P)))
      = string_view.to_list mem P
   /\ string_view.find mem
        (after (string_view.rsplit_ (H := string_view.pattern_string_view mem)
                  H P (string_view.length P))) P
      = string_view.npos)
  /\ (string_view.rfind mem H P = string_view.npos ->
      string_view.rsplit_ (H := string_view.pattern_string_view mem)
        H P (string_view.length P)
      = mk_partition H string_view.default string_view.default).
Proof.
  intros HH HP. unfold string_view.rsplit_.
  cbn [string_view.rfind_ string_view.pattern_string_view].
  unfold string_view.substr_self, string_view.length. split.
  - intros Hf.
    destruct (Z.eqb_spec (string_view.rfind mem H P) string_view.npos); [contradiction|].
    cbn [before match_ after].
    destruct (rfind_found mem H P HH HP Hf) as (Hp & Hl & Hle & Heq & Hmax).
    assert (Hm : string_view.to_list mem
                   (string_view.substr H (string_view.rfind mem H P) (string_view.length_ P))
                 = string_view.to_list mem P).
    { rewrite substr_in_range by (unfold string_view.size; auto; lia).
      unfold string_view.size. rewrite Z.min_l by lia.
      apply sz_equal_iff in Heq. rewrite view_eta in Heq. exact Heq. }
    split; [|split; [exact Hm|]].
    + rewrite <- Hm. apply three_way_split; unfold string_view.size; auto; lia.
    + rewrite wrap_small by (unfold valid in *; lia).
      rewrite substr_from_in_range by (unfold string_view.size; auto; lia).
      unfold string_view.size.
      match goal with
      | |- string_view.find mem ?a P = _ =>
          destruct (Z.eq_dec (string_view.find mem a P) string_view.npos) as [|Hfa];
          [assumption|exfalso];
          assert (Ha : valid a) by view_arith;
          destruct (find_found mem a P Ha HP Hfa) as (Hq & _ & Hqle & Hqeq & _)
      end.
      cbn [string_view.start_ string_view.length_] in Hqle, Hqeq.
      rewrite <- Z.add_assoc in Hqeq.
      rewrite Hmax in Hqeq; [discriminate | lia | lia].
  - intros ->. reflexivity.
Qed.

Lemma rsplit_law_witness :
  string_view.to_list examples.mem_csv
    (before (string_view.rsplit_ (H := string_view.pattern_string_view examples.mem_csv)
               examples.a_b_c examples.comma (string_view.length examples.comma)))
  ++ string_view.to_list examples.mem_csv examples.comma
  ++ string_view.to_list examples.mem_csv
       (after (string_view.rsplit_ (H := string_view.pattern_string_view examples.mem_csv)
                 examples.a_b_c examples.comma (string_view.length examples.comma)))
  = string_view.to_list examples.mem_csv examples.a_b_c
  /\ string_view.to_list examples.mem_csv
       (match_ (string_view.rsplit_ (H := string_view.pattern_string_view examples.mem_csv)
                  examples.a_b_c examples.comma (string_view.length examples.comma)))
     = string_view.to_list examples.mem_csv examples.comma
  /\ string_view.find examples.mem_csv
       (after (string_view.rsplit_ (H := string_view.pattern_string_view examples.mem_csv)
                 examples.a_b_c examples.comma (string_view.length examples.comma)))
       examples.comma
     = string_view.npos.
Proof.
  exact (proj1 (rsplit_law examples.mem_csv examples.a_b_c examples.comma
                  ltac:(unfold valid; cbn; lia) ltac:(unfold valid; cbn; lia))
           ltac:(vm_compute; discriminate)).
Defined.


Lemma forall_to_list (mem : memory) (q : byte -> bool) (x : bool) (s n : Z) :
  (forall b, s <= b < s + n -> q (mem b) = x) ->
  Forall (fun c => q c = x) (string_view.to_list mem (string_view.mk s n)).
Proof.
  intros Hall. apply Forall_forall. intros c Hc.
  unfold string_view.to_list in Hc. cbn [string_view.start_ string_view.length_] in Hc.
  apply in_map_iff in Hc. destruct Hc as (i & <- & Hi). apply in_seq in Hi.
  apply Hall. lia.
Qed.

Lemma to_list_forall (mem : memory) (q : byte -> bool) (x : bool) (s n : Z) :
  Forall (fun c => q c = x) (string_view.to_list mem (string_view.mk s n)) ->
  forall b, s <= b < s + n -> q (mem b) = x.
Proof.
  intros Hall b Hb. rewrite Forall_forall in Hall. apply Hall.
  unfold string_view.to_list. cbn [string_view.start_ string_view.length_].
  apply in_map_iff. exists (Z.to_nat (b - s)). split; [f_equal; lia|].
  apply in_seq. lia.
Qed.

Lemma to_list_cons (mem : memory) (s n : Z) :
  0 < n ->
  string_view.to_list mem (string_view.mk s n)
  = mem s :: string_view.to_list mem (string_view.mk (s + 1) (n - 1)).
Proof.
  intros Hn. replace n with (1 + (n - 1)) at 1 by lia.
  rewrite to_list_app by lia. unfold string_view.to_list at 1.
  cbn [string_view.start_ string_view.length_]. change (Z.to_nat 1) with 1%nat.
  cbn [seq map Z.of_nat app]. rewrite Z.add_0_r. reflexivity.
Qed.

Lemma to_list_snoc (mem : memory) (s n : Z) :
  0 <= n ->
  string_view.to_list mem (string_view.mk s (n + 1))
  = string_view.to_list mem (string_view.mk s n) ++ [mem (s + n)].
Proof.
  intros Hn. rewrite to_list_app by lia. f_equal.
  rewrite to_list_cons by lia. cbn. reflexivity.
Qed.

Lemma raw_contains (set : character_set.t) (c : byte) :
  sz_u8_set_contains (character_set.raw set) c = character_set.contains set c.
Proof. reflexivity. Qed.

(** [find_first_of] either reports the offset of the first byte of the set,
    or [npos] when the view holds none. *)
Lemma find_first_of_cases (mem : memory) (h : string_view.t) (set : character_set.t) :
  valid h ->
  (string_view.find_first_of mem h set = string_view.npos
   /\ forall b, string_view.start_ h <= b < string_view.start_ h + string_view.length_ h ->
                character_set.contains set (mem b) = false)
  \/ (string_view.find_first_of mem h set <> string_view.npos
      /\ 0 <= string_view.find_first_of mem h set < string_view.length_ h
      /\ character_set.contains set
            (mem (string_view.start_ h + string_view.find_first_of mem h set)) = true
      /\ forall b, string_view.start_ h <= b
                                  < string_view.start_ h + string_view.find_first_of mem h set ->
                   character_set.contains set (mem b) = false).
Proof.
  intros Hh. unfold string_view.find_first_of, sz_find_from_set.
  pose proof Hh as Hh'. unfold valid in Hh'.
  destruct (scan_first _ _ _) as [a|] eqn:Hscan.
  - right. apply scan_first_some in Hscan. destruct Hscan as (Hr & Ha & Hmin).
    rewrite Z2Nat.id in Hr by lia. rewrite wrap_small by lia.
    replace (string_view.start_ h + (a - string_view.start_ h)) with a by lia.
    split; [rewrite npos_val; lia|]. split; [lia|]. split; [exact Ha|].
    intros b Hb. apply Hmin. lia.
  - left. split; [reflexivity|]. intros b Hb.
    apply (scan_first_none _ _ _ Hscan). rewrite Z2Nat.id by lia. exact Hb.
Qed.

(** [find_last_of] either reports the offset of the last byte of the set,
    or [npos] when the view holds none. *)
Lemma find_last_of_cases (mem : memory) (h : string_view.t) (set : character_set.t) :
  valid h ->
  (string_view.find_last_of mem h set = string_view.npos
   /\ forall b, string_view.start_ h <= b < string_view.start_ h + string_view.length_ h ->
                character_set.contains set (mem b) = false)
  \/ (string_view.find_last_of mem h set <> string_view.npos
      /\ 0 <= string_view.find_last_of mem h set < string_view.length_ h
      /\ character_set.contains set
            (mem (string_view.start_ h + string_view.find_last_of mem h set)) = true
      /\ forall b, string_view.start_ h + string_view.find_last_of mem h set < b
                                  < string_view.start_ h + string_view.length_ h ->
                   character_set.contains set (mem b) = false).
Proof.
  intros Hh. unfold string_view.find_last_of, sz_find_last_from_set.
  pose proof Hh as Hh'. unfold valid in Hh'.
  destruct (scan_last _ _ _) as [a|] eqn:Hscan.
  - right. apply scan_last_some in Hscan. destruct Hscan as (Hr & Ha & Hmax).
    rewrite Z2Nat.id in Hr, Hmax by lia. rewrite wrap_small by lia.
    replace (string_view.start_ h + (a - string_view.start_ h)) with a by lia.
    split; [rewrite npos_val; lia|]. split; [lia|]. split; [exact Ha|].
    intros b Hb. apply Hmax. lia.
  - left. split; [reflexivity|]. intros b Hb.
    apply (scan_last_none _ _ _ Hscan). rewrite Z2Nat.id by lia. exact Hb.
Qed.

(** X11.  [find_first_of(character_set)]: a result other than [npos] is
    the offset of a byte of the set, and no byte before it is in the set;
    the result [npos] means that no byte of the view is in the set. *)
Theorem find_first_of_first_member
    (mem : memory) (h : string_view.t) (set : character_set.t) :
  valid h ->
  (string_view.find_first_of mem h set <> string_view.npos ->
   0 <= string_view.find_first_of mem h set < string_view.size h
   /\ character_set.contains set
        (mem (string_view.data h + string_view.find_first_of mem h set)) = true
   /\ Forall (fun c => character_set.contains set c = false)
        (string_view.to_list mem
           (string_view.substr h 0 (string_view.find_first_of mem h set))))
  /\ (string_view.find_first_of mem h set = string_view.npos ->
      Forall (fun c => character_set.contains set c = false)
        (string_view.to_list mem h)).
Proof.
  intros Hh. unfold string_view.size, string_view.data.
  destruct (find_first_of_cases mem h set Hh) as [[Hn Hall]|(Hf & Hr & Hin & Hmin)].
  - split; [congruence|]. intros _. rewrite <- (view_eta h).
    apply forall_to_list. exact Hall.
  - split; [|congruence]. intros _. split; [exact Hr|]. split; [exact Hin|].
    rewrite substr_in_range by (unfold string_view.size; auto; lia).
    unfold string_view.size. rewrite Z.sub_0_r, Z.add_0_r, Z.min_l by lia.
    apply forall_to_list. intros b Hb. apply Hmin. lia.
Qed.

Lemma find_first_of_first_member_witness :
  0 <= string_view.find_first_of examples.mem_csv examples.a_b_c
         (string_view.as_set examples.mem_csv examples.comma)
    < string_view.size examples.a_b_c
  /\ character_set.contains (string_view.as_set examples.mem_csv examples.comma)
       (examples.mem_csv
          (string_view.data examples.a_b_c
           + string_view.find_first_of examples.mem_csv examples.a_b_c
               (string_view.as_set examples.mem_csv examples.comma))) = true
  /\ Forall (fun c => character_set.contains
                        (string_view.as_set examples.mem_csv examples.comma) c = false)
       (string_view.to_list examples.mem_csv
          (string_view.substr examples.a_b_c 0
             (string_view.find_first_of examples.mem_csv examples.a_b_c
                (string_view.as_set examples.mem_csv examples.comma)))).
Proof.
  exact (proj1 (find_first_of_first_member examples.mem_csv examples.a_b_c
                  (string_view.as_set examples.mem_csv examples.comma)
                  ltac:(unfold valid; cbn; lia))
           ltac:(vm_compute; discriminate)).
Defined.

(** X12.  [find_last_of(character_set)]: a result other than [npos] is
    the offset of a byte of the set, and no byte after it is in the set;
    it reports [npos] exactly when [find_first_of] does. *)
Theorem find_last_of_last_member
    (mem : memory) (h : string_view.t) (set : character_set.t) :
  valid h ->
  (string_view.find_last_of mem h set <> string_view.npos ->
   0 <= string_view.find_last_of mem h set < string_view.size h
   /\ character_set.contains set
        (mem (string_view.data h + string_view.find_last_of mem h set)) = true
   /\ Forall (fun c => character_set.contains set c = false)
        (string_view.to_list mem
           (string_view.substr_from h (string_view.find_last_of mem h set + 1))))
  /\ (string_view.find_last_of mem h set = string_view.npos
      <-> string_view.find_first_of mem h set = string_view.npos).
Proof.
  intros Hh. unfold string_view.size, string_view.data.
  destruct (find_last_of_cases mem h set Hh) as [[Hn Hall]|(Hf & Hr & Hin & Hmax)].
  - split; [congruence|]. split; [intros _|intros _; exact Hn].
    destruct (find_first_of_cases mem h set Hh) as [[Hn' _]|(_ & Hr' & Hin' & _)];
      [exact Hn'|].
    rewrite Hall in Hin' by lia. discriminate.
  - split.
    + intros _. split; [exact Hr|]. split; [exact Hin|].
      rewrite substr_from_in_range by (unfold string_view.size; auto; lia).
      unfold string_view.size. apply forall_to_list. intros b Hb. apply Hmax. lia.
    + split; [congruence|]. intros Hn'.
      destruct (find_first_of_cases mem h set Hh) as [[_ Hall]|(Hf' & _)];
        [|congruence].
      rewrite Hall in Hin by lia. discriminate.
Qed.

Lemma find_last_of_last_member_witness :
  0 <= string_view.find_last_of examples.mem_csv examples.a_b_c
         (string_view.as_set examples.mem_csv examples.comma)
    < string_view.size examples.a_b_c
  /\ character_set.contains (string_view.as_set examples.mem_csv examples.comma)
       (examples.mem_csv
          (string_view.data examples.a_b_c
           + string_view.find_last_of examples.mem_csv examples.a_b_c
               (string_view.as_set examples.mem_csv examples.comma))) = true
  /\ Forall (fun c => character_set.contains
                        (string_view.as_set examples.mem_csv examples.comma) c = false)
       (string_view.to_list examples.mem_csv
          (string_view.substr_from examples.a_b_c
             (string_view.find_last_of examples.mem_csv examples.a_b_c
                (string_view.as_set examples.mem_csv examples.comma) + 1))).
Proof.
  exact (proj1 (find_last_of_last_member examples.mem_csv examples.a_b_c
                  (string_view.as_set examples.mem_csv examples.comma)
                  ltac:(unfold valid; cbn; lia))
           ltac:(vm_compute; discriminate)).
Defined.

Lemma all_members_flip (set : character_set.t) (l : list byte) :
  Forall (fun c => character_set.contains (character_set.inverted set) c = false) l
  <-> Forall (fun c => character_set.contains set c = true) l.
Proof.
  rewrite !Forall_forall. split; intros Hl c Hc; specialize (Hl c Hc);
    rewrite contains_inverted in *; destruct (character_set.contains set c);
    cbn in *; congruence.
Qed.

(** [contains_only] holds exactly when every byte is in the set. *)
Lemma contains_only_iff (mem : memory) (v : string_view.t) (set : character_set.t) :
  valid v ->
  string_view.contains_only mem v set = true
  <-> Forall (fun c => character_set.contains set c = true) (string_view.to_list mem v).
Proof.
  intros Hv. unfold string_view.contains_only, string_view.find_first_not_of.
  rewrite Z.eqb_eq, <- all_members_flip.
  destruct (find_first_of_cases mem v (character_set.inverted set) Hv)
    as [[Hn Hall]|(Hf & Hr & Hin & _)].
  - split; [intros _|intros _; exact Hn].
    rewrite <- (view_eta v). apply forall_to_list. exact Hall.
  - split; [congruence|]. intros Hall. exfalso.
    rewrite <- (view_eta v) in Hall.
    rewrite (to_list_forall mem _ _ _ _ Hall) in Hin by lia. discriminate.
Qed.

(** X13.  [contains_only(set)] holds if and only if every byte of the
    view is in the set (so it holds for the empty view); a result of
    [find_first_not_of(set)] other than [npos] is the offset of a byte
    outside the set, all bytes before which are in the set. *)
Theorem contains_only_all_members
    (mem : memory) (v : string_view.t) (set : character_set.t) :
  valid v ->
  (string_view.contains_only mem v set = true
   <-> Forall (fun c => character_set.contains set c = true) (string_view.to_list mem v))
  /\ (string_view.find_first_not_of mem v set <> string_view.npos ->
      0 <= string_view.find_first_not_of mem v set < string_view.size v
      /\ character_set.contains set
           (mem (string_view.data v + string_view.find_first_not_of mem v set)) = false
      /\ Forall (fun c => character_set.contains set c = true)
           (string_view.to_list mem
              (string_view.substr v 0 (string_view.find_first_not_of mem v set)))).
Proof.
  intros Hv. split; [apply contains_only_iff; exact Hv|].
  unfold string_view.find_first_not_of, string_view.size, string_view.data.
  intros Hf.
  destruct (find_first_of_cases mem v (character_set.inverted set) Hv)
    as [[Hn _]|(_ & Hr & Hin & Hmin)]; [congruence|].
  rewrite contains_inverted in Hin. apply negb_true_iff in Hin.
  split; [exact Hr|]. split; [exact Hin|]. apply all_members_flip.
  rewrite substr_in_range by (unfold string_view.size; auto; lia).
  unfold string_view.size. rewrite Z.sub_0_r, Z.add_0_r, Z.min_l by lia.
  apply forall_to_list. intros b Hb. apply Hmin. lia.
Qed.

Lemma contains_only_all_members_witness :
  string_view.contains_only examples.mem_padded (string_view.mk 16 2) examples.blank = true
  <-> Forall (fun c => character_set.contains examples.blank c = true)
        (string_view.to_list examples.mem_padded (string_view.mk 16 2)).
Proof.
  exact (proj1 (contains_only_all_members examples.mem_padded (string_view.mk 16 2)
                  examples.blank ltac:(unfold valid; cbn; lia))).
Defined.


Lemma drop_while_app {A : Type} (p : A -> bool) (l1 l2 : list A) :
  Forall (fun x => p x = true) l1 -> drop_while p (l1 ++ l2) = drop_while p l2.
Proof.
  induction 1 as [|x l1 Hx _ IH]; [reflexivity|]. cbn [app drop_while]. rewrite Hx. exact IH.
Qed.

Lemma drop_while_all {A : Type} (p : A -> bool) (l : list A) :
  Forall (fun x => p x = true) l -> drop_while p l = [].
Proof.
  intros H. rewrite <- (app_nil_r l). rewrite drop_while_app by exact H. reflexivity.
Qed.

Lemma drop_while_snoc_stop {A : Type} (p : A -> bool) (l : list A) (x : A) :
  p x = false -> exists m, drop_while p (l ++ [x]) = m ++ [x].
Proof.
  intros Hx. induction l as [|a l IH].
  - exists []. cbn. rewrite Hx. reflexivity.
  - cbn [app drop_while]. destruct (p a); [exact IH|]. exists (a :: l). reflexivity.
Qed.

Lemma drop_while_idempotent {A : Type} (p : A -> bool) (l : list A) :
  drop_while p (drop_while p l) = drop_while p l.
Proof.
  induction l as [|a l IH]; [reflexivity|]. cbn [drop_while].
  destruct (p a) eqn:Ha; [exact IH|]. cbn [drop_while]. rewrite Ha. reflexivity.
Qed.

(** Dropping from both ends, twice, is dropping once. *)
Lemma drop_both_idempotent {A : Type} (p : A -> bool) (l : list A) :
  rev (drop_while p (rev (drop_while p
    (rev (drop_while p (rev (drop_while p l)))))))
  = rev (drop_while p (rev (drop_while p l))).
Proof.
  set (l1 := drop_while p l).
  assert (H1 : l1 = [] \/ exists x t, l1 = x :: t /\ p x = false).
  { unfold l1. induction l as [|a l IH]; [left; reflexivity|].
    cbn [drop_while]. destruct (p a) eqn:Ha; [exact IH|]. right. eauto. }
  destruct H1 as [->|(x & t & -> & Hx)]; [reflexivity|].
  cbn [rev].
  pose proof (drop_while_idempotent p (rev t ++ [x])) as Hfix.
  destruct (drop_while_snoc_stop p (rev t) x Hx) as [m Hm]. rewrite Hm in *.
  rewrite rev_app_distr. cbn [rev app drop_while]. rewrite Hx.
  change (x :: rev m) with (rev [x] ++ rev m). rewrite <- rev_app_distr, rev_involutive.
  rewrite Hfix. reflexivity.
Qed.

Lemma to_list_cut (mem : memory) (v : string_view.t) (k : Z) :
  0 <= k <= string_view.length_ v ->
  string_view.to_list mem v
  = string_view.to_list mem (string_view.mk (string_view.start_ v) k)
    ++ string_view.to_list mem
         (string_view.mk (string_view.start_ v + k) (string_view.length_ v - k)).
Proof.
  intros Hk. rewrite <- to_list_app by lia.
  rewrite <- (view_eta v) at 1. do 2 f_equal. lia.
Qed.

Lemma lstrip_cases (mem : memory) (v : string_view.t) (set : character_set.t) :
  valid v ->
  (string_view.lstrip mem v set = string_view.default
   /\ sz_find_from_set mem (string_view.start_ v) (string_view.length_ v)
        (character_set.raw (character_set.inverted set)) = None
   /\ Forall (fun c => character_set.contains set c = true) (string_view.to_list mem v))
  \/ exists a,
      string_view.start_ v <= a < string_view.start_ v + string_view.length_ v
      /\ sz_find_from_set mem (string_view.start_ v) (string_view.length_ v)
           (character_set.raw (character_set.inverted set)) = Some a
      /\ string_view.lstrip mem v set
         = string_view.mk a (string_view.length_ v - (a - string_view.start_ v))
      /\ character_set.contains set (mem a) = false
      /\ Forall (fun c => character_set.contains set c = true)
           (string_view.to_list mem
              (string_view.mk (string_view.start_ v) (a - string_view.start_ v))).
Proof.
  intros Hv. pose proof Hv as Hv'. unfold valid in Hv'.
  unfold string_view.lstrip, sz_find_from_set.
  destruct (scan_first _ _ _) as [a|] eqn:Hscan.
  - right. exists a. apply scan_first_some in Hscan. destruct Hscan as (Hr & Ha & Hmin).
    rewrite Z2Nat.id in Hr by lia.
    rewrite raw_contains, contains_inverted in Ha. apply negb_true_iff in Ha.
    split; [lia|]. split; [reflexivity|]. split.
    + rewrite (wrap_small (a - string_view.start_ v)) by lia.
      rewrite wrap_small by lia. reflexivity.
    + split; [exact Ha|]. apply forall_to_list. intros b Hb.
      specialize (Hmin b ltac:(lia)). rewrite raw_contains, contains_inverted in Hmin.
      apply negb_false_iff in Hmin. exact Hmin.
  - left. split; [reflexivity|]. split; [reflexivity|].
    rewrite <- (view_eta v). apply forall_to_list.
    intros b Hb. pose proof (scan_first_none _ _ _ Hscan b) as Hb'.
    rewrite Z2Nat.id in Hb' by lia. specialize (Hb' Hb).
    rewrite raw_contains, contains_inverted in Hb'. apply negb_false_iff in Hb'. exact Hb'.
Qed.

(** The bytes of [lstrip]. *)
Lemma lstrip_bytes
    (mem : memory) (v : string_view.t) (set : character_set.t) :
  valid v ->
  string_view.to_list mem (string_view.lstrip mem v set)
  = drop_while (character_set.contains set) (string_view.to_list mem v)
  /\ valid (string_view.lstrip mem v set).
Proof.
  intros Hv. pose proof Hv as Hv'. unfold valid in Hv'.
  destruct (lstrip_cases mem v set Hv) as [(-> & _ & Hall)|(a & Hr & _ & -> & Ha & Hpre)].
  - rewrite drop_while_all by exact Hall. split; [reflexivity|].
    unfold valid, sz_size_max. cbn. lia.
  - split; [|view_arith].
    rewrite (to_list_cut mem v (a - string_view.start_ v)) by lia.
    rewrite drop_while_app by exact Hpre.
    replace (string_view.start_ v + (a - string_view.start_ v)) with a by lia.
    rewrite to_list_cons by lia. cbn [drop_while]. rewrite Ha. reflexivity.
Qed.

(** X14.  [lstrip(set)] denotes the bytes of the view without its longest
    prefix of bytes of the set.  When every byte is in the set (also for the
    empty view) the result is the default view [string_view()], with a null
    data pointer; otherwise it is a suffix of the view, ending where the view
    ends. *)
Theorem lstrip_drops_leading_members
    (mem : memory) (v : string_view.t) (set : character_set.t) :
  valid v ->
  string_view.to_list mem (string_view.lstrip mem v set)
  = drop_while (character_set.contains set) (string_view.to_list mem v)
  /\ (Forall (fun c => character_set.contains set c = true) (string_view.to_list mem v) ->
      string_view.lstrip mem v set = string_view.default)
  /\ (~ Forall (fun c => character_set.contains set c = true) (string_view.to_list mem v) ->
      string_view.begin v <= string_view.begin (string_view.lstrip mem v set)
      /\ string_view.end_ (string_view.lstrip mem v set) = string_view.end_ v).
Proof.
  intros Hv. split; [apply lstrip_bytes; exact Hv|].
  destruct (lstrip_cases mem v set Hv) as [(Hl & _ & Hall)|(a & Hr & _ & Hl & Ha & Hpre)].
  - split; [intros _; exact Hl | intros Hno; contradiction].
  - split.
    + intros Hall. exfalso. rewrite <- (view_eta v) in Hall.
      rewrite (to_list_forall mem _ _ _ _ Hall a) in Ha by lia. discriminate.
    + intros _. rewrite Hl. unfold string_view.begin, string_view.end_.
      cbn [string_view.start_ string_view.length_]. lia.
Qed.

Lemma lstrip_drops_leading_members_witness :
  string_view.to_list examples.mem_padded
    (string_view.lstrip examples.mem_padded examples.padded examples.blank)
  = drop_while (character_set.contains examples.blank)
      (string_view.to_list examples.mem_padded examples.padded).
Proof.
  exact (proj1 (lstrip_drops_leading_members examples.mem_padded examples.padded
                  examples.blank ltac:(unfold valid; cbn; lia))).
Defined.

Lemma rstrip_cases (mem : memory) (v : string_view.t) (set : character_set.t) :
  valid v ->
  (string_view.rstrip mem v set = string_view.default
   /\ sz_find_last_from_set mem (string_view.start_ v) (string_view.length_ v)
        (character_set.raw (character_set.inverted set)) = None
   /\ Forall (fun c => character_set.contains set c = true) (string_view.to_list mem v))
  \/ exists e,
      string_view.start_ v <= e < string_view.start_ v + string_view.length_ v
      /\ sz_find_last_from_set mem (string_view.start_ v) (string_view.length_ v)
           (character_set.raw (character_set.inverted set)) = Some e
      /\ string_view.rstrip mem v set
         = string_view.mk (string_view.start_ v) (e - string_view.start_ v + 1)
      /\ character_set.contains set (mem e) = false
      /\ Forall (fun c => character_set.contains set c = true)
           (string_view.to_list mem
              (string_view.mk (e + 1)
                 (string_view.length_ v - (e - string_view.start_ v + 1)))).
Proof.
  intros Hv. pose proof Hv as Hv'. unfold valid in Hv'.
  unfold string_view.rstrip, sz_find_last_from_set.
  destruct (scan_last _ _ _) as [e|] eqn:Hscan.
  - right. exists e. apply scan_last_some in Hscan. destruct Hscan as (Hr & He & Hmax).
    rewrite Z2Nat.id in Hr, Hmax by lia.
    rewrite raw_contains, contains_inverted in He. apply negb_true_iff in He.
    split; [lia|]. split; [reflexivity|]. split.
    + rewrite wrap_small by lia. reflexivity.
    + split; [exact He|]. apply forall_to_list. intros b Hb.
      specialize (Hmax b ltac:(lia)). rewrite raw_contains, contains_inverted in Hmax.
      apply negb_false_iff in Hmax. exact Hmax.
  - left. split; [reflexivity|]. split; [reflexivity|].
    rewrite <- (view_eta v). apply forall_to_list.
    intros b Hb. pose proof (scan_last_none _ _ _ Hscan b) as Hb'.
    rewrite Z2Nat.id in Hb' by lia. specialize (Hb' Hb).
    rewrite raw_contains, contains_inverted in Hb'. apply negb_false_iff in Hb'. exact Hb'.
Qed.

(** The bytes of [rstrip]. *)
Lemma rstrip_bytes
    (mem : memory) (v : string_view.t) (set : character_set.t) :
  valid v ->
  string_view.to_list mem (string_view.rstrip mem v set)
  = rev (drop_while (character_set.contains set) (rev (string_view.to_list mem v)))
  /\ valid (string_view.rstrip mem v set).
Proof.
  intros Hv. pose proof Hv as Hv'. unfold valid in Hv'.
  destruct (rstrip_cases mem v set Hv) as [(-> & _ & Hall)|(e & Hr & _ & -> & He & Hpost)].
  - rewrite drop_while_all by (apply Forall_rev; exact Hall). split; [reflexivity|].
    unfold valid, sz_size_max. cbn. lia.
  - split; [|view_arith].
    rewrite (to_list_cut mem v (e - string_view.start_ v + 1)) by lia.
    rewrite rev_app_distr.
    replace (string_view.start_ v + (e - string_view.start_ v + 1)) with (e + 1) by lia.
    rewrite drop_while_app by (apply Forall_rev; exact Hpost).
    rewrite to_list_snoc by lia. rewrite rev_app_distr. cbn [rev app drop_while].
    replace (string_view.start_ v + (e - string_view.start_ v)) with e by lia.
    rewrite He. change (mem e :: rev ?l) with (rev [mem e] ++ rev l).
    cbn [rev app]. rewrite rev_involutive. reflexivity.
Qed.

(** X15.  [rstrip(set)] denotes the bytes of the view without its longest
    suffix of bytes of the set.  When every byte is in the set (also for the
    empty view) the result is the default view [string_view()]; otherwise it
    is a prefix of the view, starting where the view starts. *)
Theorem rstrip_drops_trailing_members
    (mem : memory) (v : string_view.t) (set : character_set.t) :
  valid v ->
  string_view.to_list mem (string_view.rstrip mem v set)
  = rev (drop_while (character_set.contains set) (rev (string_view.to_list mem v)))
  /\ (Forall (fun c => character_set.contains set c = true) (string_view.to_list mem v) ->
      string_view.rstrip mem v set = string_view.default)
  /\ (~ Forall (fun c => character_set.contains set c = true) (string_view.to_list mem v) ->
      string_view.begin (string_view.rstrip mem v set) = string_view.begin v
      /\ string_view.end_ (string_view.rstrip mem v set) <= string_view.end_ v).
Proof.
  intros Hv. split; [apply rstrip_bytes; exact Hv|].
  destruct (rstrip_cases mem v set Hv) as [(Hl & _ & Hall)|(e & Hr & _ & Hl & He & Hpost)].
  - split; [intros _; exact Hl | intros Hno; contradiction].
  - split.
    + intros Hall. exfalso. rewrite <- (view_eta v) in Hall.
      rewrite (to_list_forall mem _ _ _ _ Hall e) in He by lia. discriminate.
    + intros _. rewrite Hl. unfold string_view.begin, string_view.end_.
      cbn [string_view.start_ string_view.length_]. lia.
Qed.

Lemma rstrip_drops_trailing_members_witness :
  string_view.to_list examples.mem_padded
    (string_view.rstrip examples.mem_padded examples.padded examples.blank)
  = rev (drop_while (character_set.contains examples.blank)
           (rev (string_view.to_list examples.mem_padded examples.padded))).
Proof.
  exact (proj1 (rstrip_drops_trailing_members examples.mem_padded examples.padded
                  examples.blank ltac:(unfold valid; cbn; lia))).
Defined.

(** X16.  [strip(set)] is the same view as [rstrip(set)] applied to
    [lstrip(set)]: its bytes are those of the view without the bytes of the
    set at both ends, and stripping a second time changes nothing. *)
Theorem strip_is_rstrip_of_lstrip
    (mem : memory) (v : string_view.t) (set : character_set.t) :
  valid v ->
  string_view.strip mem v set
  = string_view.rstrip mem (string_view.lstrip mem v set) set
  /\ string_view.to_list mem (string_view.strip mem v set)
     = rev (drop_while (character_set.contains set)
              (rev (drop_while (character_set.contains set) (string_view.to_list mem v))))
  /\ string_view.to_list mem (string_view.strip mem (string_view.strip mem v set) set)
     = string_view.to_list mem (string_view.strip mem v set).
Proof.
  intros Hv. pose proof Hv as Hv'. unfold valid in Hv'.
  assert (Heq : forall w, valid w ->
            string_view.strip mem w set
            = string_view.rstrip mem (string_view.lstrip mem w set) set).
  { intros w Hw. pose proof Hw as Hw'. unfold valid in Hw'.
    destruct (lstrip_cases mem w set Hw)
      as [(Hl & Hnone & Hall)|(a & Hr & Hfind & Hl & Ha & Hpre)].
    - rewrite Hl. unfold string_view.strip. rewrite Hnone. reflexivity.
    - rewrite Hl. unfold string_view.strip. rewrite Hfind.
      rewrite (wrap_small (string_view.length_ w - (a - string_view.start_ w))) by lia.
      assert (Hva : valid (string_view.mk a
                              (string_view.length_ w - (a - string_view.start_ w))))
        by view_arith.
      destruct (rstrip_cases mem _ set Hva)
        as [(_ & _ & Hall)|(e & Hre & Hlast & -> & _ & _)].
      + exfalso. rewrite to_list_cons in Hall by lia.
        apply Forall_inv in Hall. cbv beta in Hall. rewrite Ha in Hall. discriminate.
      + cbn [string_view.start_ string_view.length_] in Hlast, Hre |- *.
        rewrite Hlast. rewrite wrap_small by lia. reflexivity. }
  destruct (lstrip_bytes mem v set Hv) as [Hlb Hlv].
  destruct (rstrip_bytes mem _ set Hlv) as [Hrb Hrv].
  assert (Hbytes : forall w, valid w ->
            string_view.to_list mem (string_view.strip mem w set)
            = rev (drop_while (character_set.contains set)
                     (rev (drop_while (character_set.contains set)
                             (string_view.to_list mem w))))).
  { intros w Hw. rewrite (Heq w Hw).
    destruct (lstrip_bytes mem w set Hw) as [Hlb' Hlv'].
    destruct (rstrip_bytes mem _ set Hlv') as [Hrb' _].
    rewrite Hrb', Hlb'. reflexivity. }
  split; [apply Heq; exact Hv|]. split; [apply Hbytes; exact Hv|].
  rewrite Hbytes by (rewrite Heq by exact Hv; exact Hrv).
  rewrite (Hbytes v Hv). apply drop_both_idempotent.
Qed.

Lemma strip_is_rstrip_of_lstrip_witness :
  string_view.strip examples.mem_padded examples.padded examples.blank
  = string_view.rstrip examples.mem_padded
      (string_view.lstrip examples.mem_padded examples.padded examples.blank)
      examples.blank.
Proof.
  exact (proj1 (strip_is_rstrip_of_lstrip examples.mem_padded examples.padded
                  examples.blank ltac:(unfold valid; cbn; lia))).
Defined.

(** X4.  [string_view::isdigit] is true exactly for the non-empty views
    whose bytes all are among '0' to '8': [digits_set] is built from the
    ten-element array [digits], which holds no terminator, by the array
    constructor, which leaves the last element '9' out; a view that holds a
    '9' is rejected. *)
Theorem isdigit_accepts_zero_to_eight (mem : memory) (v : string_view.t) :
  valid v ->
  (string_view.isdigit mem v = true
   <-> string_view.to_list mem v <> []
       /\ Forall (fun c => In c (list_byte_of_string "012345678"))
            (string_view.to_list mem v))
  /\ (In "9"%byte (string_view.to_list mem v) -> string_view.isdigit mem v = false).
Proof.
  intros Hv.
  assert (Hiff : string_view.isdigit mem v = true
                 <-> string_view.to_list mem v <> []
                     /\ Forall (fun c => In c (list_byte_of_string "012345678"))
                          (string_view.to_list mem v)).
  { unfold string_view.isdigit, string_view.empty.
    rewrite andb_true_iff, negb_true_iff, Z.eqb_neq, (contains_only_iff mem v _ Hv).
    assert (Hne : string_view.length_ v <> 0 <-> string_view.to_list mem v <> []).
    { rewrite <- (to_list_length_Z mem v Hv).
      destruct (string_view.to_list mem v); cbn [List.length]; split; intros H;
        try congruence; try lia. }
    rewrite Hne.
    assert (Hall : forall l,
               Forall (fun c => character_set.contains digits_set c = true) l
               <-> Forall (fun c => In c (list_byte_of_string "012345678")) l).
    { intros l. rewrite !Forall_forall. split; intros Hl c Hc;
        apply digits_set_members, Hl, Hc. }
    rewrite Hall. reflexivity. }
  split; [exact Hiff|].
  intros Hnine. destruct (string_view.isdigit mem v) eqn:Hd; [exfalso | reflexivity].
  destruct (proj1 Hiff eq_refl) as [_ Hall]. rewrite Forall_forall in Hall.
  specialize (Hall _ Hnine). cbn in Hall.
  repeat (destruct Hall as [Hall|Hall]; [discriminate|]). exact Hall.
Qed.

Lemma isdigit_accepts_zero_to_eight_witness :
  string_view.isdigit examples.mem_years examples.y1999 = false.
Proof.
  exact (proj2 (isdigit_accepts_zero_to_eight examples.mem_years examples.y1999
                  ltac:(unfold valid; cbn; lia))
           ltac:(vm_compute; auto 10)).
Defined.

(* ------------------------------------------------------------------------- *)
(** ** The backward ranges *)

Lemma remove_suffix_in_range (v : string_view.t) (n : Z) :
  valid v -> 0 <= n <= string_view.size v ->
  string_view.remove_suffix v n
  = Some (string_view.mk (string_view.start_ v) (string_view.size v - n)).
Proof.
  intros Hv Hn. unfold string_view.remove_suffix, string_view.size, valid in *.
  destruct (Z.leb_spec n (string_view.length_ v)); [|lia].
  rewrite wrap_small by lia. reflexivity.
Qed.

Section BackwardRanges.

Context {M : Type} `{matcher M}.
Variable mem : memory.
Variable m : M.

(** A located match lies within the searched region and is not empty. *)
Hypothesis locate_in_range :
  forall r, valid r -> locate mem m r <> string_view.npos ->
            0 <= locate mem m r
            /\ 0 < needle_length m
            /\ locate mem m r + needle_length m <= string_view.length_ r.

(** The scan resumes before the match end and within the match. *)
Hypothesis skip_in_range :
  0 < needle_length m -> 0 < skip_length m <= needle_length m.

(** The start pointer of the haystack. *)
Variable hbegin : Z.

Local Abbreviation prefix := (prefix_of hbegin).

Lemma locate_nothing (s : Z) : locate mem m (string_view.mk s 0) = string_view.npos.
Proof.
  destruct (Z.eq_dec (locate mem m (string_view.mk s 0)) string_view.npos) as [|Hne];
    [assumption|].
  apply locate_in_range in Hne; [cbn in Hne; lia|].
  unfold valid, sz_size_max. cbn. lia.
Qed.

(** What the constructors trim off the end of a region. *)
Lemma tail_after_cases (r : string_view.t) :
  valid r ->
  (locate mem m r = string_view.npos
   /\ range_rmatches.iterator.tail_after m r (locate mem m r) = string_view.length_ r)
  \/ (locate mem m r <> string_view.npos
      /\ range_rmatches.iterator.tail_after m r (locate mem m r)
         = string_view.length_ r - locate mem m r - needle_length m).
Proof.
  intros Hv. unfold range_rmatches.iterator.tail_after, string_view.size.
  destruct (Z.eqb_spec (locate mem m r) string_view.npos) as [Hn|Hn]; cbn [negb].
  - left. split; [exact Hn | reflexivity].
  - right. split; [exact Hn|].
    destruct (locate_in_range r Hv Hn) as (Hp & Hl & Hle). unfold valid in Hv.
    rewrite (wrap_small (string_view.length_ r - locate mem m r)) by lia.
    rewrite wrap_small by lia. reflexivity.
Qed.

(** The iterator constructor of [range_rmatches] on a prefix [r]. *)
Lemma rmatches_make (r : string_view.t) :
  prefix r ->
  (locate mem m r = string_view.npos
   /\ range_rmatches.iterator.make mem r m
      = Some (range_rmatches.iterator.mk (string_view.mk hbegin 0) m))
  \/ (locate mem m r <> string_view.npos
      /\ range_rmatches.iterator.make mem r m
         = Some (range_rmatches.iterator.mk
                   (string_view.mk hbegin (locate mem m r + needle_length m)) m)).
Proof.
  intros [Hv Hb]. unfold range_rmatches.iterator.make.
  destruct (tail_after_cases r Hv) as [[Hn ->]|[Hn ->]].
  - left. split; [exact Hn|].
    rewrite remove_suffix_in_range by view_arith.
    unfold string_view.size. cbn [bind]. rewrite Hb, Z.sub_diag. reflexivity.
  - right. split; [exact Hn|].
    destruct (locate_in_range r Hv Hn) as (Hp & Hl & Hle).
    rewrite remove_suffix_in_range by view_arith.
    unfold string_view.size. cbn [bind]. rewrite Hb. do 3 f_equal. lia.
Qed.

(** [operator++] of [range_rmatches]: drop the skip off the end, then locate
    and trim as the constructor does. *)
Lemma rmatches_next (r : string_view.t) :
  range_rmatches.iterator.next mem (range_rmatches.iterator.mk r m)
  = (r1 <- string_view.remove_suffix r (skip_length m) ;;
     range_rmatches.iterator.make mem r1 m).
Proof. reflexivity. Qed.

(** The traversal of [range_rmatches] from the iterator built on a prefix
    [r] of the haystack reports exactly the backward matches of [r]. *)
Lemma rmatches_loop (last : range_rmatches.iterator.t M) :
  string_view.end_ (range_rmatches.iterator.remaining_ last) = hbegin ->
  forall (fuel : nat) (r : string_view.t),
    prefix r ->
    (Z.to_nat (string_view.length_ r) < fuel)%nat ->
    exists it l,
      range_rmatches.iterator.make mem r m = Some it
      /\ range_rmatches.loop mem fuel it last = Some l
      /\ reported_back mem m r l.
Proof.
  intros Hlast. induction fuel as [|fuel IH]; intros r Hs Hfuel; [lia|].
  pose proof Hs as [Hv Hb].
  destruct (rmatches_make r Hs) as [[Hn Hmk]|[Hn Hmk]]; rewrite Hmk.
  - eexists. exists []. split; [reflexivity|]. split; [|apply reported_back_none; exact Hn].
    cbn [range_rmatches.loop]. unfold range_rmatches.iterator.neq.
    rewrite Hlast. unfold string_view.end_.
    cbn [range_rmatches.iterator.remaining_ string_view.start_ string_view.length_].
    rewrite Z.add_0_r, Z.eqb_refl. reflexivity.
  - destruct (locate_in_range r Hv Hn) as (Hp & Hl & Hle).
    destruct (skip_in_range Hl) as [Hs1 Hs2].
    unfold valid in Hv.
    set (r1 := string_view.mk hbegin (locate mem m r + needle_length m - skip_length m)).
    assert (Hs' : prefix r1).
    { split; unfold r1, valid; cbn [string_view.start_ string_view.length_]; lia. }
    destruct (IH r1 Hs' ltac:(unfold r1; cbn [string_view.length_]; lia))
      as (it' & l' & Hmk' & Hloop' & Hrep').
    eexists. eexists. split; [reflexivity|]. split.
    + cbn [range_rmatches.loop]. unfold range_rmatches.iterator.neq.
      rewrite Hlast. unfold string_view.end_.
      cbn [range_rmatches.iterator.remaining_ string_view.start_ string_view.length_].
      destruct (Z.eqb_spec (hbegin + (locate mem m r + needle_length m)) hbegin); [lia|].
      cbn [negb].
      rewrite rmatches_next, remove_suffix_in_range by view_arith.
      cbn [bind string_view.start_ string_view.size string_view.length_].
      fold r1. rewrite Hmk'. cbn [bind]. rewrite Hloop'. cbn [bind]. reflexivity.
    + unfold range_rmatches.iterator.deref.
      cbn [range_rmatches.iterator.remaining_ range_rmatches.iterator.matcher_].
      unfold string_view.size. cbn [string_view.length_].
      replace (locate mem m r + needle_length m - needle_length m)
        with (locate mem m r) by lia.
      rewrite (wrap_small (locate mem m r)) by lia.
      rewrite substr_from_in_range by view_arith.
      cbn [string_view.start_ string_view.size string_view.length_].
      replace (locate mem m r + needle_length m - locate mem m r)
        with (needle_length m) by lia.
      rewrite <- Hb. apply reported_back_match; [exact Hn|].
      rewrite Hb. exact Hrep'.
Qed.

(** Matches reported backward lie within the scanned region, each starting
    at least [skip_length] bytes before the one reported before it. *)
Lemma reported_back_decreasing (r : string_view.t) (l : list string_view.t) :
  valid r -> reported_back mem m r l ->
  Forall (fun v => string_view.start_ r <= string_view.begin v
                   /\ string_view.begin v + needle_length m <= string_view.end_ r) l
  /\ StronglySorted (fun a b => b + skip_length m <= a) (map string_view.begin l).
Proof.
  intros Hv Hrep. induction Hrep as [r Hn | r rest Hn Hrep IH].
  - split; constructor.
  - destruct (locate_in_range r Hv Hn) as (Hp & Hl & Hle).
    destruct (skip_in_range Hl) as [Hs1 Hs2].
    destruct IH as [Hin Hsorted]; [view_arith|].
    unfold string_view.end_ in *. cbn [string_view.start_ string_view.length_] in Hin.
    split.
    + constructor; [view_arith|].
      eapply Forall_impl; [|exact Hin]. cbn beta. intros v Hv'. lia.
    + cbn [map]. constructor; [exact Hsorted|].
      apply Forall_map. eapply Forall_impl; [|exact Hin].
      cbn beta. intros v Hv'. view_arith.
Qed.

(** The traversal of [range_rsplits] from the iterator built on a prefix
    [r] of the haystack yields exactly the backward gaps of [r]. *)
Lemma rsplits_loop (last : range_rsplits.iterator.t M) :
  string_view.end_ (range_rsplits.iterator.remaining_ last) = hbegin ->
  range_rsplits.iterator.reached_tail_ last = true ->
  forall (fuel : nat) (r : string_view.t),
    prefix r ->
    (S (Z.to_nat (string_view.length_ r)) < fuel)%nat ->
    exists gs,
      range_rsplits.loop mem fuel (range_rsplits.iterator.make mem r m) last = Some gs
      /\ gaps_back mem m r gs.
Proof.
  intros Hlast Htail. induction fuel as [|fuel IH]; intros r Hs Hfuel; [lia|].
  pose proof Hs as [Hv Hb]. pose proof Hv as Hv'. unfold valid in Hv'.
  unfold range_rsplits.iterator.make.
  destruct (tail_after_cases r Hv) as [[Hn Htl]|[Hn Htl]]; rewrite Htl.
  - (* no further match: the gap is the rest, then the tail is reached *)
    exists [r]. split; [|apply gaps_back_last; exact Hn].
    cbn [range_rsplits.loop]. unfold range_rsplits.iterator.neq at 1.
    cbn [range_rsplits.iterator.reached_tail_]. rewrite Htail.
    cbn [Bool.eqb negb]. rewrite orb_true_r.
    unfold range_rsplits.iterator.next, range_rsplits.iterator.deref.
    cbn [range_rsplits.iterator.remaining_ range_rsplits.iterator.matcher_
         range_rsplits.iterator.length_within_remaining_].
    rewrite remove_suffix_in_range by view_arith.
    unfold string_view.size, string_view.empty.
    cbn [bind string_view.length_ string_view.start_].
    rewrite Z.sub_diag, Z.eqb_refl. cbn [negb]. rewrite Z.mul_0_r.
    change (wrap 0) with 0.
    rewrite remove_suffix_in_range
      by (unfold sz_size_max; view_arith).
    cbn [bind string_view.start_ string_view.size string_view.length_].
    destruct fuel as [|fuel]; [lia|].
    cbn [range_rsplits.loop]. unfold range_rsplits.iterator.neq.
    rewrite Hlast, Htail. unfold string_view.end_.
    cbn [range_rsplits.iterator.remaining_ range_rsplits.iterator.reached_tail_
         string_view.start_ string_view.length_].
    replace (string_view.start_ r + (0 - 0)) with hbegin by lia.
    rewrite Z.eqb_refl. cbn [negb Bool.eqb orb bind].
    change (wrap 0) with 0.
    rewrite substr_from_in_range by view_arith.
    unfold string_view.size. rewrite Z.add_0_r, Z.sub_0_r.
    destruct r; reflexivity.
  - (* a match at offset [p]: the gap after it, then up to the needle *)
    destruct (locate_in_range r Hv Hn) as (Hp & Hl & Hle).
    set (r1 := string_view.mk (string_view.start_ r) (locate mem m r)).
    assert (Hs' : prefix r1).
    { split; unfold r1, valid; cbn [string_view.start_ string_view.length_]; lia. }
    destruct (IH r1 Hs' ltac:(unfold r1; cbn [string_view.length_]; lia))
      as (gs' & Hloop' & Hgaps').
    exists (string_view.mk (string_view.start_ r + locate mem m r + needle_length m)
              (string_view.length_ r - locate mem m r - needle_length m) :: gs').
    split; [|apply gaps_back_match; assumption].
    cbn [range_rsplits.loop]. unfold range_rsplits.iterator.neq at 1.
    cbn [range_rsplits.iterator.reached_tail_]. rewrite Htail.
    cbn [Bool.eqb negb]. rewrite orb_true_r.
    unfold range_rsplits.iterator.next, range_rsplits.iterator.deref.
    cbn [range_rsplits.iterator.remaining_ range_rsplits.iterator.matcher_
         range_rsplits.iterator.length_within_remaining_].
    rewrite remove_suffix_in_range by view_arith.
    unfold string_view.size, string_view.empty.
    cbn [bind string_view.length_ string_view.start_].
    replace (string_view.length_ r
             - (string_view.length_ r - locate mem m r - needle_length m))
      with (locate mem m r + needle_length m) by lia.
    destruct (Z.eqb_spec (locate mem m r + needle_length m) 0); [lia|].
    cbn [negb]. rewrite Z.mul_1_r, (wrap_small (needle_length m)) by lia.
    rewrite remove_suffix_in_range by view_arith.
    cbn [bind string_view.start_ string_view.size string_view.length_].
    replace (locate mem m r + needle_length m - needle_length m)
      with (locate mem m r) by lia.
    unfold range_rsplits.iterator.make, r1 in Hloop'. rewrite Hloop'. cbn [bind].
    rewrite (wrap_small (locate mem m r + needle_length m)) by lia.
    rewrite substr_from_in_range by view_arith.
    unfold string_view.size. do 3 f_equal; lia.
Qed.

Lemma gaps_back_nonempty (r : string_view.t) (gs : list string_view.t) :
  gaps_back mem m r gs -> gs <> [].
Proof. intros Hg. destruct Hg; discriminate. Qed.

(** One gap more than non-overlapping backward matches. *)
Lemma gaps_back_one_more (r : string_view.t) (gs ms : list string_view.t) :
  skip_length m = needle_length m ->
  gaps_back mem m r gs -> reported_back mem m r ms ->
  List.length gs = S (List.length ms).
Proof.
  intros Hskip Hgaps. revert ms.
  induction Hgaps as [r Hn | r rest Hn Hgaps IH]; intros ms Hrep.
  - inversion Hrep; subst; [reflexivity | contradiction].
  - inversion Hrep as [|r' rest' Hn' Hrep']; subst; [contradiction|].
    cbn [List.length]. f_equal. apply IH.
    rewrite Hskip in Hrep'.
    replace (locate mem m r + needle_length m - needle_length m)
      with (locate mem m r) in Hrep' by lia.
    exact Hrep'.
Qed.

(** The full traversal of the reverse match range over the haystack [h]. *)
Lemma rmatches_to (h : string_view.t) :
  valid h -> string_view.begin h = hbegin ->
  exists l,
    range_rmatches.to mem (range_rmatches.mk m h) = Some l
    /\ reported_back mem m h l.
Proof.
  intros Hv Hb. unfold range_rmatches.to, range_rmatches.begin, range_rmatches.end_.
  cbn [range_rmatches.haystack_ range_rmatches.matcher_].
  assert (Hse : prefix (string_view.mk (string_view.begin h) 0)).
  { split; [unfold valid, sz_size_max; cbn; lia|]. exact Hb. }
  destruct (rmatches_make _ Hse) as [[_ Hmk]|[Hn _]];
    [|exfalso; apply Hn; apply locate_nothing].
  destruct (rmatches_loop (range_rmatches.iterator.mk (string_view.mk hbegin 0) m)
              ltac:(unfold string_view.end_; cbn; lia)
              (S (Z.to_nat (string_view.size h))) h (conj Hv Hb)
              ltac:(unfold string_view.size; lia))
    as (it & l & Hbg & Hloop & Hrep).
  exists l. split; [|exact Hrep].
  rewrite Hbg, Hmk. cbn [bind]. exact Hloop.
Qed.

(** The full traversal of the reverse split range over the haystack [h]. *)
Lemma rsplits_to (h : string_view.t) :
  valid h -> string_view.begin h = hbegin ->
  exists gs,
    range_rsplits.to mem (range_rsplits.mk h m) = Some gs
    /\ gaps_back mem m h gs.
Proof.
  intros Hv Hb. unfold range_rsplits.to, range_rsplits.begin, range_rsplits.end_.
  cbn [range_rsplits.haystack_ range_rsplits.matcher_].
  apply rsplits_loop.
  - unfold string_view.end_, string_view.begin in *. cbn. lia.
  - reflexivity.
  - split; assumption.
  - unfold string_view.size. lia.
Qed.

End BackwardRanges.

(* ------------------------------------------------------------------------- *)
(** ** Exhaustive scans *)

Lemma seq_from (p n : nat) : seq p n = map (Nat.add p) (seq 0 n).
Proof.
  revert p. induction n as [|n IH]; intros p; [reflexivity|].
  cbn [seq map]. rewrite Nat.add_0_r. f_equal.
  rewrite (IH (S p)), (IH 1%nat), map_map. apply map_ext. intros i. lia.
Qed.

Lemma addresses_app (s a b : Z) :
  0 <= a -> 0 <= b -> addresses s (a + b) = addresses s a ++ addresses (s + a) b.
Proof.
  intros Ha Hb. unfold addresses. rewrite Z2Nat.inj_add by lia.
  rewrite seq_app, map_app. f_equal. cbn [Nat.add].
  rewrite seq_from, map_map. apply map_ext. intros i. lia.
Qed.

Lemma addresses_nil (s k : Z) : k <= 0 -> addresses s k = [].
Proof.
  intros Hk. unfold addresses. replace (Z.to_nat k) with 0%nat by lia. reflexivity.
Qed.

Lemma addresses_cons (s k : Z) : 0 < k -> addresses s k = s :: addresses (s + 1) (k - 1).
Proof.
  intros Hk. replace k with (1 + (k - 1)) at 1 by lia.
  rewrite addresses_app by lia. unfold addresses at 1.
  change (Z.to_nat 1) with 1%nat. cbn [seq map Z.of_nat app]. rewrite Z.add_0_r.
  reflexivity.
Qed.

Lemma in_addresses (s k a : Z) : In a (addresses s k) <-> s <= a < s + k.
Proof.
  unfold addresses. rewrite in_map_iff. split.
  - intros (i & <- & Hi). apply in_seq in Hi. lia.
  - intros Ha. exists (Z.to_nat (a - s)). split; [lia|]. apply in_seq. lia.
Qed.

Lemma filter_nothing {A : Type} (p : A -> bool) (l : list A) :
  (forall x, In x l -> p x = false) -> filter p l = [].
Proof.
  induction l as [|x l IH]; intros Hall; [reflexivity|].
  cbn [filter]. rewrite (Hall x (or_introl eq_refl)). apply IH.
  intros y Hy. apply Hall. right. exact Hy.
Qed.

Lemma filter_map_swap {A B : Type} (f : A -> B) (p : B -> bool) (l : list A) :
  filter p (map f l) = map f (filter (fun x => p (f x)) l).
Proof.
  induction l as [|x l IH]; [reflexivity|]. cbn [map filter].
  destruct (p (f x)); cbn [map]; rewrite IH; reflexivity.
Qed.

Lemma addresses_from (s k : Z) : addresses s k = map (fun q => s + q) (addresses 0 k).
Proof. unfold addresses. rewrite map_map. reflexivity. Qed.

(** The hits of [occ] among the addresses of a region cut at one hit: those
    before it, the hit, those after it. *)
Lemma hits_around (occ : Z -> bool) (s p k : Z) :
  0 <= p < k -> occ (s + p) = true ->
  filter occ (addresses s k)
  = filter occ (addresses s p) ++ (s + p) :: filter occ (addresses (s + p + 1) (k - p - 1)).
Proof.
  intros Hp Hocc. replace k with (p + (k - p)) at 1 by lia.
  rewrite addresses_app, filter_app by lia. f_equal.
  rewrite addresses_cons by lia. cbn [filter]. rewrite Hocc. reflexivity.
Qed.

Section ExhaustiveForward.

Context {M : Type} `{matcher M}.
Variable mem : memory.
Variable m : M.

(** Where a match of [needle_length m] bytes starts. *)
Variable occ : Z -> bool.

Hypothesis width_positive : 0 < needle_length m.
Hypothesis one_step : skip_length m = 1.

Hypothesis located_first :
  forall r, valid r -> locate mem m r <> string_view.npos ->
            0 <= locate mem m r
            /\ locate mem m r + needle_length m <= string_view.length_ r
            /\ occ (string_view.start_ r + locate mem m r) = true
            /\ forall a, string_view.start_ r <= a < string_view.start_ r + locate mem m r ->
                         occ a = false.

Hypothesis not_located :
  forall r, valid r -> locate mem m r = string_view.npos ->
            forall a, string_view.start_ r <= a ->
                      a + needle_length m <= string_view.start_ r + string_view.length_ r ->
                      occ a = false.

(** A forward scan that steps by one byte reports every match start of the
    region, in ascending order. *)
Lemma reported_every (r : string_view.t) (l : list string_view.t) :
  valid r -> reported mem m r l ->
  l = map (fun a => string_view.mk a (needle_length m))
          (filter occ (addresses (string_view.start_ r)
                         (string_view.length_ r - needle_length m + 1))).
Proof.
  intros Hv Hrep. induction Hrep as [r Hn | r rest Hn Hrep IH].
  - rewrite filter_nothing; [reflexivity|].
    intros a Ha. apply in_addresses in Ha. apply (not_located r Hv Hn); lia.
  - destruct (located_first r Hv Hn) as (Hp & Hle & Hocc & Hmin).
    unfold valid in Hv.
    rewrite (hits_around occ _ (locate mem m r)) by (auto; lia).
    rewrite (filter_nothing occ (addresses _ (locate mem m r)))
      by (intros a Ha; apply in_addresses in Ha; apply Hmin; lia).
    cbn [app map]. f_equal.
    rewrite IH by view_arith. rewrite one_step.
    cbn [string_view.start_ string_view.length_]. do 3 f_equal. lia.
Qed.

End ExhaustiveForward.

Section ExhaustiveBackward.

Context {M : Type} `{matcher M}.
Variable mem : memory.
Variable m : M.
Variable occ : Z -> bool.

Hypothesis width_positive : 0 < needle_length m.
Hypothesis one_step : skip_length m = 1.

Hypothesis located_last :
  forall r, valid r -> locate mem m r <> string_view.npos ->
            0 <= locate mem m r
            /\ locate mem m r + needle_length m <= string_view.length_ r
            /\ occ (string_view.start_ r + locate mem m r) = true
            /\ forall a, string_view.start_ r + locate mem m r < a ->
                         a + needle_length m <= string_view.start_ r + string_view.length_ r ->
                         occ a = false.

Hypothesis not_located :
  forall r, valid r -> locate mem m r = string_view.npos ->
            forall a, string_view.start_ r <= a ->
                      a + needle_length m <= string_view.start_ r + string_view.length_ r ->
                      occ a = false.

(** A backward scan that steps by one byte reports every match start of the
    region, in descending order. *)
Lemma reported_back_every (r : string_view.t) (l : list string_view.t) :
  valid r -> reported_back mem m r l ->
  l = rev (map (fun a => string_view.mk a (needle_length m))
             (filter occ (addresses (string_view.start_ r)
                            (string_view.length_ r - needle_length m + 1)))).
Proof.
  intros Hv Hrep. induction Hrep as [r Hn | r rest Hn Hrep IH].
  - rewrite filter_nothing; [reflexivity|].
    intros a Ha. apply in_addresses in Ha. apply (not_located r Hv Hn); lia.
  - destruct (located_last r Hv Hn) as (Hp & Hle & Hocc & Hmax).
    unfold valid in Hv.
    rewrite (hits_around occ _ (locate mem m r)) by (auto; lia).
    rewrite (filter_nothing occ (addresses (_ + 1) _))
      by (intros a Ha; apply in_addresses in Ha; apply Hmax; lia).
    rewrite map_app, rev_app_distr. cbn [map rev app]. f_equal.
    rewrite IH by view_arith. rewrite one_step.
    cbn [string_view.start_ string_view.length_]. do 5 f_equal. lia.
Qed.

End ExhaustiveBackward.

(* ------------------------------------------------------------------------- *)
(** ** Gaps as the slices between matches *)

Lemma cuts_snoc (width s e p : Z) (ps : list Z) :
  cuts width s e (ps ++ [p])
  = cuts width s p ps ++ [string_view.mk (p + width) (e - (p + width))].
Proof.
  revert s. induction ps as [|a ps IH]; intros s; cbn [app cuts]; [reflexivity|].
  rewrite IH. reflexivity.
Qed.

Lemma cuts_length (width s e : Z) (ps : list Z) :
  List.length (cuts width s e ps) = S (List.length ps).
Proof.
  revert s. induction ps as [|a ps IH]; intros s; cbn [cuts List.length]; [reflexivity|].
  rewrite IH. reflexivity.
Qed.

Section Cuts.

Context {M : Type} `{matcher M}.
Variable mem : memory.
Variable m : M.

Hypothesis locate_in_range :
  forall r, valid r -> locate mem m r <> string_view.npos ->
            0 <= locate mem m r
            /\ 0 < needle_length m
            /\ locate mem m r + needle_length m <= string_view.length_ r.

Hypothesis whole_step : skip_length m = needle_length m.

(** The gaps of a forward scan are the slices between its non-overlapping
    matches. *)
Lemma gaps_are_cuts (r : string_view.t) (gs ms : list string_view.t) :
  valid r -> gaps_of mem m r gs -> reported mem m r ms ->
  gs = cuts (needle_length m) (string_view.start_ r) (string_view.end_ r)
            (map string_view.begin ms).
Proof.
  intros Hv Hgaps. revert ms.
  induction Hgaps as [r Hn | r rest Hn Hgaps IH]; intros ms Hrep.
  - inversion Hrep; subst; [|contradiction]. cbn [map cuts]. unfold string_view.end_.
    rewrite <- (view_eta r) at 1. do 2 f_equal. lia.
  - inversion Hrep as [|r' rest' Hn' Hrep']; subst; [contradiction|].
    destruct (locate_in_range r Hv Hn) as (Hp & Hl & Hle). unfold valid in Hv.
    rewrite whole_step in Hrep'.
    cbn [map cuts string_view.begin string_view.start_]. f_equal; [f_equal; lia|].
    rewrite (IH ltac:(view_arith) rest' Hrep').
    unfold string_view.end_. cbn [string_view.start_ string_view.length_].
    f_equal. lia.
Qed.

(** The gaps of a backward scan are the same slices, last one first. *)
Lemma gaps_back_are_cuts (r : string_view.t) (gs ms : list string_view.t) :
  valid r -> gaps_back mem m r gs -> reported_back mem m r ms ->
  gs = rev (cuts (needle_length m) (string_view.start_ r) (string_view.end_ r)
              (rev (map string_view.begin ms))).
Proof.
  intros Hv Hgaps. revert ms.
  induction Hgaps as [r Hn | r rest Hn Hgaps IH]; intros ms Hrep.
  - inversion Hrep; subst; [|contradiction]. cbn [map rev cuts app].
    unfold string_view.end_.
    rewrite <- (view_eta r) at 1. do 2 f_equal. lia.
  - inversion Hrep as [|r' rest' Hn' Hrep']; subst; [contradiction|].
    destruct (locate_in_range r Hv Hn) as (Hp & Hl & Hle). unfold valid in Hv.
    rewrite whole_step in Hrep'.
    replace (locate mem m r + needle_length m - needle_length m)
      with (locate mem m r) in Hrep' by lia.
    cbn [map rev string_view.begin string_view.start_].
    rewrite cuts_snoc, rev_app_distr. cbn [rev app]. f_equal.
    + unfold string_view.end_. f_equal; lia.
    + rewrite (IH ltac:(view_arith) rest' Hrep').
      unfold string_view.end_. cbn [string_view.start_ string_view.length_].
      reflexivity.
Qed.

End Cuts.

(* ------------------------------------------------------------------------- *)
(** ** The matchers [matcher_rfind], [matcher_find_first_of] and
       [matcher_find_last_of] *)

Lemma matcher_rfind_locate (mem : memory) (D : string_view.t) (overlap : bool)
      (r : string_view.t) :
  locate mem (matcher_rfind.make D overlap) r = string_view.rfind mem r D.
Proof. reflexivity. Qed.

Lemma matcher_rfind_needle_length (D : string_view.t) (overlap : bool) :
  needle_length (matcher_rfind.make D overlap) = string_view.length_ D.
Proof. reflexivity. Qed.

Lemma matcher_rfind_in_range (mem : memory) (D : string_view.t) (overlap : bool) :
  valid D ->
  forall r, valid r ->
            locate mem (matcher_rfind.make D overlap) r <> string_view.npos ->
            0 <= locate mem (matcher_rfind.make D overlap) r
            /\ 0 < needle_length (matcher_rfind.make D overlap)
            /\ locate mem (matcher_rfind.make D overlap) r
               + needle_length (matcher_rfind.make D overlap)
               <= string_view.length_ r.
Proof.
  intros HD r Hr Hn. rewrite matcher_rfind_locate, matcher_rfind_needle_length in *.
  destruct (rfind_found mem r D Hr HD Hn) as (Hp & Hl & Hle & _).
  auto.
Qed.

Lemma matcher_rfind_skip (D : string_view.t) (overlap : bool) :
  0 < needle_length (matcher_rfind.make D overlap) ->
  0 < skip_length (matcher_rfind.make D overlap)
      <= needle_length (matcher_rfind.make D overlap).
Proof. cbn. unfold string_view.length. destruct overlap; cbn; lia. Qed.

Lemma matcher_rfind_skip_length (D : string_view.t) (overlap : bool) :
  skip_length (matcher_rfind.make D overlap)
  = if overlap then 1 else string_view.size D.
Proof. reflexivity. Qed.

(** The gaps of a backward scan do not depend on the overlap policy. *)
Lemma gaps_back_any_overlap (mem : memory) (D : string_view.t) (a b : bool)
      (r : string_view.t) (gs : list string_view.t) :
  gaps_back mem (matcher_rfind.make D a) r gs -> gaps_back mem (matcher_rfind.make D b) r gs.
Proof.
  intros Hg. induction Hg as [r Hn | r rest Hn Hg IH].
  - apply gaps_back_last. exact Hn.
  - change (locate mem (matcher_rfind.make D a) r)
      with (locate mem (matcher_rfind.make D b) r) in *.
    change (needle_length (matcher_rfind.make D a))
      with (needle_length (matcher_rfind.make D b)) in *.
    apply gaps_back_match; [exact Hn | exact IH].
Qed.

Lemma reported_back_occurrences (mem : memory) (D : string_view.t) (overlap : bool)
      (r : string_view.t) (l : list string_view.t) :
  valid D -> valid r ->
  reported_back mem (matcher_rfind.make D overlap) r l ->
  Forall (fun v => string_view.to_list mem v = string_view.to_list mem D) l.
Proof.
  intros HD Hr Hrep. induction Hrep as [r Hn | r rest Hn Hrep IH]; constructor.
  - rewrite matcher_rfind_locate, matcher_rfind_needle_length in *.
    destruct (rfind_found mem r D Hr HD Hn) as (_ & _ & _ & Heq & _).
    rewrite (sz_equal_to_list _ _ _ _ Heq). destruct D; reflexivity.
  - apply IH.
    destruct (matcher_rfind_in_range mem D overlap HD r Hr Hn) as (Hp & Hl & Hle).
    pose proof (matcher_rfind_skip D overlap Hl). view_arith.
Qed.

Lemma join_snoc (d g : list byte) (l : list (list byte)) :
  l <> [] -> join d (l ++ [g]) = join d l ++ d ++ g.
Proof.
  induction l as [|a l IH]; intros Hne; [contradiction|].
  destruct l as [|b l].
  - reflexivity.
  - change ((a :: b :: l) ++ [g]) with (a :: b :: (l ++ [g])).
    rewrite !join_cons. change (b :: l ++ [g]) with ((b :: l) ++ [g]).
    rewrite IH by discriminate. rewrite <- !app_assoc. reflexivity.
Qed.

(** The gaps of a backward scan, taken front to back and joined by the
    needle, are the region. *)
Lemma gaps_back_join (mem : memory) (D : string_view.t) (overlap : bool)
      (r : string_view.t) (gs : list string_view.t) :
  valid D -> valid r ->
  gaps_back mem (matcher_rfind.make D overlap) r gs ->
  join (string_view.to_list mem D) (map (string_view.to_list mem) (rev gs))
  = string_view.to_list mem r.
Proof.
  intros HD Hr Hg. induction Hg as [r Hn | r rest Hn Hg IH].
  - reflexivity.
  - pose proof (gaps_back_nonempty mem _ _ _ Hg) as Hne.
    destruct (matcher_rfind_in_range mem D overlap HD r Hr Hn) as (Hp & Hl & Hle).
    rewrite matcher_rfind_locate, matcher_rfind_needle_length in *.
    destruct (rfind_found mem r D Hr HD Hn) as (_ & _ & _ & Heq & _).
    specialize (IH ltac:(view_arith)).
    cbn [rev]. rewrite map_app. cbn [map].
    rewrite join_snoc
      by (intros Hnil; apply map_eq_nil in Hnil;
          apply (f_equal (@rev _)) in Hnil; rewrite rev_involutive in Hnil;
          contradiction).
    rewrite IH.
    replace (string_view.to_list mem D)
      with (string_view.to_list mem
              (string_view.mk (string_view.start_ r + string_view.rfind mem r D)
                              (string_view.length_ D)))
      by (rewrite (sz_equal_to_list _ _ _ _ Heq); destruct D; reflexivity).
    unfold valid in Hr.
    rewrite <- to_list_app by lia. rewrite <- to_list_app by lia.
    transitivity (string_view.to_list mem
                    (string_view.mk (string_view.start_ r) (string_view.length_ r)));
      [do 2 f_equal; lia | rewrite view_eta; reflexivity].
Qed.

Lemma sorted_offsets_by (R : Z -> Z -> Prop) (h : string_view.t) (l : list string_view.t) :
  (forall a b c, R a b -> R (a - c) (b - c)) ->
  StronglySorted R (map string_view.begin l) ->
  StronglySorted R (offsets_in h l).
Proof.
  intros Hshift. unfold offsets_in.
  induction l as [|v l IH]; cbn [map]; intros Hs; [constructor|].
  inversion Hs as [|x xs Hs' Hall]; subst. constructor; [apply IH; exact Hs'|].
  apply <- Forall_map. apply -> Forall_map in Hall.
  eapply Forall_impl; [|exact Hall]. cbn beta. intros w Hw. apply Hshift. exact Hw.
Qed.

Lemma hits_as_offsets (occ : Z -> bool) (h : string_view.t) (width k : Z) :
  map (fun a => string_view.mk a width) (filter occ (addresses (string_view.start_ h) k))
  = slices_at h width
      (filter (fun q => occ (string_view.start_ h + q)) (addresses 0 k)).
Proof.
  unfold slices_at. rewrite addresses_from, filter_map_swap, map_map. reflexivity.
Qed.

Lemma find_located_first (mem : memory) (D : string_view.t) :
  valid D ->
  forall r, valid r -> locate mem (matcher_find.make D true) r <> string_view.npos ->
            0 <= locate mem (matcher_find.make D true) r
            /\ locate mem (matcher_find.make D true) r
               + needle_length (matcher_find.make D true) <= string_view.length_ r
            /\ occurs_at mem D (string_view.start_ r + locate mem (matcher_find.make D true) r)
               = true
            /\ forall a, string_view.start_ r <= a
                         < string_view.start_ r + locate mem (matcher_find.make D true) r ->
                         occurs_at mem D a = false.
Proof.
  intros HD r Hr Hn. rewrite matcher_find_locate, matcher_find_needle_length in *.
  destruct (find_found mem r D Hr HD Hn) as (Hp & Hl & Hle & Heq & Hmin).
  repeat split; try assumption.
  intros a Ha. unfold occurs_at.
  replace a with (string_view.start_ r + (a - string_view.start_ r)) by lia.
  apply Hmin. lia.
Qed.

Lemma find_not_located (mem : memory) (D : string_view.t) :
  valid D -> 0 < string_view.length_ D ->
  forall r, valid r -> locate mem (matcher_find.make D true) r = string_view.npos ->
            forall a, string_view.start_ r <= a ->
                      a + needle_length (matcher_find.make D true)
                      <= string_view.start_ r + string_view.length_ r ->
                      occurs_at mem D a = false.
Proof.
  intros HD Hpos r Hr Hn a Ha Hle.
  rewrite matcher_find_locate, matcher_find_needle_length in *. unfold occurs_at.
  replace a with (string_view.start_ r + (a - string_view.start_ r)) by lia.
  apply (find_not_found mem r D Hr HD Hn Hpos); lia.
Qed.

Lemma rfind_located_last (mem : memory) (D : string_view.t) :
  valid D ->
  forall r, valid r -> locate mem (matcher_rfind.make D true) r <> string_view.npos ->
            0 <= locate mem (matcher_rfind.make D true) r
            /\ locate mem (matcher_rfind.make D true) r
               + needle_length (matcher_rfind.make D true) <= string_view.length_ r
            /\ occurs_at mem D (string_view.start_ r + locate mem (matcher_rfind.make D true) r)
               = true
            /\ forall a, string_view.start_ r + locate mem (matcher_rfind.make D true) r < a ->
                         a + needle_length (matcher_rfind.make D true)
                         <= string_view.start_ r + string_view.length_ r ->
                         occurs_at mem D a = false.
Proof.
  intros HD r Hr Hn. rewrite matcher_rfind_locate, matcher_rfind_needle_length in *.
  destruct (rfind_found mem r D Hr HD Hn) as (Hp & Hl & Hle & Heq & Hmax).
  repeat split; try assumption.
  intros a Ha Hale. unfold occurs_at.
  replace a with (string_view.start_ r + (a - string_view.start_ r)) by lia.
  apply Hmax; lia.
Qed.

Lemma rfind_not_located (mem : memory) (D : string_view.t) :
  valid D -> 0 < string_view.length_ D ->
  forall r, valid r -> locate mem (matcher_rfind.make D true) r = string_view.npos ->
            forall a, string_view.start_ r <= a ->
                      a + needle_length (matcher_rfind.make D true)
                      <= string_view.start_ r + string_view.length_ r ->
                      occurs_at mem D a = false.
Proof.
  intros HD Hpos r Hr Hn a Ha Hle.
  rewrite matcher_rfind_locate, matcher_rfind_needle_length in *. unfold occurs_at.
  replace a with (string_view.start_ r + (a - string_view.start_ r)) by lia.
  apply (rfind_not_found mem r D Hr HD Hn Hpos); lia.
Qed.

(** X17.  [find_all(needle)] with overlaps allowed, for a needle that is
    not empty, reports every offset of the haystack at which the needle
    occurs, each once, in ascending order, as slices of the needle's
    length. *)
Theorem find_all_reports_every_occurrence (mem : memory) (H D : string_view.t) :
  valid H -> valid D -> 0 < string_view.size D ->
  range_matches.to mem (string_view_ranges.find_all H D true)
  = Some (slices_at H (string_view.size D) (occurrences mem H D)).
Proof.
  intros HH HD Hpos. unfold string_view_ranges.find_all, string_view.size in *.
  destruct (matches_to mem (matcher_find.make D true)
              (matcher_find_in_range mem D true HD)
              (matcher_find_skip D true)
              (string_view.end_ H) H HH eq_refl) as (l & Hto & Hrep).
  rewrite Hto. f_equal.
  rewrite (reported_every (H := matcher_find.ops) mem (matcher_find.make D true) (occurs_at mem D) Hpos eq_refl
             (find_located_first mem D HD) (find_not_located mem D HD Hpos) H l HH Hrep).
  rewrite matcher_find_needle_length. apply hits_as_offsets.
Qed.

Lemma find_all_reports_every_occurrence_witness :
  range_matches.to examples.mem_aaaa
    (string_view_ranges.find_all examples.aaaa examples.aa true)
  = Some (slices_at examples.aaaa (string_view.size examples.aa)
            (occurrences examples.mem_aaaa examples.aaaa examples.aa)).
Proof.
  exact (find_all_reports_every_occurrence examples.mem_aaaa examples.aaaa examples.aa
           ltac:(unfold valid; cbn; lia) ltac:(unfold valid; cbn; lia)
           ltac:(cbn; lia)).
Defined.

(** X20.  With overlaps allowed and a needle that is not empty,
    [rfind_all(needle)] reports the matches of [find_all(needle)] in reverse
    order: every occurrence, last one first. *)
Theorem rfind_all_reverses_find_all (mem : memory) (H D : string_view.t) :
  valid H -> valid D -> 0 < string_view.size D ->
  range_rmatches.to mem (string_view_ranges.rfind_all H D true)
  = Some (rev (slices_at H (string_view.size D) (occurrences mem H D)))
  /\ range_rmatches.to mem (string_view_ranges.rfind_all H D true)
     = option_map (@rev _) (range_matches.to mem (string_view_ranges.find_all H D true)).
Proof.
  intros HH HD Hpos.
  assert (Hback : range_rmatches.to mem (string_view_ranges.rfind_all H D true)
                  = Some (rev (slices_at H (string_view.size D) (occurrences mem H D)))).
  { unfold string_view_ranges.rfind_all, string_view.size in *.
    destruct (rmatches_to mem (matcher_rfind.make D true)
                (matcher_rfind_in_range mem D true HD)
                (matcher_rfind_skip D true)
                (string_view.begin H) H HH eq_refl) as (l & Hto & Hrep).
    rewrite Hto. f_equal.
    rewrite (reported_back_every (H := matcher_rfind.ops) mem (matcher_rfind.make D true) (occurs_at mem D) Hpos eq_refl
               (rfind_located_last mem D HD) (rfind_not_located mem D HD Hpos) H l HH Hrep).
    rewrite matcher_rfind_needle_length. f_equal. apply hits_as_offsets. }
  split; [exact Hback|]. rewrite Hback.
  unfold string_view_ranges.find_all, string_view.size in *.
  destruct (matches_to mem (matcher_find.make D true)
              (matcher_find_in_range mem D true HD)
              (matcher_find_skip D true)
              (string_view.end_ H) H HH eq_refl) as (l & Hto & Hrep).
  rewrite Hto. cbn [option_map]. do 2 f_equal.
  rewrite (reported_every (H := matcher_find.ops) mem (matcher_find.make D true) (occurs_at mem D) Hpos eq_refl
             (find_located_first mem D HD) (find_not_located mem D HD Hpos) H l HH Hrep).
  rewrite matcher_find_needle_length. symmetry. apply hits_as_offsets.
Qed.

Lemma rfind_all_reverses_find_all_witness :
  range_rmatches.to examples.mem_aaaa
    (string_view_ranges.rfind_all examples.aaaa examples.aa true)
  = option_map (@rev _)
      (range_matches.to examples.mem_aaaa
         (string_view_ranges.find_all examples.aaaa examples.aa true)).
Proof.
  exact (proj2 (rfind_all_reverses_find_all examples.mem_aaaa examples.aaaa examples.aa
                  ltac:(unfold valid; cbn; lia) ltac:(unfold valid; cbn; lia)
                  ltac:(cbn; lia))).
Defined.

(** X19.  [rfind_all(needle)], under either overlap policy, terminates
    without tripping an assertion; every reported slice lies within the
    haystack and holds the needle's bytes; each match starts at least
    [skip_length] bytes (1 with overlaps, the needle length without) before
    the one reported before it; the first reported match is at the offset
    [rfind] reports, and nothing is reported exactly when [rfind] reports
    [npos]. *)
Theorem rfind_all_walks_backward (mem : memory) (H D : string_view.t) (overlap : bool) :
  valid H -> valid D ->
  exists l,
    range_rmatches.to mem (string_view_ranges.rfind_all H D overlap) = Some l
    /\ Forall (fun v => string_view.to_list mem v = string_view.to_list mem D
                        /\ string_view.begin H <= string_view.begin v
                        /\ string_view.end_ v <= string_view.end_ H) l
    /\ StronglySorted
         (fun a b => b + (if overlap then 1 else string_view.size D) <= a)
         (offsets_in H l)
    /\ match l with
       | [] => string_view.rfind mem H D = string_view.npos
       | v :: _ => string_view.rfind mem H D <> string_view.npos
                   /\ string_view.begin v - string_view.begin H = string_view.rfind mem H D
       end.
Proof.
  intros HH HD. unfold string_view_ranges.rfind_all.
  destruct (rmatches_to mem (matcher_rfind.make D overlap)
              (matcher_rfind_in_range mem D overlap HD)
              (matcher_rfind_skip D overlap)
              (string_view.begin H) H HH eq_refl) as (l & Hto & Hrep).
  exists l. split; [exact Hto|].
  destruct (reported_back_decreasing mem (matcher_rfind.make D overlap)
              (matcher_rfind_in_range mem D overlap HD)
              (matcher_rfind_skip D overlap) H l HH Hrep) as [Hin Hsorted].
  pose proof (reported_back_occurrences mem D overlap H l HD HH Hrep) as Hocc.
  split; [|split].
  - rewrite Forall_forall in *. intros v Hv. specialize (Hin v Hv). specialize (Hocc v Hv).
    split; [exact Hocc|].
    assert (Hlen : string_view.length_ v = string_view.length_ D).
    { clear - Hrep Hv. induction Hrep as [r Hn | r rest Hn Hrep IH]; [contradiction|].
      destruct Hv as [<-|Hv]; [reflexivity | apply IH; exact Hv]. }
    rewrite matcher_rfind_needle_length in Hin.
    unfold string_view.begin, string_view.end_ in *. lia.
  - rewrite <- matcher_rfind_skip_length.
    apply sorted_offsets_by; [intros a b c Hab; lia | exact Hsorted].
  - destruct Hrep as [r Hn | r rest Hn Hrep].
    + exact Hn.
    + split; [exact Hn|]. unfold string_view.begin. cbn [string_view.start_].
      rewrite matcher_rfind_locate. lia.
Qed.

Lemma rfind_all_walks_backward_witness :
  exists l,
    range_rmatches.to examples.mem_aaaa
      (string_view_ranges.rfind_all examples.aaaa examples.aa false) = Some l
    /\ Forall (fun v => string_view.to_list examples.mem_aaaa v
                        = string_view.to_list examples.mem_aaaa examples.aa
                        /\ string_view.begin examples.aaaa <= string_view.begin v
                        /\ string_view.end_ v <= string_view.end_ examples.aaaa) l
    /\ StronglySorted (fun a b => b + string_view.size examples.aa <= a)
         (offsets_in examples.aaaa l)
    /\ match l with
       | [] => string_view.rfind examples.mem_aaaa examples.aaaa examples.aa
               = string_view.npos
       | v :: _ =>
           string_view.rfind examples.mem_aaaa examples.aaaa examples.aa
           <> string_view.npos
           /\ string_view.begin v - string_view.begin examples.aaaa
              = string_view.rfind examples.mem_aaaa examples.aaaa examples.aa
       end.
Proof.
  exact (rfind_all_walks_backward examples.mem_aaaa examples.aaaa examples.aa false
           ltac:(unfold valid; cbn; lia) ltac:(unfold valid; cbn; lia)).
Defined.

(** X21.  The slices [split(delimiter)] yields are exactly the slices of
    the haystack that lie between the matches [find_all(delimiter)] reports
    without overlaps: from the start of the haystack to the first match,
    from the end of each match to the start of the next, and from the end of
    the last match to the end of the haystack; they are views into the
    haystack, not copies. *)
Theorem split_gaps_lie_between_matches (mem : memory) (H D : string_view.t) :
  valid H -> valid D ->
  exists ms,
    range_matches.to mem (string_view_ranges.find_all H D false) = Some ms
    /\ range_splits.to mem (string_view_ranges.split H D)
       = Some (cuts (string_view.size D) (string_view.begin H) (string_view.end_ H)
                 (map string_view.begin ms)).
Proof.
  intros HH HD. unfold string_view_ranges.split, string_view_ranges.find_all.
  destruct (splits_to mem (matcher_find.make D true)
              (matcher_find_in_range mem D true HD)
              (matcher_find_skip D true)
              (string_view.end_ H) H HH eq_refl) as (gs & Hgs & Hgaps).
  destruct (matches_to mem (matcher_find.make D false)
              (matcher_find_in_range mem D false HD)
              (matcher_find_skip D false)
              (string_view.end_ H) H HH eq_refl) as (ms & Hms & Hrep).
  exists ms. split; [exact Hms|]. rewrite Hgs. f_equal.
  apply (gaps_are_cuts mem (matcher_find.make D false)
           (matcher_find_in_range mem D false HD) (matcher_find_skip_whole D) H gs ms HH);
    [apply (gaps_of_any_overlap mem D true false); exact Hgaps | exact Hrep].
Qed.

Lemma split_gaps_lie_between_matches_witness :
  exists ms,
    range_matches.to examples.mem_csv
      (string_view_ranges.find_all examples.a_b_c examples.comma false) = Some ms
    /\ range_splits.to examples.mem_csv
         (string_view_ranges.split examples.a_b_c examples.comma)
       = Some (cuts (string_view.size examples.comma)
                 (string_view.begin examples.a_b_c) (string_view.end_ examples.a_b_c)
                 (map string_view.begin ms)).
Proof.
  exact (split_gaps_lie_between_matches examples.mem_csv examples.a_b_c examples.comma
           ltac:(unfold valid; cbn; lia) ltac:(unfold valid; cbn; lia)).
Defined.

(** X22.  [rsplit(delimiter)] terminates and yields the slices that lie
    between the matches [rfind_all(delimiter)] reports without overlaps,
    last slice first; taken in reverse and joined by the delimiter they are
    the haystack. *)
Theorem rsplit_yields_gaps_backward (mem : memory) (H D : string_view.t) :
  valid H -> valid D ->
  exists ms gs,
    range_rmatches.to mem (string_view_ranges.rfind_all H D false) = Some ms
    /\ range_rsplits.to mem (string_view_ranges.rsplit H D) = Some gs
    /\ gs = rev (cuts (string_view.size D) (string_view.begin H) (string_view.end_ H)
                   (rev (map string_view.begin ms)))
    /\ join (string_view.to_list mem D) (map (string_view.to_list mem) (rev gs))
       = string_view.to_list mem H.
Proof.
  intros HH HD. unfold string_view_ranges.rsplit, string_view_ranges.rfind_all.
  destruct (rsplits_to mem (matcher_rfind.make D true)
              (matcher_rfind_in_range mem D true HD)
              (matcher_rfind_skip D true)
              (string_view.begin H) H HH eq_refl) as (gs & Hgs & Hgaps).
  destruct (rmatches_to mem (matcher_rfind.make D false)
              (matcher_rfind_in_range mem D false HD)
              (matcher_rfind_skip D false)
              (string_view.begin H) H HH eq_refl) as (ms & Hms & Hrep).
  exists ms, gs. split; [exact Hms|]. split; [exact Hgs|]. split.
  - apply (gaps_back_are_cuts mem (matcher_rfind.make D false)
             (matcher_rfind_in_range mem D false HD) eq_refl H gs ms HH);
      [apply (gaps_back_any_overlap mem D true false); exact Hgaps | exact Hrep].
  - apply (gaps_back_join mem D true H gs HD HH Hgaps).
Qed.

Lemma rsplit_yields_gaps_backward_witness :
  exists ms gs,
    range_rmatches.to examples.mem_csv
      (string_view_ranges.rfind_all examples.a_b_c examples.comma false) = Some ms
    /\ range_rsplits.to examples.mem_csv
         (string_view_ranges.rsplit examples.a_b_c examples.comma) = Some gs
    /\ gs = rev (cuts (string_view.size examples.comma)
                   (string_view.begin examples.a_b_c) (string_view.end_ examples.a_b_c)
                   (rev (map string_view.begin ms)))
    /\ join (string_view.to_list examples.mem_csv examples.comma)
         (map (string_view.to_list examples.mem_csv) (rev gs))
       = string_view.to_list examples.mem_csv examples.a_b_c.
Proof.
  exact (rsplit_yields_gaps_backward examples.mem_csv examples.a_b_c examples.comma
           ltac:(unfold valid; cbn; lia) ltac:(unfold valid; cbn; lia)).
Defined.

(* ------------------------------------------------------------------------- *)
(** ** Ranges over a character set *)

Lemma first_of_in_range (mem : memory) (set : character_set.t) :
  forall r, valid r ->
            locate mem (matcher_find_first_of.mk set) r <> string_view.npos ->
            0 <= locate mem (matcher_find_first_of.mk set) r
            /\ 0 < needle_length (matcher_find_first_of.mk set)
            /\ locate mem (matcher_find_first_of.mk set) r
               + needle_length (matcher_find_first_of.mk set)
               <= string_view.length_ r.
Proof.
  intros r Hr Hn. change (locate mem (matcher_find_first_of.mk set) r)
    with (string_view.find_first_of mem r set) in *.
  change (needle_length (matcher_find_first_of.mk set)) with 1.
  destruct (find_first_of_cases mem r set Hr) as [[Hnone _]|(_ & Hrange & _)];
    [contradiction | lia].
Qed.

Lemma last_of_in_range (mem : memory) (set : character_set.t) :
  forall r, valid r ->
            locate mem (matcher_find_last_of.mk set) r <> string_view.npos ->
            0 <= locate mem (matcher_find_last_of.mk set) r
            /\ 0 < needle_length (matcher_find_last_of.mk set)
            /\ locate mem (matcher_find_last_of.mk set) r
               + needle_length (matcher_find_last_of.mk set)
               <= string_view.length_ r.
Proof.
  intros r Hr Hn. change (locate mem (matcher_find_last_of.mk set) r)
    with (string_view.find_last_of mem r set) in *.
  change (needle_length (matcher_find_last_of.mk set)) with 1.
  destruct (find_last_of_cases mem r set Hr) as [[Hnone _]|(_ & Hrange & _)];
    [contradiction | lia].
Qed.

Lemma one_byte_skip : 0 < 1 -> 0 < 1 <= 1.
Proof. lia. Qed.

Lemma first_of_located_first (mem : memory) (set : character_set.t) :
  forall r, valid r -> locate mem (matcher_find_first_of.mk set) r <> string_view.npos ->
            0 <= locate mem (matcher_find_first_of.mk set) r
            /\ locate mem (matcher_find_first_of.mk set) r
               + needle_length (matcher_find_first_of.mk set) <= string_view.length_ r
            /\ holds_member mem set
                 (string_view.start_ r + locate mem (matcher_find_first_of.mk set) r) = true
            /\ forall a, string_view.start_ r <= a
                         < string_view.start_ r + locate mem (matcher_find_first_of.mk set) r ->
                         holds_member mem set a = false.
Proof.
  intros r Hr Hn. change (locate mem (matcher_find_first_of.mk set) r)
    with (string_view.find_first_of mem r set) in *.
  change (needle_length (matcher_find_first_of.mk set)) with 1.
  destruct (find_first_of_cases mem r set Hr) as [[Hnone _]|(_ & Hrange & Hin & Hmin)];
    [contradiction|].
  repeat split; try lia; [exact Hin | exact Hmin].
Qed.

Lemma first_of_not_located (mem : memory) (set : character_set.t) :
  forall r, valid r -> locate mem (matcher_find_first_of.mk set) r = string_view.npos ->
            forall a, string_view.start_ r <= a ->
                      a + needle_length (matcher_find_first_of.mk set)
                      <= string_view.start_ r + string_view.length_ r ->
                      holds_member mem set a = false.
Proof.
  intros r Hr Hn a Ha Hle. change (locate mem (matcher_find_first_of.mk set) r)
    with (string_view.find_first_of mem r set) in *.
  change (needle_length (matcher_find_first_of.mk set)) with 1 in Hle.
  destruct (find_first_of_cases mem r set Hr) as [[_ Hall]|(Hf & _)];
    [|contradiction].
  apply Hall. lia.
Qed.

Lemma last_of_located_last (mem : memory) (set : character_set.t) :
  forall r, valid r -> locate mem (matcher_find_last_of.mk set) r <> string_view.npos ->
            0 <= locate mem (matcher_find_last_of.mk set) r
            /\ locate mem (matcher_find_last_of.mk set) r
               + needle_length (matcher_find_last_of.mk set) <= string_view.length_ r
            /\ holds_member mem set
                 (string_view.start_ r + locate mem (matcher_find_last_of.mk set) r) = true
            /\ forall a, string_view.start_ r + locate mem (matcher_find_last_of.mk set) r < a ->
                         a + needle_length (matcher_find_last_of.mk set)
                         <= string_view.start_ r + string_view.length_ r ->
                         holds_member mem set a = false.
Proof.
  intros r Hr Hn. change (locate mem (matcher_find_last_of.mk set) r)
    with (string_view.find_last_of mem r set) in *.
  change (needle_length (matcher_find_last_of.mk set)) with 1.
  destruct (find_last_of_cases mem r set Hr) as [[Hnone _]|(_ & Hrange & Hin & Hmax)];
    [contradiction|].
  repeat split; try lia; [exact Hin|].
  intros a Ha Hle. apply Hmax. lia.
Qed.

Lemma last_of_not_located (mem : memory) (set : character_set.t) :
  forall r, valid r -> locate mem (matcher_find_last_of.mk set) r = string_view.npos ->
            forall a, string_view.start_ r <= a ->
                      a + needle_length (matcher_find_last_of.mk set)
                      <= string_view.start_ r + string_view.length_ r ->
                      holds_member mem set a = false.
Proof.
  intros r Hr Hn a Ha Hle. change (locate mem (matcher_find_last_of.mk set) r)
    with (string_view.find_last_of mem r set) in *.
  change (needle_length (matcher_find_last_of.mk set)) with 1 in Hle.
  destruct (find_last_of_cases mem r set Hr) as [[_ Hall]|(Hf & _)];
    [|contradiction].
  apply Hall. lia.
Qed.

(** The forward matches of a set matcher over [h]. *)
Lemma reported_members (mem : memory) (h : string_view.t) (set : character_set.t)
      (l : list string_view.t) :
  valid h -> reported mem (matcher_find_first_of.mk set) h l ->
  l = slices_at h 1 (member_offsets mem h set).
Proof.
  intros Hh Hrep.
  rewrite (reported_every (H := matcher_find_first_of.ops) mem (matcher_find_first_of.mk set)
             (holds_member mem set) ltac:(cbn; lia) eq_refl
             (first_of_located_first mem set) (first_of_not_located mem set) h l Hh Hrep).
  change (needle_length (matcher_find_first_of.mk set)) with 1.
  replace (string_view.length_ h - 1 + 1) with (string_view.length_ h) by lia.
  apply hits_as_offsets.
Qed.

(** The backward matches of a set matcher over [h]. *)
Lemma reported_back_members (mem : memory) (h : string_view.t) (set : character_set.t)
      (l : list string_view.t) :
  valid h -> reported_back mem (matcher_find_last_of.mk set) h l ->
  l = rev (slices_at h 1 (member_offsets mem h set)).
Proof.
  intros Hh Hrep.
  rewrite (reported_back_every (H := matcher_find_last_of.ops) mem
             (matcher_find_last_of.mk set)
             (holds_member mem set) ltac:(cbn; lia) eq_refl
             (last_of_located_last mem set) (last_of_not_located mem set) h l Hh Hrep).
  change (needle_length (matcher_find_last_of.mk set)) with 1.
  replace (string_view.length_ h - 1 + 1) with (string_view.length_ h) by lia.
  f_equal. apply hits_as_offsets.
Qed.

Lemma begin_slices_at (h : string_view.t) (width : Z) (qs : list Z) :
  map string_view.begin (slices_at h width qs)
  = map (fun q => string_view.begin h + q) qs.
Proof. unfold slices_at. rewrite map_map. reflexivity. Qed.

(** No gap of a split on a set holds a byte of the set. *)
Lemma gaps_hold_no_member (mem : memory) (set : character_set.t)
      (r : string_view.t) (gs : list string_view.t) :
  valid r -> gaps_of mem (matcher_find_first_of.mk set) r gs ->
  Forall (fun g => Forall (fun c => character_set.contains set c = false)
                     (string_view.to_list mem g)) gs.
Proof.
  intros Hr Hg. induction Hg as [r Hn | r rest Hn Hg IH].
  - constructor; [|constructor]. rewrite <- (view_eta r). apply forall_to_list.
    intros b Hb. apply (first_of_not_located mem set r Hr Hn); cbn; lia.
  - destruct (first_of_located_first mem set r Hr Hn) as (Hp & Hle & _ & Hmin).
    constructor.
    + apply forall_to_list. exact Hmin.
    + apply IH. change (needle_length (matcher_find_first_of.mk set)) with 1 in *.
      view_arith.
Qed.

(** X23.  [find_all(character_set)] reports, as one-byte slices in
    ascending order, every offset of the haystack that holds a byte of the
    set; [rfind_all(character_set)] reports the same slices in reverse
    order. *)
Theorem find_all_set_reports_every_member
    (mem : memory) (H : string_view.t) (set : character_set.t) :
  valid H ->
  range_matches.to mem (string_view_ranges.find_all_set H set)
  = Some (slices_at H 1 (member_offsets mem H set))
  /\ range_rmatches.to mem (string_view_ranges.rfind_all_set H set)
     = Some (rev (slices_at H 1 (member_offsets mem H set))).
Proof.
  intros HH. unfold string_view_ranges.find_all_set, string_view_ranges.rfind_all_set.
  destruct (matches_to mem (matcher_find_first_of.mk set)
              (first_of_in_range mem set) one_byte_skip
              (string_view.end_ H) H HH eq_refl) as (l & Hto & Hrep).
  destruct (rmatches_to mem (matcher_find_last_of.mk set)
              (last_of_in_range mem set) one_byte_skip
              (string_view.begin H) H HH eq_refl) as (l' & Hto' & Hrep').
  rewrite Hto, Hto'.
  rewrite (reported_members mem H set l HH Hrep).
  rewrite (reported_back_members mem H set l' HH Hrep'). split; reflexivity.
Qed.

Lemma find_all_set_reports_every_member_witness :
  range_matches.to examples.mem_padded
    (string_view_ranges.find_all_set examples.padded examples.blank)
  = Some (slices_at examples.padded 1
            (member_offsets examples.mem_padded examples.padded examples.blank))
  /\ range_rmatches.to examples.mem_padded
       (string_view_ranges.rfind_all_set examples.padded examples.blank)
     = Some (rev (slices_at examples.padded 1
                    (member_offsets examples.mem_padded examples.padded examples.blank))).
Proof.
  exact (find_all_set_reports_every_member examples.mem_padded examples.padded
           examples.blank ltac:(unfold valid; cbn; lia)).
Defined.

(** X24.  [split(character_set)] yields the slices of the haystack between
    the bytes of the set, one more than there are such bytes, none holding a
    byte of the set; [rsplit(character_set)] yields the same slices in
    reverse order. *)
Theorem split_set_cuts_at_members
    (mem : memory) (H : string_view.t) (set : character_set.t) :
  valid H ->
  exists gs,
    range_splits.to mem (string_view_ranges.split_set H set) = Some gs
    /\ range_rsplits.to mem (string_view_ranges.rsplit_set H set) = Some (rev gs)
    /\ gs = cuts 1 (string_view.begin H) (string_view.end_ H)
              (map (fun q => string_view.begin H + q) (member_offsets mem H set))
    /\ List.length gs = S (List.length (member_offsets mem H set))
    /\ Forall (fun g => Forall (fun c => character_set.contains set c = false)
                          (string_view.to_list mem g)) gs.
Proof.
  intros HH. unfold string_view_ranges.split_set, string_view_ranges.rsplit_set.
  destruct (splits_to mem (matcher_find_first_of.mk set)
              (first_of_in_range mem set) one_byte_skip
              (string_view.end_ H) H HH eq_refl) as (gs & Hgs & Hgaps).
  destruct (matches_to mem (matcher_find_first_of.mk set)
              (first_of_in_range mem set) one_byte_skip
              (string_view.end_ H) H HH eq_refl) as (ms & _ & Hrep).
  destruct (rsplits_to mem (matcher_find_last_of.mk set)
              (last_of_in_range mem set) one_byte_skip
              (string_view.begin H) H HH eq_refl) as (gs' & Hgs' & Hgaps').
  destruct (rmatches_to mem (matcher_find_last_of.mk set)
              (last_of_in_range mem set) one_byte_skip
              (string_view.begin H) H HH eq_refl) as (ms' & _ & Hrep').
  pose proof (gaps_are_cuts mem (matcher_find_first_of.mk set)
                (first_of_in_range mem set) eq_refl H gs ms HH Hgaps Hrep) as Hcut.
  pose proof (gaps_back_are_cuts mem (matcher_find_last_of.mk set)
                (last_of_in_range mem set) eq_refl H gs' ms' HH Hgaps' Hrep') as Hcut'.
  rewrite (reported_members mem H set ms HH Hrep), begin_slices_at in Hcut.
  rewrite (reported_back_members mem H set ms' HH Hrep'), map_rev, rev_involutive,
    begin_slices_at in Hcut'.
  change (needle_length (matcher_find_first_of.mk set)) with 1 in Hcut.
  change (needle_length (matcher_find_last_of.mk set)) with 1 in Hcut'.
  exists gs. split; [exact Hgs|]. split; [rewrite Hgs', Hcut', Hcut; reflexivity|].
  split; [exact Hcut|]. split.
  - rewrite Hcut, cuts_length, length_map. reflexivity.
  - apply (gaps_hold_no_member mem set H gs HH Hgaps).
Qed.

Lemma split_set_cuts_at_members_witness :
  exists gs,
    range_splits.to examples.mem_padded
      (string_view_ranges.split_set examples.padded examples.blank) = Some gs
    /\ range_rsplits.to examples.mem_padded
         (string_view_ranges.rsplit_set examples.padded examples.blank) = Some (rev gs)
    /\ gs = cuts 1 (string_view.begin examples.padded) (string_view.end_ examples.padded)
              (map (fun q => string_view.begin examples.padded + q)
                 (member_offsets examples.mem_padded examples.padded examples.blank))
    /\ List.length gs
       = S (List.length (member_offsets examples.mem_padded examples.padded examples.blank))
    /\ Forall (fun g => Forall (fun c => character_set.contains examples.blank c = false)
                          (string_view.to_list examples.mem_padded g)) gs.
Proof.
  exact (split_set_cuts_at_members examples.mem_padded examples.padded examples.blank
           ltac:(unfold valid; cbn; lia)).
Defined.

(** X25.  The free function template [rsplit(h, n)] is declared to return
    the reverse match range: for a needle that is not empty it yields the
    occurrences of the needle, last one first and overlapping ones included,
    each slice holding the needle's bytes, and not the slices between them;
    it is the same range as the free [rfind_all(h, n)], and like it ignores
    its flag. *)
Theorem free_rsplit_reports_matches
    (mem : memory) (h n : string_view.t) (interleaving : bool) :
  valid h -> valid n -> 0 < string_view.size n ->
  exists l,
    range_rmatches.to mem (free_functions.rsplit h n interleaving) = Some l
    /\ l = rev (slices_at h (string_view.size n) (occurrences mem h n))
    /\ Forall (fun v => string_view.to_list mem v = string_view.to_list mem n) l
    /\ range_rmatches.to mem (free_functions.rfind_all h n interleaving) = Some l.
Proof.
  intros Hh Hn Hpos. unfold free_functions.rsplit, free_functions.rfind_all,
    string_view.size in *.
  destruct (rmatches_to mem (matcher_rfind.make n true)
              (matcher_rfind_in_range mem n true Hn)
              (matcher_rfind_skip n true)
              (string_view.begin h) h Hh eq_refl) as (l & Hto & Hrep).
  exists l. split; [exact Hto|]. split; [|split; [|exact Hto]].
  - rewrite (reported_back_every (H := matcher_rfind.ops) mem (matcher_rfind.make n true)
               (occurs_at mem n) Hpos eq_refl
               (rfind_located_last mem n Hn) (rfind_not_located mem n Hn Hpos) h l Hh Hrep).
    rewrite matcher_rfind_needle_length. f_equal. apply hits_as_offsets.
  - apply (reported_back_occurrences mem n true h l Hn Hh Hrep).
Qed.

Lemma free_rsplit_reports_matches_witness :
  exists l,
    range_rmatches.to examples.mem_csv
      (free_functions.rsplit examples.a_b_c examples.comma true) = Some l
    /\ l = rev (slices_at examples.a_b_c (string_view.size examples.comma)
                  (occurrences examples.mem_csv examples.a_b_c examples.comma))
    /\ Forall (fun v => string_view.to_list examples.mem_csv v
                        = string_view.to_list examples.mem_csv examples.comma) l
    /\ range_rmatches.to examples.mem_csv
         (free_functions.rfind_all examples.a_b_c examples.comma true) = Some l.
Proof.
  exact (free_rsplit_reports_matches examples.mem_csv examples.a_b_c examples.comma true
           ltac:(unfold valid; cbn; lia) ltac:(unfold valid; cbn; lia)
           ltac:(cbn; lia)).
Defined.

(** X18.  [range_matches::empty()] of [find_all(needle)] is true exactly
    when [find(needle)] reports [npos], and that is exactly when the
    traversal yields no match. *)
Theorem find_all_empty_iff_not_found
    (mem : memory) (H D : string_view.t) (overlap : bool) :
  valid H -> valid D ->
  range_matches.empty mem (string_view_ranges.find_all H D overlap)
  = Some (string_view.find mem H D =? string_view.npos)
  /\ (string_view.find mem H D = string_view.npos
      <-> range_matches.to mem (string_view_ranges.find_all H D overlap) = Some []).
Proof.
  intros HH HD. unfold string_view_ranges.find_all.
  destruct (matches_to mem (matcher_find.make D overlap)
              (matcher_find_in_range mem D overlap HD)
              (matcher_find_skip D overlap)
              (string_view.end_ H) H HH eq_refl) as (l & Hto & Hrep).
  split.
  - unfold range_matches.empty, range_matches.begin.
    cbn [range_matches.haystack_ range_matches.matcher_].
    destruct (matches_make mem (matcher_find.make D overlap)
                (matcher_find_in_range mem D overlap HD)
                (string_view.end_ H) H (conj HH eq_refl)) as [[Hn Hmk]|[Hn Hmk]];
      rewrite Hmk; cbn [bind]; unfold range_matches.iterator.eq_sentinel,
        string_view.empty; cbn [range_matches.iterator.remaining_ string_view.length_];
      rewrite matcher_find_locate in *.
    + rewrite Hn, Z.eqb_refl. reflexivity.
    + destruct (find_found mem H D HH HD Hn) as (Hp & Hl & Hle & _).
      f_equal. destruct (Z.eqb_spec (string_view.find mem H D) string_view.npos);
        [contradiction|]. apply Z.eqb_neq. lia.
  - rewrite Hto. destruct Hrep as [r Hn | r rest Hn Hrep];
      rewrite matcher_find_locate in Hn.
    + split; [reflexivity | intros _; exact Hn].
    + split; [contradiction | discriminate].
Qed.

Lemma find_all_empty_iff_not_found_witness :
  range_matches.empty examples.mem_csv
    (string_view_ranges.find_all examples.comma examples.a_b_c true)
  = Some (string_view.find examples.mem_csv examples.comma examples.a_b_c
          =? string_view.npos).
Proof.
  exact (proj1 (find_all_empty_iff_not_found examples.mem_csv examples.comma
                  examples.a_b_c true
                  ltac:(unfold valid; cbn; lia) ltac:(unfold valid; cbn; lia))).
Defined.

(* ------------------------------------------------------------------------- *)
(** ** [basic_string]: assignment, swap and release *)

Section GrowAndAssign.
Import basic_string.

Lemma store_at_start (st : state) (b : block) (buf bytes : list byte) :
  buffer st b = Some buf ->
  (List.length bytes <= List.length buf)%nat ->
  store st (mk_pointer b 0) bytes
  = Some (set_buffer st b (bytes ++ skipn (List.length bytes) buf)).
Proof.
  intros Hbuf Hle. unfold store. cbn [blk off]. rewrite Hbuf. cbn [bind].
  destruct (Z.leb_spec 0 0); [|lia]. cbn [andb].
  destruct (Z.leb_spec (0 + Z.of_nat (List.length bytes)) (Z.of_nat (List.length buf)));
    [|lia].
  reflexivity.
Qed.

Lemma load_at_start (st : state) (b : block) (buf : list byte) (n : Z) :
  buffer st b = Some buf ->
  0 <= n <= Z.of_nat (List.length buf) ->
  load st (mk_pointer b 0) n = Some (firstn (Z.to_nat n) buf).
Proof.
  intros Hbuf Hn. unfold load. cbn [blk off]. rewrite Hbuf. cbn [bind].
  destruct (Z.leb_spec 0 0); [|lia].
  destruct (Z.leb_spec 0 n); [|lia]. cbn [andb].
  destruct (Z.leb_spec (0 + n) (Z.of_nat (List.length buf))); [|lia].
  reflexivity.
Qed.

Lemma stored_length (buf bytes : list byte) (o : Z) :
  0 <= o -> o + Z.of_nat (List.length bytes) <= Z.of_nat (List.length buf) ->
  List.length (firstn (Z.to_nat o) buf ++ bytes
               ++ skipn (Z.to_nat o + List.length bytes) buf)
  = List.length buf.
Proof.
  intros Ho Hle. rewrite !length_app, length_firstn, length_skipn. lia.
Qed.

(** Replacing the bytes of a live block by as many bytes keeps every string
    as well formed as it was. *)
Lemma set_buffer_well_formed (st : state) (b : block) (buf buf2 : list byte) (o : nat) :
  buffer st b = Some buf ->
  List.length buf2 = List.length buf ->
  well_formed (set_buffer st b buf2) o = well_formed st o.
Proof.
  intros Hbuf Hlen. unfold well_formed, is_internal.
  destruct (header_set_buffer st b buf2 o) as (Hs & Hl & Hsp).
  unfold sz_string_is_on_stack. rewrite Hs, Hl, Hsp.
  f_equal.
  destruct (pointer_eqb (start (objects st o)) (chars_ptr o)).
  - f_equal. f_equal. f_equal.
    destruct b as [o'|id]; cbn [set_buffer set_object objects]; [|reflexivity].
    unfold update. destruct (Nat.eqb_spec o o') as [->|]; [|reflexivity].
    cbn [chars buffer] in *. congruence.
  - destruct (blk (start (objects st o))) as [o1|id1]; [reflexivity|].
    destruct b as [o'|id]; cbn [set_buffer set_object heap]; [reflexivity|].
    unfold update. destruct (Nat.eqb_spec id1 id) as [->|]; [|reflexivity].
    cbn [buffer] in Hbuf. rewrite Hbuf, Hlen. reflexivity.
Qed.

(** A store keeps every string as well formed as it was. *)
Lemma store_well_formed (st st' : state) (p : pointer) (bytes : list byte) (o : nat) :
  store st p bytes = Some st' -> well_formed st' o = well_formed st o.
Proof.
  unfold store. destruct (buffer st (blk p)) as [buf|] eqn:Hbuf; [|discriminate].
  cbn [bind].
  destruct (Z.leb_spec 0 (off p)); cbn [andb]; [|discriminate].
  destruct (Z.leb_spec (off p + Z.of_nat (List.length bytes)) (Z.of_nat (List.length buf)));
    [|discriminate].
  intros [= <-]. apply (set_buffer_well_formed st (blk p) buf _ o Hbuf).
  apply stored_length; assumption.
Qed.

(** The string after its header was rewritten and [bytes] stored at the
    start of its buffer. *)
Lemma contents_after_store (st : state) (this : nat) (b : block) (buf bytes : list byte)
      (n sp : Z) :
  buffer st b = Some buf ->
  (List.length bytes <= List.length buf)%nat ->
  start (objects st this) = mk_pointer b 0 ->
  length (objects st this) = Z.of_nat (List.length bytes) ->
  exists st',
    store st (mk_pointer b 0) bytes = Some st'
    /\ contents st' this = Some bytes
    /\ size st' this = Z.of_nat (List.length bytes)
    /\ next_block st' = next_block st
    /\ available st' = available st
    /\ well_formed st' this = well_formed st this.
Proof.
  intros Hbuf Hle Hstart Hlen.
  pose proof (store_at_start st b buf bytes Hbuf Hle) as Hstore. rewrite Hstore.
  eexists. split; [reflexivity|].
  match goal with
  | |- contents (set_buffer _ _ ?buf2) _ = _ /\ _ =>
      destruct (header_set_buffer st b buf2 this) as (Hs & Hl & _)
  end.
  split; [|split; [|split; [|split]]];
    [| | | |apply (store_well_formed _ _ _ _ _ Hstore)].
  - unfold contents, view, sz_string_range. cbn [fst snd].
    rewrite Hs, Hl, Hstart, Hlen.
    rewrite (load_at_start _ b _ _ (buffer_set_buffer st b _))
      by (rewrite length_app; lia).
    rewrite Nat2Z.id, firstn_exact. reflexivity.
  - unfold size, view, sz_string_range. cbn [snd]. rewrite Hl. exact Hlen.
  - destruct b; reflexivity.
  - destruct b; reflexivity.
Qed.

(** [sz_string_erase] from [offset] to the end of a well-formed string. *)
Lemma erase_tail (st : state) (this : nat) (A : list byte) (offset : Z) :
  well_formed st this = true ->
  contents st this = Some A ->
  0 <= offset <= Z.of_nat (List.length A) ->
  exists st' b buf,
    sz_string_erase st this offset sz_size_max = Some st'
    /\ start (objects st' this) = start (objects st this)
    /\ start (objects st this) = mk_pointer b 0
    /\ length (objects st' this) = offset
    /\ buffer st' b = Some buf
    /\ offset < Z.of_nat (List.length buf)
    /\ firstn (Z.to_nat offset) buf = firstn (Z.to_nat offset) A
    /\ next_block st' = next_block st
    /\ available st' = available st
    /\ well_formed st' this = true.
Proof.
  intros Hwf HA Hoff.
  destruct (well_formed_buffer st this A Hwf HA)
    as (b & buf & Hstart & Hbuf & Hlen & Hlt & Hsp & HAeq & HAlen & Hext).
  unfold contents, view, sz_string_range in HA. cbn [fst snd] in HA.
  unfold sz_string_erase. unfold sz_string_unpack in *. cbn [fst snd] in *.
  replace (sz_min_of_two offset (length (objects st this))) with offset
    by (rewrite sz_min_of_two_min; lia).
  replace (sz_min_of_two sz_size_max (length (objects st this) - offset))
    with (length (objects st this) - offset)
    by (rewrite sz_min_of_two_min; lia).
  rewrite HA. cbn [bind].
  replace (offset + (length (objects st this) - offset)) with (length (objects st this))
    by lia.
  rewrite (skipn_all2 A) by lia. cbn [app].
  rewrite Hstart.
  set (kept := firstn (Z.to_nat offset) A ++ [x00]).
  assert (Hkept : Z.of_nat (List.length kept) = offset + 1).
  { unfold kept. rewrite length_app, length_firstn. cbn [List.length]. lia. }
  rewrite (store_at_start st b buf kept Hbuf) by lia.
  cbn [bind].
  eexists. exists b. eexists. split; [reflexivity|].
  cbn [set_object objects]. rewrite update_same. cbn [start length].
  destruct (header_set_buffer st b (kept ++ skipn (List.length kept) buf) this)
    as (Hs & Hl & Hspace).
  split; [rewrite Hs; exact Hstart|]. split; [reflexivity|]. split; [lia|].
  split; [rewrite buffer_set_header, buffer_set_buffer; reflexivity|].
  split; [rewrite !length_app, length_skipn; lia|].
  split; [|split; [|split]].
  - unfold kept. rewrite <- !app_assoc. apply firstn_exact'. rewrite length_firstn. lia.
  - destruct b; reflexivity.
  - destruct b; reflexivity.
  - assert (Hsame : List.length (kept ++ skipn (List.length kept) buf) = List.length buf)
      by (rewrite length_app, length_skipn; lia).
    pose proof (set_buffer_well_formed st b buf _ this Hbuf Hsame) as Hwf'.
    rewrite Hwf in Hwf'.
    unfold well_formed, is_internal, sz_string_is_on_stack in Hwf' |- *.
    cbn [set_object objects heap]. rewrite update_same. cbn [start length space chars].
    rewrite Hs in *. rewrite Hl in Hwf'. rewrite Hspace in *.
    apply andb_true_iff in Hwf'. destruct Hwf' as [_ Hwf'].
    apply andb_true_iff. split; [apply andb_true_iff; split; apply Z.leb_le; lia|].
    unfold sz_string_is_on_stack in Hlt.
    destruct (pointer_eqb (start (objects st this)) (chars_ptr this)).
    + apply andb_true_iff in Hwf'. destruct Hwf' as [_ Hchars].
      apply andb_true_iff. split; [apply Z.ltb_lt; lia | exact Hchars].
    + destruct (blk (start (objects st this))) as [o1|id1]; [discriminate|].
      destruct (heap (set_buffer st b (kept ++ skipn (List.length kept) buf)) id1);
        [|discriminate].
      apply andb_true_iff in Hwf'. destruct Hwf' as [Hwf' Hsize].
      apply andb_true_iff in Hwf'. destruct Hwf' as [Hzero _].
      rewrite Hzero, Hsize, andb_true_r. cbn [andb]. apply Z.ltb_lt. lia.
Qed.

Lemma grown_by (A : list byte) (len n : Z) :
  Z.of_nat (List.length A) = len -> 0 <= n ->
  firstn (Z.to_nat (len + n)) (A ++ repeat x00 (Z.to_nat n))
  ++ skipn (Z.to_nat len) A ++ [x00]
  = A ++ repeat x00 (Z.to_nat n) ++ [x00].
Proof.
  intros Hlen Hn.
  rewrite firstn_all2 by (rewrite length_app, repeat_length; lia).
  rewrite skipn_all2 by lia. rewrite <- app_assoc. reflexivity.
Qed.

(** [sz_string_expand] at the end of a well-formed string, by [n] bytes: it
    reports an allocation failure and leaves the state as it was, or leaves
    a well-formed string of [n] more bytes whose buffer starts with the old
    bytes. *)
Lemma expand_grows (st : state) (this : nat) (A : list byte) (n : Z) :
  well_formed st this = true ->
  contents st this = Some A ->
  heap st (next_block st) = None ->
  0 <= n ->
  sz_string_expand st this sz_size_max n = Some (None, st)
  \/ exists st' b rest,
       sz_string_expand st this sz_size_max n = Some (Some (mk_pointer b 0), st')
       /\ start (objects st' this) = mk_pointer b 0
       /\ length (objects st' this) = length (objects st this) + n
       /\ buffer st' b = Some ((A ++ repeat x00 (Z.to_nat n) ++ [x00]) ++ rest)
       /\ (length (objects st this) + n <= sz_size_max -> well_formed st' this = true).
Proof.
  intros Hwf HA Hfresh Hn.
  destruct (well_formed_buffer st this A Hwf HA)
    as (b & buf & Hstart & Hbuf & Hlen & Hlt & Hsp & HAeq & HAlen & Hext).
  unfold contents, view, sz_string_range in HA. cbn [fst snd] in HA.
  unfold sz_string_expand. unfold sz_string_unpack in *. cbn [fst snd] in *.
  replace (sz_min_of_two sz_size_max (length (objects st this)))
    with (length (objects st this))
    by (rewrite sz_min_of_two_min; lia).
  rewrite HA. cbn [bind]. rewrite (grown_by A _ n HAlen Hn).
  set (space' := if sz_string_is_on_stack this (objects st this)
                 then sz_string_stack_space else space (objects st this)) in *.
  set (grown := A ++ repeat x00 (Z.to_nat n) ++ [x00]).
  assert (Hgrown : Z.of_nat (List.length grown) = length (objects st this) + n + 1).
  { unfold grown. rewrite !length_app, repeat_length. cbn [List.length]. lia. }
  destruct (Z.ltb_spec (length (objects st this) + n) space') as [Hfit|Hfull].
  - (* in place *)
    right. rewrite Hstart. rewrite (store_at_start st b buf grown Hbuf) by lia.
    cbn [bind].
    eexists. exists b. eexists. split; [reflexivity|].
    cbn [set_object objects]. rewrite update_same.
    cbn [start length].
    destruct (header_set_buffer st b (grown ++ skipn (List.length grown) buf) this)
      as (Hs & Hl & Hspace).
    split; [rewrite Hs; exact Hstart|]. split; [reflexivity|].
    split; [rewrite buffer_set_header, buffer_set_buffer; reflexivity|].
    intros Hmax.
    assert (Hsame : List.length (grown ++ skipn (List.length grown) buf) = List.length buf)
      by (rewrite length_app, length_skipn; lia).
    pose proof (set_buffer_well_formed st b buf _ this Hbuf Hsame) as Hwf'.
    rewrite Hwf in Hwf'.
    unfold well_formed, is_internal, sz_string_is_on_stack in Hwf' |- *.
    cbn [set_object objects heap]. rewrite update_same. cbn [start length space chars].
    rewrite Hs in *. rewrite Hl in Hwf'. rewrite Hspace in *.
    apply andb_true_iff in Hwf'. destruct Hwf' as [_ Hwf'].
    apply andb_true_iff. split; [apply andb_true_iff; split; apply Z.leb_le; lia|].
    unfold space' in Hfit. unfold sz_string_is_on_stack in Hfit.
    destruct (pointer_eqb (start (objects st this)) (chars_ptr this)).
    + apply andb_true_iff in Hwf'. destruct Hwf' as [_ Hchars].
      apply andb_true_iff. split; [apply Z.ltb_lt; exact Hfit | exact Hchars].
    + destruct (blk (start (objects st this))) as [o1|id1]; [discriminate|].
      destruct (heap (set_buffer st b (grown ++ skipn (List.length grown) buf)) id1);
        [|discriminate].
      apply andb_true_iff in Hwf'. destruct Hwf' as [Hwf' Hsize].
      apply andb_true_iff in Hwf'. destruct Hwf' as [Hoff _].
      rewrite Hoff, Hsize, andb_true_r. cbn [andb]. apply Z.ltb_lt. exact Hfit.
  - (* a fresh block *)
    unfold allocate.
    set (new_space := Z.max (2 * space') (length (objects st this) + n + 1)).
    destruct ((0 <=? new_space) && (new_space <=? available st)) eqn:Hgrant;
      [|left; reflexivity].
    right.
    match goal with
    | |- exists _ _ _, bind (store ?s _ _) _ = _ /\ _ =>
        rewrite (store_at_start s (Heap (next_block st))
                   (repeat x00 (Z.to_nat new_space)) grown)
          by (cbn [buffer heap]; rewrite ?update_same, ?repeat_length;
              try reflexivity; unfold new_space in *; lia)
    end.
    cbn [bind].
    eexists. exists (Heap (next_block st)). eexists. split; [reflexivity|].
    cbn [set_object objects]. rewrite update_same. cbn [start length].
    split; [reflexivity|]. split; [reflexivity|].
    assert (Hnew : Z.of_nat
                     (List.length (grown ++ skipn (List.length grown)
                                              (repeat x00 (Z.to_nat new_space))))
                   = new_space).
    { rewrite length_app, length_skipn, repeat_length. unfold new_space in *. lia. }
    destruct (sz_string_is_on_stack this (objects st this)) eqn:Hint; cbn [negb].
    + split; [rewrite buffer_set_header, buffer_set_buffer; reflexivity|].
      intros Hmax. unfold well_formed, is_internal, sz_string_is_on_stack.
      cbn [set_object objects heap set_buffer]. rewrite update_same.
      cbn [start length space pointer_eqb blk off block_eqb chars_ptr andb].
      rewrite update_same, Hnew, !Z.eqb_refl.
      apply andb_true_iff. split; [apply andb_true_iff; split; apply Z.leb_le; lia|].
      cbn [andb]. rewrite andb_true_r. apply Z.ltb_lt. unfold new_space. lia.
    + destruct (Hext eq_refl) as [id ->].
      assert (Hid : next_block st <> id).
      { intros Heq. cbn [buffer] in Hbuf. rewrite <- Heq in Hbuf. congruence. }
      split.
      * rewrite buffer_set_header. unfold free. rewrite Hstart. cbn [blk buffer heap].
        cbn [set_buffer heap]. rewrite update_other by exact Hid.
        rewrite update_same. reflexivity.
      * intros Hmax. unfold well_formed, is_internal, sz_string_is_on_stack.
        unfold free. rewrite Hstart.
        cbn [set_object objects heap set_buffer blk]. rewrite update_same.
        cbn [start length space pointer_eqb blk off block_eqb chars_ptr andb].
        rewrite update_other by exact Hid. rewrite update_same, Hnew, !Z.eqb_refl.
        apply andb_true_iff. split; [apply andb_true_iff; split; apply Z.leb_le; lia|].
        cbn [andb]. rewrite andb_true_r. apply Z.ltb_lt. unfold new_space. lia.
Qed.

(** X27.  [try_assign(other)], for a source that lies outside the string's
    own buffer, on a well-formed string that is empty or at least as long as
    [other]: on success the string holds exactly the bytes of [other] and
    has their length, and is well formed again; when [other] is not longer
    than the string nothing is allocated and the call cannot fail; failure is
    an allocator refusal and leaves the state as it was. *)
Theorem try_assign_replaces_contents (st : state) (this : nat) (other A : list byte) :
  well_formed st this = true ->
  contents st this = Some A ->
  heap st (next_block st) = None ->
  (List.length other <= List.length A)%nat \/ A = [] ->
  (try_assign st this other = Some (false, st)
   /\ (List.length A < List.length other)%nat)
  \/ exists st',
       try_assign st this other = Some (true, st')
       /\ contents st' this = Some other
       /\ size st' this = Z.of_nat (List.length other)
       /\ ((List.length other <= List.length A)%nat ->
           next_block st' = next_block st /\ available st' = available st)
       /\ (Z.of_nat (List.length other) <= sz_size_max -> well_formed st' this = true).
Proof.
  intros Hwf HA Hfresh Hcase.
  destruct (well_formed_buffer st this A Hwf HA)
    as (b0 & buf0 & Hstart0 & _ & _ & _ & _ & _ & HAlen & _).
  unfold try_assign, sz_string_range.
  destruct (Z.leb_spec (Z.of_nat (List.length other)) (length (objects st this)))
    as [Hshrink|Hgrow].
  - (* the new bytes fit the current length *)
    right.
    destruct (erase_tail st this A (Z.of_nat (List.length other)) Hwf HA ltac:(lia))
      as (st1 & b & buf & Herase & Hs1 & Hs & Hl1 & Hbuf1 & Hroom & _ & Hnb & Hav & Hwf1).
    rewrite Herase. cbn [bind]. rewrite Hs.
    destruct (contents_after_store st1 this b buf other 0 0 Hbuf1 ltac:(lia)
                ltac:(rewrite Hs1; exact Hs) Hl1)
      as (st2 & Hstore & Hc & Hsz & Hnb2 & Hav2 & Hwf2).
    rewrite Hstore. cbn [bind]. exists st2. split; [reflexivity|].
    split; [exact Hc|]. split; [exact Hsz|].
    split; [intros _; split; congruence|]. intros _. congruence.
  - (* growth: the string is empty *)
    destruct Hcase as [Hle | ->]; [lia|].
    cbn [List.length] in HAlen.
    destruct (expand_grows st this [] (Z.of_nat (List.length other)) Hwf HA Hfresh
                ltac:(lia))
      as [Hfail | (st1 & b & rest & Hexp & Hs1 & Hl1 & Hbuf1 & Hwf1)];
      rewrite ?Hfail, ?Hexp; cbn [bind].
    + left. split; [reflexivity|]. cbn [List.length]. lia.
    + right.
      destruct (contents_after_store st1 this b _ other 0 0 Hbuf1
                  ltac:(rewrite !length_app, repeat_length; cbn [List.length]; lia)
                  Hs1 ltac:(lia))
        as (st2 & Hstore & Hc & Hsz & _ & _ & Hwf2).
      rewrite Hstore. cbn [bind]. exists st2. split; [reflexivity|].
      split; [exact Hc|]. split; [exact Hsz|].
      split; [intros Hle; cbn [List.length] in Hle; lia|].
      intros Hmax. rewrite Hwf2. apply Hwf1. lia.
Qed.

Lemma try_assign_replaces_contents_witness :
  (basic_string.try_assign examples.short 0 (examples.bytes "xy")
   = Some (false, examples.short)
   /\ (List.length (examples.bytes "abc") < List.length (examples.bytes "xy"))%nat)
  \/ exists st',
       basic_string.try_assign examples.short 0 (examples.bytes "xy") = Some (true, st')
       /\ basic_string.contents st' 0 = Some (examples.bytes "xy")
       /\ basic_string.size st' 0 = Z.of_nat (List.length (examples.bytes "xy"))
       /\ ((List.length (examples.bytes "xy") <= List.length (examples.bytes "abc"))%nat ->
           basic_string.next_block st' = basic_string.next_block examples.short
           /\ basic_string.available st' = basic_string.available examples.short)
       /\ (Z.of_nat (List.length (examples.bytes "xy")) <= sz_size_max ->
           basic_string.well_formed st' 0 = true).
Proof.
  apply (try_assign_replaces_contents examples.short 0 (examples.bytes "xy")
           (examples.bytes "abc") eq_refl eq_refl eq_refl).
  left. vm_compute. lia.
Defined.



End GrowAndAssign.

Section SwapAndRelease.
Import basic_string.

Lemma swap_this (st : state) (this other : nat) :
  objects (swap st this other) this
  = if Nat.eqb this other then objects st this else objects st other.
Proof.
  unfold swap. cbn [set_object objects]. unfold update.
  rewrite Nat.eqb_refl. destruct (Nat.eqb this other); reflexivity.
Qed.

Lemma swap_other (st : state) (this other : nat) :
  objects (swap st this other) other = objects st this.
Proof. unfold swap. cbn [set_object objects]. apply update_same. Qed.

Lemma swap_heap (st : state) (this other : nat) : heap (swap st this other) = heap st.
Proof. reflexivity. Qed.

(** A heap string whose header is placed in another object. *)
Lemma heap_string_rehomed (st st' : state) (from to : nat) (A : list byte) :
  heap st' = heap st ->
  objects st' to = objects st from ->
  is_internal st from = false ->
  well_formed st from = true ->
  contents st from = Some A ->
  contents st' to = Some A
  /\ well_formed st' to = true
  /\ is_internal st' to = false
  /\ data st' to = data st from.
Proof.
  intros Hheap Hobj Hint Hwf HA.
  unfold well_formed in Hwf. rewrite Hint in Hwf.
  unfold contents, view, sz_string_range, load, well_formed, is_internal, data in *.
  cbn [fst snd] in *. rewrite Hobj.
  destruct (objects st from) as [[b o] len ch sp].
  cbn [start length space blk off chars] in *.
  destruct b as [o'|id]; [rewrite andb_false_r in Hwf; discriminate|].
  cbn [buffer] in *. rewrite Hheap.
  assert (Hext : sz_string_is_on_stack to (mk_string (mk_pointer (Heap id) o) len ch sp)
                 = false) by reflexivity.
  rewrite Hext. cbn [start length space blk off]. auto.
Qed.

(** X28.  [swap] of two distinct well-formed strings that both are in the
    heap state exchanges their contents and data pointers and leaves both
    well formed. *)
Theorem swap_exchanges_heap_strings (st : state) (a b : nat) (A B : list byte) :
  a <> b ->
  well_formed st a = true -> well_formed st b = true ->
  is_internal st a = false -> is_internal st b = false ->
  contents st a = Some A -> contents st b = Some B ->
  contents (swap st a b) a = Some B
  /\ contents (swap st a b) b = Some A
  /\ well_formed (swap st a b) a = true
  /\ well_formed (swap st a b) b = true
  /\ data (swap st a b) a = data st b
  /\ data (swap st a b) b = data st a.
Proof.
  intros Hne Hwa Hwb Hia Hib HA HB.
  assert (Hoa : objects (swap st a b) a = objects st b).
  { rewrite swap_this. destruct (Nat.eqb_spec a b); [contradiction | reflexivity]. }
  destruct (heap_string_rehomed st (swap st a b) b a B (swap_heap st a b) Hoa Hib Hwb HB)
    as (Hc1 & Hw1 & _ & Hd1).
  destruct (heap_string_rehomed st (swap st a b) a b A (swap_heap st a b)
              (swap_other st a b) Hia Hwa HA)
    as (Hc2 & Hw2 & _ & Hd2).
  auto 10.
Qed.

Lemma swap_exchanges_heap_strings_witness :
  basic_string.contents (basic_string.swap examples.two_long 0 1) 0 = Some examples.numbers
  /\ basic_string.contents (basic_string.swap examples.two_long 0 1) 1
     = Some examples.alphabet
  /\ basic_string.well_formed (basic_string.swap examples.two_long 0 1) 0 = true
  /\ basic_string.well_formed (basic_string.swap examples.two_long 0 1) 1 = true
  /\ basic_string.data (basic_string.swap examples.two_long 0 1) 0
     = basic_string.data examples.two_long 1
  /\ basic_string.data (basic_string.swap examples.two_long 0 1) 1
     = basic_string.data examples.two_long 0.
Proof.
  exact (swap_exchanges_heap_strings examples.two_long 0 1 examples.alphabet
           examples.numbers ltac:(discriminate) eq_refl eq_refl eq_refl eq_refl
           eq_refl eq_refl).
Defined.



(** X30.  Move assignment never allocates; when the destination is in the
    inline state the heap is left as it was, and when it points to a heap
    block that block is released with the destination's capacity before the
    source is taken over. *)
Theorem move_assign_releases_destination (st : state) (dest src : nat) :
  (is_internal st dest = true ->
   heap (move_assign st dest src) = heap st
   /\ available (move_assign st dest src) = available st)
  /\ (forall id o, start (objects st dest) = mk_pointer (Heap id) o ->
                   heap (move_assign st dest src) id = None
                   /\ available (move_assign st dest src)
                      = available st + space (objects st dest))
  /\ next_block (move_assign st dest src) = next_block st.
Proof.
  unfold move_assign. split; [|split].
  - intros ->. cbn [negb]. split; reflexivity.
  - intros id o Hstart.
    assert (Hext : is_internal st dest = false).
    { unfold is_internal, sz_string_is_on_stack. rewrite Hstart. reflexivity. }
    rewrite Hext. cbn [negb]. rewrite move_heap.
    unfold sz_string_free. unfold is_internal in Hext. rewrite Hext.
    unfold free. rewrite Hstart. cbn [blk set_object heap].
    split; [apply update_same|].
    unfold move. destruct (sz_string_unpack src _) as [[[? ?] ?] ?]. reflexivity.
  - destruct (negb (is_internal st dest)).
    + unfold move. destruct (sz_string_unpack src _) as [[[? ?] ?] ?].
      cbn [set_object next_block]. unfold sz_string_free.
      destruct (sz_string_is_on_stack dest (objects st dest)); [reflexivity|].
      unfold free. destruct (blk (start (objects st dest))); reflexivity.
    + unfold move. destruct (sz_string_unpack src _) as [[[? ?] ?] ?]. reflexivity.
Qed.

Lemma move_assign_releases_destination_witness :
  basic_string.heap (basic_string.move_assign examples.long 0 1) 0 = None
  /\ basic_string.available (basic_string.move_assign examples.long 0 1)
     = basic_string.available examples.long
       + basic_string.space (basic_string.objects examples.long 0).
Proof.
  exact (proj1 (proj2 (move_assign_releases_destination examples.long 0 1)) 0%nat 0
           eq_refl).
Defined.

End SwapAndRelease.
